(** * Event aggregator: the dedup ledger and the ingestion pipeline

    A shallow embedding of [src/dedup_store.py] (class [DedupStore]) and
    [src/processor.py] (class [EventProcessor]), with the part of the
    [aiosqlite] connection and of [asyncio.Queue] those two classes rely
    on, and of the handlers and the [lifespan] of [src/main.py].

    Python exceptions are values of [exn]; a method is a computation in a
    state-and-exception monad, so that state written before a [raise]
    is kept, as in Python.  Informational logging ([logger.info],
    [logger.debug], [logger.warning]) has no state in the model; the
    [logger.error] record of the consumer loop is kept, because it is the
    only trace that branch leaves. *)

From stdpp Require Import gmap strings list.
From Stdlib Require Import ZArith.
From Stdlib Require Import Sorted.
From Stdlib Require Import DecimalString.
From Stdlib Require OrderedTypeEx.

Local Open Scope string_scope.
Local Open Scope list_scope.

(** ** Exceptions and results *)

Inductive exn : Type :=
  | RuntimeError (msg : string)
  | ValueError (msg : string)
  | OperationalError (msg : string)
  | IntegrityError (msg : string)
  | AttributeError (msg : string).

Inductive result (A : Type) : Type :=
  | Ok (a : A)
  | Raise (e : exn).
Arguments Ok {A} a.
Arguments Raise {A} e.

(** ** A state-and-exception monad *)

Definition M (S A : Type) : Type := S -> result A * S.

Definition ret {S A} (a : A) : M S A := fun s => (Ok a, s).

Definition raise {S A} (e : exn) : M S A := fun s => (Raise e, s).

Definition bind {S A B} (m : M S A) (k : A -> M S B) : M S B :=
  fun s =>
    match m s with
    | (Ok a, s') => k a s'
    | (Raise e, s') => (Raise e, s')
    end.

Definition get {S} : M S S := fun s => (Ok s, s).

Definition modify {S} (f : S -> S) : M S unit := fun s => (Ok tt, f s).

(** [try: m except h]: the handler sees the state as the body left it. *)
Definition try_except {S A} (m : M S A) (h : exn -> M S A) : M S A :=
  fun s =>
    match m s with
    | (Ok a, s') => (Ok a, s')
    | (Raise e, s') => h e s'
    end.

Global Instance M_ret {S} : MRet (M S) := fun A => @ret S A.
Global Instance M_bind {S} : MBind (M S) := fun A B k m => bind m k.

(** ** The storage layer

    The ledger keeps its records in an SQLite file that it reaches through
    an [aiosqlite] connection.  The library is not part of the
    repository; the model has the behaviour of a connection that the
    ledger relies on:
    - a statement or a commit on a closed connection raises
      [ValueError "no active connection"];
    - an [INSERT] that repeats a primary key raises [IntegrityError];
    - inserted rows are visible through the connection at once and reach
      the file at [commit];
    - [close] drops what is uncommitted, and returns at once on a
      connection that is closed already.
    Failures of the file system itself are not modelled.

    The table [processed_events] has the columns [topic], [event_id],
    [first_seen_at] and the primary key [(topic, event_id)].  The files
    are a map from the path of a database file to the committed rows of
    that table, in insertion order; a path with no entry has no table
    yet. *)

Record Row : Type := mkRow {
  row_topic : string;
  row_event_id : string;
  row_first_seen_at : string
}.

(** A connection keeps the rows inserted since the last commit; they are
    visible through this connection and are written to the file by
    [commit].  Closing drops them. *)
Record Connection : Type := mkConnection {
  conn_path : string;
  conn_open : bool;
  conn_pending : list Row
}.

Definition same_key (topic event_id : string) (r : Row) : bool :=
  String.eqb (row_topic r) topic && String.eqb (row_event_id r) event_id.

Definition has_key (topic event_id : string) (rows : list Row) : bool :=
  existsb (same_key topic event_id) rows.

Module aiosqlite.

Definition closed_error : exn := ValueError "no active connection".
Definition no_table_error : exn :=
  OperationalError "no such table: processed_events".
Definition unique_error : exn :=
  IntegrityError
    "UNIQUE constraint failed: processed_events.topic, processed_events.event_id".

Definition connect (path : string) : Connection :=
  {| conn_path := path; conn_open := true; conn_pending := [] |}.

(** The rows a statement run on [c] sees. *)
Definition visible (d : gmap string (list Row)) (c : Connection)
  : option (list Row) :=
  match d !! conn_path c with
  | Some rows => Some (rows ++ conn_pending c)
  | None => None
  end.

(** [CREATE TABLE IF NOT EXISTS processed_events (...)] *)
Definition execute_create_table
    (d : gmap string (list Row)) (c : Connection)
  : result (gmap string (list Row)) :=
  if conn_open c then
    match d !! conn_path c with
    | Some _ => Ok d
    | None => Ok (<[conn_path c := []]> d)
    end
  else Raise closed_error.

(** [CREATE INDEX IF NOT EXISTS idx_topic ON processed_events(topic)]:
    an index holds no data of its own. *)
Definition execute_create_index
    (d : gmap string (list Row)) (c : Connection) : result unit :=
  if conn_open c then
    match d !! conn_path c with
    | Some _ => Ok tt
    | None => Raise no_table_error
    end
  else Raise closed_error.

(** [INSERT INTO processed_events (topic, event_id, first_seen_at)
    VALUES (?, ?, ?)] *)
Definition execute_insert (d : gmap string (list Row)) (c : Connection) (r : Row)
  : result Connection :=
  if conn_open c then
    match visible d c with
    | None => Raise no_table_error
    | Some rows =>
        if has_key (row_topic r) (row_event_id r) rows
        then Raise unique_error
        else Ok {| conn_path := conn_path c;
                   conn_open := true;
                   conn_pending := conn_pending c ++ [r] |}
    end
  else Raise closed_error.

Definition commit (d : gmap string (list Row)) (c : Connection)
  : result (gmap string (list Row) * Connection) :=
  if conn_open c then
    match visible d c with
    | None => Ok (d, c)
    | Some rows =>
        Ok (<[conn_path c := rows]> d,
            {| conn_path := conn_path c;
               conn_open := true;
               conn_pending := [] |})
    end
  else Raise closed_error.

(** A query: [q] computes the answer from the visible rows. *)
Definition execute_select {A} (q : list Row -> A)
    (d : gmap string (list Row)) (c : Connection) : result A :=
  if conn_open c then
    match visible d c with
    | None => Raise no_table_error
    | Some rows => Ok (q rows)
    end
  else Raise closed_error.

(** Closing a closed connection returns at once. *)
Definition close (c : Connection) : Connection :=
  if conn_open c then
    {| conn_path := conn_path c; conn_open := false; conn_pending := [] |}
  else c.

End aiosqlite.

(** ** The dedup ledger ([src/dedup_store.py]) *)

(** [self.db_path], [self.db].  [initialize] also creates the parent
    directory of [db_path]; directories are not part of the model. *)
Record DedupStore : Type := mkDedupStore {
  db_path : string;
  db : option Connection
}.

(** What a ledger method works on: the files and the instance. *)
Record World : Type := mkWorld {
  disk : gmap string (list Row);
  store : DedupStore
}.

Definition set_db (o : option Connection) (w : World) : World :=
  {| disk := disk w;
     store := {| db_path := db_path (store w); db := o |} |}.

Definition set_disk (d : gmap string (list Row)) (w : World) : World :=
  {| disk := d; store := store w |}.

Module DedupStore.

Definition not_initialized : exn := RuntimeError "DedupStore not initialized".

(** [DedupStore(db_path)] *)
Definition __init__ (path : string) : DedupStore :=
  {| db_path := path; db := None |}.

(** [if not self.db: raise RuntimeError("DedupStore not initialized")].
    A connection object is truthy whether it is open or closed. *)
Definition check_db : M World unit :=
  fun w =>
    match db (store w) with
    | None => (Raise not_initialized, w)
    | Some _ => (Ok tt, w)
    end.

(** A call [self.db.f(...)]: [f] reads and writes the files and the
    connection object that [self.db] refers to. *)
Definition call_db {A}
    (f : gmap string (list Row) -> Connection ->
         result (A * gmap string (list Row) * Connection))
  : M World A :=
  fun w =>
    match db (store w) with
    | None =>
        (Raise (AttributeError "'NoneType' object has no attribute"), w)
    | Some c =>
        match f (disk w) c with
        | Ok (a, d', c') => (Ok a, set_db (Some c') (set_disk d' w))
        | Raise e => (Raise e, w)
        end
    end.

Definition db_execute_insert (r : Row) : M World unit :=
  call_db (fun d c =>
    match aiosqlite.execute_insert d c r with
    | Ok c' => Ok (tt, d, c')
    | Raise e => Raise e
    end).

Definition db_commit : M World unit :=
  call_db (fun d c =>
    match aiosqlite.commit d c with
    | Ok (d', c') => Ok (tt, d', c')
    | Raise e => Raise e
    end).

Definition db_select {A} (q : list Row -> A) : M World A :=
  call_db (fun d c =>
    match aiosqlite.execute_select q d c with
    | Ok a => Ok (a, d, c)
    | Raise e => Raise e
    end).

Definition db_create_table : M World unit :=
  call_db (fun d c =>
    match aiosqlite.execute_create_table d c with
    | Ok d' => Ok (tt, d', c)
    | Raise e => Raise e
    end).

Definition db_create_index : M World unit :=
  call_db (fun d c =>
    match aiosqlite.execute_create_index d c with
    | Ok _ => Ok (tt, d, c)
    | Raise e => Raise e
    end).

Definition db_close : M World unit :=
  call_db (fun d c => Ok (tt, d, aiosqlite.close c)).

Definition initialize : M World unit :=
  w ← get;
  modify (set_db (Some (aiosqlite.connect (db_path (store w)))));;
  db_create_table;;
  db_create_index;;
  db_commit.

Definition is_duplicate (topic event_id : string) : M World bool :=
  check_db;;
  db_select (has_key topic event_id).

Definition mark_processed (topic event_id timestamp : string)
  : M World bool :=
  check_db;;
  try_except
    (db_execute_insert (mkRow topic event_id timestamp);;
     db_commit;;
     mret true)
    (fun e =>
       match e with
       | IntegrityError _ => mret false
       | _ => raise e
       end).

(** [SELECT DISTINCT topic ... ORDER BY topic]: the distinct topics in
    increasing order of their text. *)
Fixpoint insert_sorted (t : string) (l : list string) : list string :=
  match l with
  | [] => [t]
  | u :: l' =>
      match String.compare t u with
      | Lt => t :: l
      | Eq => l
      | Gt => u :: insert_sorted t l'
      end
  end.

Definition distinct_topics (rows : list Row) : list string :=
  foldr insert_sorted [] (map row_topic rows).

Definition get_unique_topics : M World (list string) :=
  check_db;;
  db_select distinct_topics.

(** [if topic:] is false for [None] and for the empty string, and both
    then run the query with no [WHERE] clause. *)
Definition count_processed (topic : option string) : M World Z :=
  check_db;;
  match topic with
  | Some t =>
      if negb (String.eqb t "") then
        db_select (fun rows =>
          Z.of_nat (length (filter (fun r => row_topic r = t) rows)))
      else db_select (fun rows => Z.of_nat (length rows))
  | None => db_select (fun rows => Z.of_nat (length rows))
  end.

Definition close : M World unit :=
  w ← get;
  match db (store w) with
  | Some _ => db_close
  | None => mret tt
  end.

End DedupStore.

(** ** Ledger states *)

(** The committed records at the ledger's location. *)
Definition records (w : World) : list Row :=
  default [] (disk w !! db_path (store w)).

(** The state [initialize] leaves and every later operation keeps, until
    [close]: an open handle on the ledger's own location, nothing
    uncommitted, the table present. *)
Definition Initialized (w : World) : Prop :=
  db (store w) = Some (aiosqlite.connect (db_path (store w))) ∧
  is_Some (disk w !! db_path (store w)).

Definition key_recorded (topic event_id : string) (rows : list Row) : Prop :=
  ∃ r, r ∈ rows ∧ row_topic r = topic ∧ row_event_id r = event_id.


(** A ledger with no instance state yet, over the files [d]. *)
Definition fresh_ledger (d : gmap string (list Row)) (path : string) : World :=
  {| disk := d; store := DedupStore.__init__ path |}.

(** ** Histories of ledger calls *)

Inductive LedgerOp : Type :=
  | OpInitialize
  | OpIsDuplicate (topic event_id : string)
  | OpMarkProcessed (topic event_id timestamp : string)
  | OpGetUniqueTopics
  | OpCountProcessed (topic : option string)
  | OpClose.

Inductive Outcome : Type :=
  | OutNone (r : result unit)
  | OutBool (r : result bool)
  | OutTopics (r : result (list string))
  | OutInt (r : result Z).

Definition ledger_step (op : LedgerOp) (w : World) : Outcome * World :=
  match op with
  | OpInitialize =>
      let '(r, w') := DedupStore.initialize w in (OutNone r, w')
  | OpIsDuplicate t e =>
      let '(r, w') := DedupStore.is_duplicate t e w in (OutBool r, w')
  | OpMarkProcessed t e ts =>
      let '(r, w') := DedupStore.mark_processed t e ts w in (OutBool r, w')
  | OpGetUniqueTopics =>
      let '(r, w') := DedupStore.get_unique_topics w in (OutTopics r, w')
  | OpCountProcessed t =>
      let '(r, w') := DedupStore.count_processed t w in (OutInt r, w')
  | OpClose =>
      let '(r, w') := DedupStore.close w in (OutNone r, w')
  end.

(** Whether the ledger holds an open handle. *)
Definition is_open (w : World) : bool :=
  match db (store w) with
  | Some c => conn_open c
  | None => false
  end.

(** One entry of a history: was the ledger open when the call was issued,
    the call, what it gave. *)
Record Call : Type := mkCall {
  call_open : bool;
  call_op : LedgerOp;
  call_outcome : Outcome
}.

(** The calls are atomic with respect to one another: each runs against
    the state the previous one left. *)
Fixpoint ledger_run (ops : list LedgerOp) (w : World) : list Call * World :=
  match ops with
  | [] => ([], w)
  | op :: ops' =>
      let '(o, w1) := ledger_step op w in
      let '(h, w2) := ledger_run ops' w1 in
      (mkCall (is_open w) op o :: h, w2)
  end.

Definition is_mark_of (topic event_id : string) (op : LedgerOp) : bool :=
  match op with
  | OpMarkProcessed t e _ => String.eqb t topic && String.eqb e event_id
  | _ => false
  end.

(** [mark_processed] calls for the pair issued on an open ledger. *)
Definition issued (topic event_id : string) (h : list Call) : nat :=
  length (List.filter
    (fun c => call_open c && is_mark_of topic event_id (call_op c)) h).

Definition gave (b : bool) (o : Outcome) : bool :=
  match o with
  | OutBool (Ok b') => Bool.eqb b b'
  | _ => false
  end.

(** Those of them that returned [b]. *)
Definition answered (b : bool) (topic event_id : string) (h : list Call)
  : nat :=
  length (List.filter
    (fun c => call_open c && is_mark_of topic event_id (call_op c)
              && gave b (call_outcome c)) h).

Definition row_key (r : Row) : string * string :=
  (row_topic r, row_event_id r).

(** The exception a call ended with, if it did. *)
Definition raised (o : Outcome) : option exn :=
  match o with
  | OutNone (Raise e) | OutBool (Raise e)
  | OutTopics (Raise e) | OutInt (Raise e) => Some e
  | _ => None
  end.

(** The four operations other than [initialize] and [close]. *)
Definition is_query (op : LedgerOp) : bool :=
  match op with
  | OpInitialize | OpClose => false
  | _ => true
  end.

Definition unique_keys (rows : list Row) : Prop := NoDup (map row_key rows).

(** The states a ledger goes through: never initialized; initialized;
    closed with the handle kept in [self.db].  In each of them the
    committed records have pairwise distinct keys. *)
Definition ledger_ok (w : World) : Prop :=
  unique_keys (records w) ∧
  (db (store w) = None ∨
   Initialized w ∨
   db (store w) = Some (aiosqlite.close (aiosqlite.connect (db_path (store w))))).

(** ** Concurrent callers of [mark_processed]

    A caller inside [mark_processed] is suspended at
    [await self.db.execute(...)] and at [await self.db.commit()], and
    other callers of the same ledger run in between.  The statements of
    one connection are executed one after the other in the order they
    were submitted, so that what can interleave are the two halves
    below. *)

(** From the guard to the end of the [INSERT].  [Some b]: the call is
    over and returns [b]; [None]: the row is inserted and the caller goes
    on to commit. *)
Definition mark_processed_insert (topic event_id timestamp : string)
  : M World (option bool) :=
  DedupStore.check_db;;
  try_except
    (DedupStore.db_execute_insert (mkRow topic event_id timestamp);;
     mret None)
    (fun e =>
       match e with
       | IntegrityError _ => mret (Some false)
       | _ => raise e
       end).

(** From the commit to the return. *)
Definition mark_processed_commit : M World bool :=
  try_except
    (DedupStore.db_commit;; mret true)
    (fun e =>
       match e with
       | IntegrityError _ => mret false
       | _ => raise e
       end).

(** A call that has executed its [INSERT] and not yet its commit, or a
    call that is over. *)
Inductive CallState : Type :=
  | Committing (topic event_id : string)
  | Returned (topic event_id : string) (r : result bool).

(** What the scheduler runs next: a new caller up to its commit, or the
    [i]-th caller from its commit on. *)
Inductive CallEvent : Type :=
  | Enter (topic event_id timestamp : string)
  | Resume (i : nat).

Definition call_step (ev : CallEvent) (st : World * list CallState)
  : option (World * list CallState) :=
  let '(w, calls) := st in
  match ev with
  | Enter t e ts =>
      let '(r, w') := mark_processed_insert t e ts w in
      Some (w',
            calls ++ [match r with
                      | Ok None => Committing t e
                      | Ok (Some b) => Returned t e (Ok b)
                      | Raise x => Returned t e (Raise x)
                      end])
  | Resume i =>
      match calls !! i with
      | Some (Committing t e) =>
          let '(r, w') := mark_processed_commit w in
          Some (w', <[i := Returned t e r]> calls)
      | _ => None
      end
  end.

Fixpoint calls_run (evs : list CallEvent) (st : World * list CallState)
  : option (World * list CallState) :=
  match evs with
  | [] => Some st
  | ev :: evs' =>
      match call_step ev st with
      | Some st' => calls_run evs' st'
      | None => None
      end
  end.

Definition call_key (c : CallState) : string * string :=
  match c with
  | Committing t e => (t, e)
  | Returned t e _ => (t, e)
  end.

Definition is_call_of (topic event_id : string) (c : CallState) : bool :=
  String.eqb (fst (call_key c)) topic && String.eqb (snd (call_key c)) event_id.

Definition is_committing (c : CallState) : bool :=
  match c with
  | Committing _ _ => true
  | Returned _ _ _ => false
  end.

Definition has_returned (b : bool) (c : CallState) : bool :=
  match c with
  | Returned _ _ (Ok b') => Bool.eqb b b'
  | _ => false
  end.

(** The calls for a pair, those of them still before their commit, and
    those that returned [b]. *)
Definition entered (topic event_id : string) (calls : list CallState) : nat :=
  length (List.filter (is_call_of topic event_id) calls).

Definition committing (topic event_id : string) (calls : list CallState)
  : nat :=
  length (List.filter
    (fun c => is_call_of topic event_id c && is_committing c) calls).

Definition returned (b : bool) (topic event_id : string)
    (calls : list CallState) : nat :=
  length (List.filter
    (fun c => is_call_of topic event_id c && has_returned b c) calls).

(** What holds of the pair [(topic, event_id)] while callers interleave
    on an open ledger that started with the committed rows [rows0]: the
    rows visible through the connection have distinct keys and hold the
    pair exactly when it was there at the start or a call for it has been
    made; at most one call for the pair got its [INSERT] through, the
    first; every other call for it has returned [false]. *)
Definition calls_inv (rows0 : list Row) (topic event_id : string)
    (st : World * list CallState) : Prop :=
  ∃ d p rows pending,
    fst st =
      mkWorld d (mkDedupStore p (Some (mkConnection p true pending))) ∧
    d !! p = Some rows ∧
    unique_keys (rows ++ pending) ∧
    has_key topic event_id (rows ++ pending) =
      has_key topic event_id rows0
      || (0 <? entered topic event_id (snd st))%nat ∧
    returned true topic event_id (snd st)
      + committing topic event_id (snd st) =
      (if has_key topic event_id rows0 then 0
       else Nat.min 1 (entered topic event_id (snd st))) ∧
    returned true topic event_id (snd st)
      + committing topic event_id (snd st)
      + returned false topic event_id (snd st) =
      entered topic event_id (snd st).

(** ** Events ([src/models.py]) *)

(** A [datetime] is represented by its ISO-8601 text, which is all the
    pipeline reads of it ([event.timestamp.isoformat()]). *)
Record datetime : Type := mkDatetime { isoformat : string }.

Module Event.
Record t : Type := mk {
  topic : string;
  event_id : string;
  timestamp : datetime;
  source : string;
  payload : list (string * string)
}.
End Event.

(** ** The admission queue: the part of [asyncio.Queue] the pipeline uses

    An unbounded FIFO with the counter of unfinished tasks behind
    [task_done()] and [join()], and the number of callers suspended in
    [join()]. *)
Module Queue.

Record t : Type := mk {
  items : list Event.t;
  unfinished_tasks : Z;
  waiters : nat
}.

Definition new : t := {| items := []; unfinished_tasks := 0; waiters := 0 |}.

(** [put] on an unbounded queue never waits. *)
Definition put (x : Event.t) (q : t) : t :=
  {| items := items q ++ [x];
     unfinished_tasks := unfinished_tasks q + 1;
     waiters := waiters q |}.

(** The item [get()] returns once the queue is non-empty. *)
Definition get (q : t) : option (Event.t * t) :=
  match items q with
  | [] => None
  | x :: rest =>
      Some (x, {| items := rest;
                  unfinished_tasks := unfinished_tasks q;
                  waiters := waiters q |})
  end.

(** [task_done()]; when the count reaches zero every caller suspended in
    [join()] is released.  The second component is how many were. *)
Definition task_done (q : t) : result (t * nat) :=
  if (unfinished_tasks q <=? 0)%Z
  then Raise (ValueError "task_done() called too many times")
  else if (unfinished_tasks q - 1 =? 0)%Z
  then Ok ({| items := items q; unfinished_tasks := 0; waiters := 0 |},
           waiters q)
  else Ok ({| items := items q;
              unfinished_tasks := unfinished_tasks q - 1;
              waiters := waiters q |}, 0).

(** [join()] returns at once when every item put has been marked done. *)
Definition joined (q : t) : bool := (unfinished_tasks q =? 0)%Z.

(** [join()] otherwise suspends its caller. *)
Definition wait (q : t) : t :=
  {| items := items q;
     unfinished_tasks := unfinished_tasks q;
     waiters := S (waiters q) |}.

End Queue.

(** ** The ingestion pipeline ([src/processor.py]) *)

(** [self.stats]: a dict with three fixed keys, kept as a record. *)
Record Stats : Type := mkStats {
  received : Z;
  unique_processed : Z;
  duplicate_dropped : Z
}.

(** Where a consumer task is suspended:
    - [Created]: scheduled by [create_task], not yet run;
    - [Waiting]: in [wait_for(self.queue.get(), timeout=1.0)];
    - [Processing event]: it holds [event], inside [_process_event].
      The ledger call, the update of the counters and [task_done()] are
      taken as one step: the two suspension points inside
      [mark_processed], after the [INSERT] is submitted and after
      [commit], are not points at which a schedule of this model runs
      anything else.  That is exact as long as nothing else uses the
      ledger between them: one consumer task, and no [initialize] or
      [close] by the owner while an event is in hand.  An [initialize]
      that rebinds [self.db] between the [INSERT] and the [commit], or
      two consumer tasks inside [mark_processed] at once, are outside
      what one step can express; what is proved about the ledger's
      records against the processed log is stated for [quiet] schedules
      only;
    - [Finished]: the loop was left, or the task was cancelled. *)
Inductive Task : Type :=
  | Created
  | Waiting
  | Processing (event : Event.t)
  | Finished.

(** [self.consumer_task] refers to a task of the scheduler: it is the
    index of that task in [tasks] below. *)
Record EventProcessor : Type := mkEventProcessor {
  queue : Queue.t;
  processed_events : list Event.t;
  stats : Stats;
  consumer_task : option nat;
  _running : bool
}.

(** The pipeline with what surrounds it.  [self.dedup_store] is a
    reference: the pipeline and the owner of the ledger see one
    [DedupStore] object, the one in [world].  [tasks] are the consumer
    tasks created so far, in the order of their creation.
    [stops_resuming] counts the [stop()] calls whose [join()] has been
    released and that have not run since.  [error_log] has the
    exceptions [logger.error] reported, oldest first. *)
Record System : Type := mkSystem {
  world : World;
  proc : EventProcessor;
  tasks : list Task;
  stops_resuming : nat;
  error_log : list exn
}.

Definition lift_world {A} (m : M World A) : M System A :=
  fun s =>
    match m (world s) with
    | (r, w') =>
        (r, {| world := w'; proc := proc s; tasks := tasks s;
               stops_resuming := stops_resuming s;
               error_log := error_log s |})
    end.

Definition set_proc (p : EventProcessor) (s : System) : System :=
  {| world := world s; proc := p; tasks := tasks s;
     stops_resuming := stops_resuming s; error_log := error_log s |}.

Definition set_tasks (l : list Task) (s : System) : System :=
  {| world := world s; proc := proc s; tasks := l;
     stops_resuming := stops_resuming s; error_log := error_log s |}.

Definition set_stops_resuming (n : nat) (s : System) : System :=
  {| world := world s; proc := proc s; tasks := tasks s;
     stops_resuming := n; error_log := error_log s |}.

Definition log_error (e : exn) (s : System) : System :=
  {| world := world s; proc := proc s; tasks := tasks s;
     stops_resuming := stops_resuming s;
     error_log := error_log s ++ [e] |}.

Definition modify_proc (f : EventProcessor -> EventProcessor)
  : M System unit :=
  modify (fun s => set_proc (f (proc s)) s).

Definition set_queue (q : Queue.t) (p : EventProcessor) : EventProcessor :=
  {| queue := q; processed_events := processed_events p; stats := stats p;
     consumer_task := consumer_task p; _running := _running p |}.

Definition set_stats (st : Stats) (p : EventProcessor) : EventProcessor :=
  {| queue := queue p; processed_events := processed_events p; stats := st;
     consumer_task := consumer_task p; _running := _running p |}.

Definition set_processed_events (l : list Event.t) (p : EventProcessor)
  : EventProcessor :=
  {| queue := queue p; processed_events := l; stats := stats p;
     consumer_task := consumer_task p; _running := _running p |}.

Definition set_consumer_task (t : option nat) (p : EventProcessor)
  : EventProcessor :=
  {| queue := queue p; processed_events := processed_events p;
     stats := stats p; consumer_task := t; _running := _running p |}.

Definition set_running (b : bool) (p : EventProcessor) : EventProcessor :=
  {| queue := queue p; processed_events := processed_events p;
     stats := stats p; consumer_task := consumer_task p; _running := b |}.

(** [for x in l: body(x)] *)
Fixpoint for_each {S A} (l : list A) (body : A -> M S unit) : M S unit :=
  match l with
  | [] => mret tt
  | x :: l' => body x;; for_each l' body
  end.

Module EventProcessor.

Definition __init__ : EventProcessor :=
  {| queue := Queue.new;
     processed_events := [];
     stats := {| received := 0; unique_processed := 0;
                 duplicate_dropped := 0 |};
     consumer_task := None;
     _running := false |}.

(** [self.stats["received"] += n] and its two siblings. *)
Definition add_received (n : Z) (p : EventProcessor) : EventProcessor :=
  set_stats {| received := received (stats p) + n;
               unique_processed := unique_processed (stats p);
               duplicate_dropped := duplicate_dropped (stats p) |} p.

Definition add_unique_processed (n : Z) (p : EventProcessor)
  : EventProcessor :=
  set_stats {| received := received (stats p);
               unique_processed := unique_processed (stats p) + n;
               duplicate_dropped := duplicate_dropped (stats p) |} p.

Definition add_duplicate_dropped (n : Z) (p : EventProcessor)
  : EventProcessor :=
  set_stats {| received := received (stats p);
               unique_processed := unique_processed (stats p);
               duplicate_dropped := duplicate_dropped (stats p) + n |} p.

(** The returned dict has the one key ["received"]. *)
Definition publish (events : list Event.t) : M System (list (string * Z)) :=
  let received := Z.of_nat (length events) in
  modify_proc (add_received received);;
  for_each events (fun event =>
    modify_proc (fun p => set_queue (Queue.put event (queue p)) p));;
  mret [("received", received)].

Definition _process_event (event : Event.t) : M System unit :=
  let topic := Event.topic event in
  let event_id := Event.event_id event in
  let timestamp := isoformat (Event.timestamp event) in
  is_new ← lift_world (DedupStore.mark_processed topic event_id timestamp);
  if (is_new : bool) then
    modify_proc (add_unique_processed 1);;
    modify_proc (fun p =>
      set_processed_events (processed_events p ++ [event]) p)
  else
    modify_proc (add_duplicate_dropped 1).

(** [self.queue.task_done()] *)
Definition queue_task_done : M System unit :=
  fun s =>
    match Queue.task_done (queue (proc s)) with
    | Ok (q, released) =>
        (Ok tt,
         set_stops_resuming (stops_resuming s + released)
           (set_proc (set_queue q (proc s)) s))
    | Raise e => (Raise e, s)
    end.

(** [while self._running:] at the top of the consumer loop: where the
    task goes next. *)
Definition loop_head (p : EventProcessor) : Task :=
  if _running p then Waiting else Finished.

(** [_consumer_loop]: a task at [t] runs to where it is suspended next,
    with the processing of the event in hand as one step (see [Task]).
    [None]: the task has finished. *)
Definition consumer_loop_step (t : Task) (s : System)
  : option (Task * System) :=
  match t with
  | Created => Some (loop_head (proc s), s)
  | Waiting =>
      match Queue.get (queue (proc s)) with
      | Some (event, q) =>
          Some (Processing event, set_proc (set_queue q (proc s)) s)
      | None =>
          (* [except asyncio.TimeoutError: continue] *)
          Some (loop_head (proc s), s)
      end
  | Processing event =>
      let body :=
        try_except
          (_process_event event;; queue_task_done)
          (* [except Exception as e: logger.error(...)] *)
          (fun e => modify (log_error e)) in
      match body s with
      | (_, s') => Some (loop_head (proc s'), s')
      end
  | Finished => None
  end.

(** The scheduler resumes task [i]. *)
Definition task_run (i : nat) (s : System) : option System :=
  match tasks s !! i with
  | Some t =>
      match consumer_loop_step t s with
      | Some (t', s') => Some (set_tasks (<[i := t']> (tasks s')) s')
      | None => None
      end
  | None => None
  end.

(** [start()] *)
Definition start (s : System) : System :=
  if _running (proc s) then s
  else
    set_tasks (tasks s ++ [Created])
      (set_proc
         (set_consumer_task (Some (length (tasks s)))
            (set_running true (proc s))) s).

(** [self.consumer_task.cancel()] and [await self.consumer_task]: the
    cancelled task leaves its loop at [except asyncio.CancelledError],
    wherever it was suspended. *)
Definition cancel_consumer_task (s : System) : System :=
  match consumer_task (proc s) with
  | Some i => set_tasks (<[i := Finished]> (tasks s)) s
  | None => s
  end.

(** [stop()], as far as it runs without being suspended: to the end when
    there is no consumer task or nothing unfinished, else into
    [await self.queue.join()]. *)
Definition stop (s : System) : System :=
  let s1 := set_proc (set_running false (proc s)) s in
  match consumer_task (proc s1) with
  | Some _ =>
      if Queue.joined (queue (proc s1)) then cancel_consumer_task s1
      else set_proc (set_queue (Queue.wait (queue (proc s1))) (proc s1)) s1
  | None => s1
  end.

(** A [stop()] call released from [join()] runs on.  [None]: no such
    call. *)
Definition stop_resume (s : System) : option System :=
  match stops_resuming s with
  | S n => Some (set_stops_resuming n (cancel_consumer_task s))
  | O => None
  end.

Definition get_stats (s : System) : Stats := stats (proc s).

Definition get_events (topic : option string) (s : System)
  : list Event.t :=
  match topic with
  | Some t =>
      if negb (String.eqb t "")
      then filter (fun e => Event.topic e = t) (processed_events (proc s))
      else processed_events (proc s)
  | None => processed_events (proc s)
  end.

End EventProcessor.

(** ** Schedules

    Everything runs on one cooperative scheduler; an [Action] is what runs
    between two suspension points: a whole [publish] or [start] call, a
    [stop] call up to its suspension and from it, one stretch of a
    consumer task, a call of the ledger's owner. *)
Inductive Action : Type :=
  | Publish (events : list Event.t)
  | Start
  | Stop
  | StopResume
  | TaskRun (i : nat)
  | StoreInitialize
  | StoreClose.

Definition step (a : Action) (s : System) : option System :=
  match a with
  | Publish events => Some (snd (EventProcessor.publish events s))
  | Start => Some (EventProcessor.start s)
  | Stop => Some (EventProcessor.stop s)
  | StopResume => EventProcessor.stop_resume s
  | TaskRun i => EventProcessor.task_run i s
  | StoreInitialize => Some (snd (lift_world DedupStore.initialize s))
  | StoreClose => Some (snd (lift_world DedupStore.close s))
  end.

Fixpoint run (acts : list Action) (s : System) : option System :=
  match acts with
  | [] => Some s
  | a :: acts' =>
      match step a s with
      | Some s' => run acts' s'
      | None => None
      end
  end.

(** A pipeline just constructed over the ledger [w]. *)
Definition new_system (w : World) : System :=
  {| world := w; proc := EventProcessor.__init__; tasks := [];
     stops_resuming := 0; error_log := [] |}.

(** The events in the hands of consumer tasks, counted. *)
Definition holds (t : Task) : Z :=
  match t with
  | Processing _ => 1
  | _ => 0
  end.

Fixpoint in_flight (l : list Task) : Z :=
  match l with
  | [] => 0
  | t :: l' => holds t + in_flight l'
  end.

(** The accounting of the pipeline.  Every published event is in exactly
    one of the two counters or still unfinished in the queue's books, and
    the queue's books cover the items queued, the ones in the hands of
    consumer tasks, and [lost] more. *)
Definition accounted (lost : Z) (s : System) : Prop :=
  (received (stats (proc s)) =
     unique_processed (stats (proc s)) + duplicate_dropped (stats (proc s))
     + Queue.unfinished_tasks (queue (proc s)))%Z ∧
  (Z.of_nat (length (Queue.items (queue (proc s)))) + in_flight (tasks s)
     + lost ≤ Queue.unfinished_tasks (queue (proc s)))%Z.

(** The events whose processing raised: the consumer loop logs each of
    them once, and logs nothing else. *)
Definition failed (s : System) : Z := Z.of_nat (length (error_log s)).

(** The exact accounting of a pipeline with one consumer task.  Every
    published event is in one of the two counters or unfinished in the
    queue's books; the unfinished ones are the events queued, the one
    in the consumer's hands, and the ones whose processing raised.  The
    last three parts say when a [stop()] call is waiting or released:
    only with a consumer task created and [_running] cleared, and
    released only with the consumer task finished. *)
Definition single_accounted (s : System) : Prop :=
  (received (stats (proc s)) =
     unique_processed (stats (proc s)) + duplicate_dropped (stats (proc s))
     + Queue.unfinished_tasks (queue (proc s)))%Z ∧
  (Queue.unfinished_tasks (queue (proc s)) =
     Z.of_nat (length (Queue.items (queue (proc s)))) + in_flight (tasks s)
     + failed s)%Z ∧
  (consumer_task (proc s) ≠ None → tasks s ≠ []) ∧
  ((0 < Queue.waiters (queue (proc s)) ∨ 0 < stops_resuming s)%nat →
   _running (proc s) = false ∧ tasks s ≠ []) ∧
  ((0 < stops_resuming s)%nat → Forall (eq Finished) (tasks s)).

(** A pipeline that has lost one unfinished task for good: the queue's
    books are at least one above what is queued or in hand, and no
    [stop()] call has been released from [join()]. *)
Definition stuck (s : System) : Prop :=
  accounted 1 s ∧ stops_resuming s = 0.

(** ** Orders and counts used to state further properties *)

(** The order of [ORDER BY topic] and of Python's [sorted] on strings. *)
Definition string_lt (a b : string) : Prop := String.compare a b = Lt.

(** A list in strictly increasing order: sorted, no element twice. *)
Definition increasing (l : list string) : Prop :=
  StronglySorted string_lt l.

(** The records of one topic, counted. *)
Definition topic_count (t : string) (rows : list Row) : Z :=
  Z.of_nat (length (filter (fun r => row_topic r = t) rows)).

(** The integer a call returned, [0] when it raised. *)
Definition returned_int (r : result Z) : Z :=
  match r with
  | Ok n => n
  | Raise _ => 0
  end.

(** The sum of [h t] over the strings [t] of a list. *)
Definition sum_over (h : string -> Z) (l : list string) : Z :=
  foldr (fun t acc => (h t + acc)%Z) 0%Z l.

(** ** The rest of [EventProcessor] *)

(** Python's [sorted] on a list of strings. *)
Fixpoint insort (t : string) (l : list string) : list string :=
  match l with
  | [] => [t]
  | u :: l' =>
      match String.compare t u with
      | Gt => u :: insort t l'
      | _ => t :: l
      end
  end.

Definition sorted (l : list string) : list string := foldr insort [] l.

(** [EventProcessor.get_unique_topics]:
    [topics = set(e.topic for e in self.processed_events)] and
    [sorted(list(topics))]. *)
Definition processor_get_unique_topics (s : System) : list string :=
  let topics : gset string :=
    list_to_set (map Event.topic (processed_events (proc s))) in
  sorted (elements topics).

(** ** What an event is in the ledger *)

Definition event_key (e : Event.t) : string * string :=
  (Event.topic e, Event.event_id e).

(** The record [_process_event] asks the ledger to insert for [e]. *)
Definition event_row (e : Event.t) : Row :=
  mkRow (Event.topic e) (Event.event_id e) (isoformat (Event.timestamp e)).

(** The events passed to [publish] in a schedule, counted and listed. *)
Fixpoint published (acts : list Action) : list Event.t :=
  match acts with
  | [] => []
  | Publish events :: acts' => events ++ published acts'
  | _ :: acts' => published acts'
  end.

Definition is_start (a : Action) : bool :=
  match a with
  | Start => true
  | _ => false
  end.

Definition is_stop (a : Action) : bool :=
  match a with
  | Stop => true
  | _ => false
  end.

(** A reference for what a consumer that meets no error accepts of a
    batch: the events whose pair is neither recorded in [rows] nor
    carried by an earlier event of the batch, in the order of the
    batch. *)
Fixpoint first_seen (rows : list Row) (events : list Event.t)
  : list Event.t :=
  match events with
  | [] => []
  | e :: events' =>
      if has_key (Event.topic e) (Event.event_id e) rows
      then first_seen rows events'
      else e :: first_seen (rows ++ [event_row e]) events'
  end.

(** The events in the hands of the consumer tasks, listed. *)
Fixpoint in_hand (l : list Task) : list Event.t :=
  match l with
  | [] => []
  | Processing e :: l' => e :: in_hand l'
  | _ :: l' => in_hand l'
  end.

(** The calls of the ledger's owner. *)
Definition is_owner_call (a : Action) : bool :=
  match a with
  | StoreInitialize | StoreClose => true
  | _ => false
  end.

(** A schedule and the state it ends in are quiet when the owner of the
    ledger made no call during the schedule, at most one consumer task
    was created, and no consumer task holds an event at the end.  Every
    event taken off the queue has then gone through [mark_processed]
    with nothing else at the ledger between its [INSERT] and its
    [commit], and none is between the two. *)
Definition quiet (acts : list Action) (s : System) : Prop :=
  forallb (fun a => negb (is_owner_call a)) acts = true ∧
  (length (tasks s) ≤ 1)%nat ∧
  in_hand (tasks s) = [].

(** Published events in the order they go through a pipeline with one
    consumer: the ones it is done with, the one it holds, the ones still
    queued; what it accepted is among the first. *)
Definition fifo (pub : list Event.t) (s : System) : Prop :=
  ∃ done,
    pub = done ++ in_hand (tasks s) ++ Queue.items (queue (proc s)) ∧
    processed_events (proc s) `sublist_of` done.

(** ** Stopping under load *)

(** A consumer task that finds [_running] cleared at the top of its loop
    leaves it; before that a task waiting for an event or holding one
    can finish one more. *)
Definition may_finish_one (t : Task) : Z :=
  match t with
  | Waiting | Processing _ => 1
  | Created | Finished => 0
  end.

Fixpoint may_finish (l : list Task) : Z :=
  match l with
  | [] => 0
  | t :: l' => may_finish_one t + may_finish l'
  end.

(** [stop()] has cleared [_running], no [stop()] call has been released
    from [join()], and more tasks are unfinished in the queue's books
    than the consumer tasks can still finish. *)
Definition overloaded (s : System) : Prop :=
  _running (proc s) = false ∧
  stops_resuming s = 0 ∧
  (may_finish (tasks s) < Queue.unfinished_tasks (queue (proc s)))%Z.

(** ** The life of the service ([lifespan] of [src/main.py])

    Before the [yield]: [DedupStore(db_path="data/dedup.db")],
    [initialize()], [EventProcessor(dedup_store)], [start()]; after it
    [stop()] and then [close()].  [between] is what runs while the
    application serves; [d] are the files the process finds. *)
Definition lifespan (d : gmap string (list Row)) (between : list Action)
  : option System :=
  run ([StoreInitialize; Start] ++ between ++ [Stop; StoreClose])
    (new_system (fresh_ledger d "data/dedup.db")).

(** One batch is published and the consumer task then runs [k] times. *)
Definition serve (events : list Event.t) (k : nat) : list Action :=
  Publish events :: repeat (TaskRun 0) k.

(** ** The HTTP handlers ([src/main.py])

    The handlers as they run on validated input.  The module globals
    [dedup_store] and [event_processor] are [None] until [lifespan] has
    set them: the application state is an [option System].
    [uptime_seconds] of [/stats], a difference of two clock readings, is
    left out of the model. *)

(** [str(n)] for an integer, as an f-string formats it. *)
Definition str_int (n : Z) : string := NilZero.string_of_int (Z.to_int n).

(** [result[key]] on the dict [publish] returns. *)
Fixpoint getitem (key : string) (d : list (string * Z)) : option Z :=
  match d with
  | [] => None
  | (k, v) :: d' => if String.eqb k key then Some v else getitem key d'
  end.

Module EventResponse.

Record t : Type := mk {
  received : Z;
  unique_processed : Z;
  duplicate_dropped : Z;
  message : string
}.

End EventResponse.

Module StatsResponse.

Record t : Type := mk {
  received : Z;
  unique_processed : Z;
  duplicate_dropped : Z;
  topics : list string
}.

End StatsResponse.

Module EventQueryResponse.

Record t : Type := mk {
  topic : option string;
  count : Z;
  events : list Event.t
}.

End EventQueryResponse.

(** What the client gets: the response model with the status code of the
    route, or a status code with the body [{"detail": ...}], from an
    [HTTPException] or from [global_exception_handler]. *)
Inductive Http (A : Type) : Type :=
  | Response (status : Z) (body : A)
  | Detail (status : Z) (detail : string).

Arguments Response {A} status body.
Arguments Detail {A} status detail.

(** [Union[Event, EventBatch]] *)
Inductive Data : Type :=
  | DataEvent (e : Event.t)
  | DataBatch (events : list Event.t).

Module main.

Definition internal_server_error {A} : Http A :=
  Detail 500 "Internal server error".

(** [POST /publish] *)
Definition publish_events (data : Data) (app : option System)
  : Http EventResponse.t * option System :=
  match app with
  | None => (Detail 503 "Event processor not initialized", None)
  | Some s =>
      let events :=
        match data with
        | DataEvent e => [e]
        | DataBatch events => events
        end in
      match EventProcessor.publish events s with
      | (Ok result, s') =>
          let stats := EventProcessor.get_stats s' in
          match getitem "received" result with
          | Some n =>
              (Response 202
                 {| EventResponse.received := n;
                    EventResponse.unique_processed := unique_processed stats;
                    EventResponse.duplicate_dropped :=
                      duplicate_dropped stats;
                    EventResponse.message :=
                      "Received " ++ str_int n
                        ++ " event(s) for processing" |},
               Some s')
          | None => (internal_server_error, Some s')
          end
      | (Raise _, s') => (internal_server_error, Some s')
      end
  end.

(** [GET /events] *)
Definition get_events (topic : option string) (app : option System)
  : Http EventQueryResponse.t :=
  match app with
  | None => Detail 503 "Event processor not initialized"
  | Some s =>
      let events := EventProcessor.get_events topic s in
      Response 200
        {| EventQueryResponse.topic := topic;
           EventQueryResponse.count := Z.of_nat (length events);
           EventQueryResponse.events := events |}
  end.

(** [GET /stats] *)
Definition get_stats (app : option System)
  : Http StatsResponse.t * option System :=
  match app with
  | None => (Detail 503 "Service not initialized", None)
  | Some s =>
      let stats := EventProcessor.get_stats s in
      match lift_world DedupStore.get_unique_topics s with
      | (Ok topics, s') =>
          (Response 200
             {| StatsResponse.received := received stats;
                StatsResponse.unique_processed := unique_processed stats;
                StatsResponse.duplicate_dropped := duplicate_dropped stats;
                StatsResponse.topics := topics |},
           Some s')
      | (Raise _, s') => (internal_server_error, Some s')
      end
  end.

End main.

(** The events of a request body. *)
Definition events_of (data : Data) : list Event.t :=
  match data with
  | DataEvent e => [e]
  | DataBatch events => events
  end.

(** ** Example states *)

(** A ledger just initialized on an empty location. *)
Definition ledger_example : World :=
  snd (DedupStore.initialize (fresh_ledger ∅ "data/dedup.db")).


(** The same ledger after three records, one of them with the empty
    string as its topic. *)
Definition ledger_three : World :=
  snd ((DedupStore.mark_processed "a" "1" "t1";;
        DedupStore.mark_processed "" "2" "t2";;
        DedupStore.mark_processed "b" "1" "t3") ledger_example).

(** A history with a restart in it. *)
Definition history_example : list LedgerOp :=
  [OpInitialize;
   OpMarkProcessed "a" "1" "t1";
   OpMarkProcessed "b" "1" "t2";
   OpMarkProcessed "a" "1" "t3";
   OpCountProcessed None;
   OpClose;
   OpMarkProcessed "a" "1" "t4";
   OpInitialize;
   OpMarkProcessed "a" "1" "t5"].

(** [create_test_event] of [tests/test_processor.py]; [now] stands for
    [datetime.now(timezone.utc)]. *)
Definition create_test_event (topic event_id : string) (now : datetime)
  : Event.t :=
  {| Event.topic := topic;
     Event.event_id := event_id;
     Event.timestamp := now;
     Event.source := "test-source";
     Event.payload := [("test", "data")] |}.

(** The pipeline is started, one batch is published, and the consumer
    task, the first task of the scheduler, then runs [k] times. *)
Definition publish_and_consume (events : list Event.t) (k : nat)
  : list Action :=
  Start :: Publish events :: repeat (TaskRun 0) k.

Definition example_now : datetime := mkDatetime "2025-10-24T10:30:00+00:00".

Definition five_events : list Event.t :=
  [create_test_event "T" "1" example_now;
   create_test_event "T" "2" example_now;
   create_test_event "T" "1" example_now;
   create_test_event "T" "3" example_now;
   create_test_event "T" "2" example_now].

(** A pipeline built over a ledger whose [initialize] was never called,
    started, given one event, its consumer task run three times: the
    task starts waiting, takes the event, fails on it. *)
Definition failing_schedule : list Action :=
  publish_and_consume [create_test_event "T" "1" example_now] 3.

Definition failing_state : System :=
  default (new_system (fresh_ledger ∅ "data/dedup.db"))
    (run failing_schedule (new_system (fresh_ledger ∅ "data/dedup.db"))).

(** Two events are published to a running pipeline on an initialized
    ledger and [stop()] is called before the consumer task has run again;
    the task then runs twice. *)
Definition backlog_schedule : list Action :=
  [Start; TaskRun 0;
   Publish [create_test_event "T" "1" example_now;
            create_test_event "T" "2" example_now];
   Stop; TaskRun 0; TaskRun 0].

(** Three callers for the pair ("c", "7") and one for ("d", "7"), the
    first caller committing last. *)
Definition interleaving_example : list CallEvent :=
  [Enter "c" "7" "t1"; Enter "c" "7" "t2"; Enter "d" "7" "t3";
   Resume 2; Enter "c" "7" "t4"; Resume 0].

(** A running pipeline on an initialized ledger whose consumer waits,
    with two events just published. *)
Definition loaded_state : System :=
  default (new_system ledger_example)
    (run [Start; TaskRun 0;
          Publish [create_test_event "T" "1" example_now;
                   create_test_event "T" "2" example_now]]
       (new_system ledger_example)).

(** The ledger is closed under a running pipeline whose consumer waits;
    one event is published, taken and processed, which raises; the
    ledger is initialized again, five more events are published, and
    the consumer task runs ten more times. *)
Definition reopened_schedule : list Action :=
  [Start; TaskRun 0; StoreClose;
   Publish [create_test_event "T" "9" example_now];
   TaskRun 0; TaskRun 0; StoreInitialize; Publish five_events]
  ++ repeat (TaskRun 0) 10.

Definition reopened_state : System :=
  default (new_system ledger_example)
    (run reopened_schedule (new_system ledger_example)).
(** ** Facts about the ledger *)

Lemma same_key_spec topic event_id r :
  same_key topic event_id r = true ↔
  row_topic r = topic ∧ row_event_id r = event_id.
Proof.
  unfold same_key. rewrite andb_true_iff, !String.eqb_eq. tauto.
Qed.

Lemma has_key_spec topic event_id rows :
  has_key topic event_id rows = true ↔ key_recorded topic event_id rows.
Proof.
  unfold has_key, key_recorded. rewrite existsb_exists. split.
  - intros (r & Hin & Hk). exists r. apply same_key_spec in Hk.
    split; [by apply list_elem_of_In | done].
  - intros (r & Hin & Hk). exists r.
    split; [by apply list_elem_of_In | by apply same_key_spec].
Qed.

Lemma has_key_false topic event_id rows :
  has_key topic event_id rows = false ↔ ¬ key_recorded topic event_id rows.
Proof.
  rewrite <- has_key_spec. destruct (has_key topic event_id rows); split;
    try done; intros H; by destruct H.
Qed.

Lemma has_key_app topic event_id l1 l2 :
  has_key topic event_id (l1 ++ l2) =
  has_key topic event_id l1 || has_key topic event_id l2.
Proof. unfold has_key. apply existsb_app. Qed.

Lemma initialized_inv w :
  Initialized w →
  ∃ d p rows,
    w = mkWorld d (mkDedupStore p (Some (aiosqlite.connect p))) ∧
    d !! p = Some rows.
Proof.
  destruct w as [d [p o]]. intros [Hdb [rows Hrows]]. simpl in *.
  exists d, p, rows. by subst o.
Qed.

(** What [mark_processed] computes on an initialized ledger. *)
Lemma mark_processed_eval d p rows topic event_id ts :
  d !! p = Some rows →
  DedupStore.mark_processed topic event_id ts
    (mkWorld d (mkDedupStore p (Some (aiosqlite.connect p)))) =
  if has_key topic event_id rows
  then (Ok false, mkWorld d (mkDedupStore p (Some (aiosqlite.connect p))))
  else (Ok true,
        mkWorld (<[p := rows ++ [mkRow topic event_id ts]]> d)
                (mkDedupStore p (Some (aiosqlite.connect p)))).
Proof.
  intros Hrows.
  unfold DedupStore.mark_processed, DedupStore.db_execute_insert,
    DedupStore.db_commit, DedupStore.call_db, DedupStore.check_db,
    try_except, mbind, M_bind, bind, mret, M_ret, ret,
    aiosqlite.execute_insert, aiosqlite.commit, aiosqlite.visible.
  simpl. rewrite Hrows. simpl. rewrite app_nil_r.
  destruct (has_key topic event_id rows) eqn:Hk; simpl; [done |].
  rewrite Hrows. simpl. unfold set_db, set_disk. simpl. done.
Qed.

Ltac unfold_ledger :=
  unfold DedupStore.initialize, DedupStore.is_duplicate,
    DedupStore.mark_processed, DedupStore.get_unique_topics,
    DedupStore.count_processed, DedupStore.close,
    DedupStore.db_execute_insert, DedupStore.db_commit,
    DedupStore.db_select, DedupStore.db_create_table,
    DedupStore.db_create_index, DedupStore.db_close,
    DedupStore.call_db, DedupStore.check_db,
    try_except, raise, get, modify, mbind, M_bind, bind, mret, M_ret, ret,
    aiosqlite.execute_insert, aiosqlite.commit, aiosqlite.execute_select, aiosqlite.visible,
    aiosqlite.execute_create_table, aiosqlite.execute_create_index,
    set_db, set_disk.

(** [initialize] always succeeds, opens a handle on the ledger's own
    location and creates the table only when it is absent. *)
Lemma initialize_eval d p o :
  DedupStore.initialize (mkWorld d (mkDedupStore p o)) =
  (Ok tt,
   mkWorld (match d !! p with Some _ => d | None => <[p := []]> d end)
           (mkDedupStore p (Some (aiosqlite.connect p)))).
Proof.
  unfold_ledger. simpl.
  destruct (d !! p) as [rows|] eqn:Hd; simpl.
  - rewrite Hd. simpl. rewrite Hd. simpl. rewrite app_nil_r.
    by rewrite insert_id.
  - rewrite lookup_insert_eq. simpl. rewrite lookup_insert_eq. simpl.
    by rewrite insert_insert_eq.
Qed.

Lemma initialize_Initialized w :
  ∃ w', DedupStore.initialize w = (Ok tt, w') ∧ Initialized w' ∧
        records w' = records w ∧ db_path (store w') = db_path (store w).
Proof.
  destruct w as [d [p o]]. eexists. split; [apply initialize_eval |].
  unfold Initialized, records. simpl.
  destruct (d !! p) as [rows|] eqn:Hd; simpl.
  - rewrite Hd. eauto.
  - rewrite lookup_insert_eq. eauto.
Qed.

(** The first [close] of an open handle, and any [close] after it. *)
Lemma close_eval_open d p :
  DedupStore.close (mkWorld d (mkDedupStore p (Some (aiosqlite.connect p)))) =
  (Ok tt,
   mkWorld d (mkDedupStore p (Some (aiosqlite.close (aiosqlite.connect p))))).
Proof. reflexivity. Qed.

Lemma close_eval_closed d p :
  DedupStore.close
    (mkWorld d (mkDedupStore p (Some (aiosqlite.close (aiosqlite.connect p))))) =
  (Ok tt,
   mkWorld d (mkDedupStore p (Some (aiosqlite.close (aiosqlite.connect p))))).
Proof. reflexivity. Qed.

Lemma close_eval_none d p :
  DedupStore.close (mkWorld d (mkDedupStore p None)) =
  (Ok tt, mkWorld d (mkDedupStore p None)).
Proof. reflexivity. Qed.

(** C1: on an initialized ledger [mark_processed] returns a boolean, never
    an exception; it is [true] exactly when no record with the pair
    [(topic, event_id)] existed before the call, and then the record has
    been inserted; it is [false] exactly when the pair existed, and then
    nothing has changed. *)
Theorem mark_processed_first_seen w topic event_id ts :
  Initialized w →
  ∃ b w',
    DedupStore.mark_processed topic event_id ts w = (Ok b, w') ∧
    (b = true ↔ ¬ key_recorded topic event_id (records w)) ∧
    (b = false ↔ key_recorded topic event_id (records w)) ∧
    (b = true →
       records w' = records w ++ [mkRow topic event_id ts] ∧
       key_recorded topic event_id (records w') ∧
       Initialized w') ∧
    (b = false → w' = w).
Proof.
  intros Hi. destruct (initialized_inv w Hi) as (d & p & rows & -> & Hd).
  rewrite (mark_processed_eval d p rows topic event_id ts Hd).
  unfold records. simpl. rewrite Hd. simpl.
  destruct (has_key topic event_id rows) eqn:Hk.
  - exists false, (mkWorld d (mkDedupStore p (Some (aiosqlite.connect p)))).
    apply has_key_spec in Hk. split_and!; try done; naive_solver.
  - eexists true, _. split; [reflexivity |].
    pose proof (proj1 (has_key_false _ _ _) Hk) as Hn.
    simpl. rewrite lookup_insert_eq. simpl.
    split_and!; try done.
    intros _. split_and!; try done.
    + exists (mkRow topic event_id ts). split; [| done].
      set_solver.
    + split; simpl; [done | rewrite lookup_insert_eq; eauto].
Qed.

Lemma ledger_example_Initialized : Initialized ledger_example.
Proof. split; [reflexivity | by eexists]. Qed.

Lemma mark_processed_first_seen_witness :
  ∃ b w',
    DedupStore.mark_processed "orders" "evt-1" "2025-10-24T10:30:00"
      ledger_example = (Ok b, w') ∧
    (b = true ↔ ¬ key_recorded "orders" "evt-1" (records ledger_example)) ∧
    (b = false ↔ key_recorded "orders" "evt-1" (records ledger_example)) ∧
    (b = true →
       records w' =
         records ledger_example
           ++ [mkRow "orders" "evt-1" "2025-10-24T10:30:00"] ∧
       key_recorded "orders" "evt-1" (records w') ∧
       Initialized w') ∧
    (b = false → w' = ledger_example).
Proof.
  apply (mark_processed_first_seen ledger_example "orders" "evt-1"
           "2025-10-24T10:30:00").
  split; [reflexivity | by eexists].
Defined.

(** C6, as the code has it: each of [is_duplicate], [mark_processed],
    [get_unique_topics], [count_processed] called on a ledger whose
    [initialize] has not run raises the uninitialized-state error and
    changes nothing; called after [close] on an initialized ledger, it
    fails as well, with the closed-connection error of the storage handle,
    because [close] keeps the handle in [self.db]. *)
Theorem query_outside_lifetime w op :
  is_query op = true →
  (db (store w) = None →
     ledger_step op w =
       (fst (ledger_step op w), w) ∧
     raised (fst (ledger_step op w)) = Some DedupStore.not_initialized) ∧
  (Initialized w →
     let w' := snd (DedupStore.close w) in
     ledger_step op w' = (fst (ledger_step op w'), w') ∧
     raised (fst (ledger_step op w')) = Some aiosqlite.closed_error ∧
     aiosqlite.closed_error ≠ DedupStore.not_initialized).
Proof.
  intros Hq. split.
  - destruct w as [d [p o]]. simpl. intros ->.
    destruct op as [| t e | t e ts | | [t|] |]; try done.
    all: simpl; unfold_ledger; simpl; by destruct (negb (t =? ""))%string.
  - intros Hi. destruct (initialized_inv w Hi) as (d & p & rows & -> & Hd).
    rewrite close_eval_open. simpl.
    destruct op as [| t e | t e ts | | [t|] |]; try done.
    all: simpl; unfold_ledger; simpl; by destruct (negb (t =? ""))%string.
Qed.

Lemma query_outside_lifetime_witness :
  (ledger_step (OpMarkProcessed "orders" "evt-1" "t")
     (fresh_ledger ∅ "data/dedup.db") =
     (OutBool (Raise DedupStore.not_initialized),
      fresh_ledger ∅ "data/dedup.db")) ∧
  raised (fst (ledger_step (OpCountProcessed None)
                 (snd (DedupStore.close ledger_example)))) =
    Some aiosqlite.closed_error.
Proof.
  split.
  - apply (proj1 (query_outside_lifetime (fresh_ledger ∅ "data/dedup.db")
             (OpMarkProcessed "orders" "evt-1" "t") eq_refl)).
    reflexivity.
  - apply (proj2 (query_outside_lifetime ledger_example
             (OpCountProcessed None) eq_refl)).
    split; [reflexivity | by eexists].
Defined.

(** C6 as stated fails after [close]: on the ledger initialized on an
    empty location and then closed, [mark_processed] raises
    [ValueError "no active connection"], which is not the uninitialized-state
    error. *)
Lemma closed_ledger_error_counterexample :
  fst (DedupStore.mark_processed "orders" "evt-1" "t"
         (snd (DedupStore.close ledger_example))) =
    Raise (ValueError "no active connection") ∧
  fst (DedupStore.mark_processed "orders" "evt-1" "t"
         (snd (DedupStore.close ledger_example))) ≠
    Raise DedupStore.not_initialized.
Proof. split; [reflexivity | discriminate]. Qed.

(** C9: [close] on a ledger that was initialized and has been closed
    returns normally and leaves the ledger and the files as they are. *)
Theorem close_twice w :
  Initialized w →
  DedupStore.close (snd (DedupStore.close w)) =
    (Ok tt, snd (DedupStore.close w)).
Proof.
  intros Hi. destruct (initialized_inv w Hi) as (d & p & rows & -> & Hd).
  rewrite close_eval_open. simpl. apply close_eval_closed.
Qed.

Lemma close_twice_witness :
  DedupStore.close (snd (DedupStore.close ledger_example)) =
    (Ok tt, snd (DedupStore.close ledger_example)).
Proof.
  apply (close_twice ledger_example). split; [reflexivity | by eexists].
Defined.

(** C10: on an initialized ledger [count_processed] with the empty string
    as topic returns the number of all records, as with no topic. *)
Theorem count_processed_empty_topic w :
  Initialized w →
  DedupStore.count_processed (Some "") w =
    (Ok (Z.of_nat (length (records w))), w) ∧
  DedupStore.count_processed (Some "") w = DedupStore.count_processed None w.
Proof.
  intros Hi. destruct (initialized_inv w Hi) as (d & p & rows & -> & Hd).
  unfold records. unfold_ledger. simpl. rewrite Hd. simpl.
  by rewrite app_nil_r.
Qed.

Lemma ledger_three_Initialized : Initialized ledger_three.
Proof. split; [reflexivity | by eexists]. Qed.

Lemma count_processed_empty_topic_witness :
  DedupStore.count_processed (Some "") ledger_three =
    (Ok (Z.of_nat (length (records ledger_three))), ledger_three) ∧
  DedupStore.count_processed (Some "") ledger_three =
    DedupStore.count_processed None ledger_three.
Proof.
  apply (count_processed_empty_topic ledger_three).
  split; [reflexivity | by eexists].
Defined.

(** On [ledger_three] the answer is 3, while one record has the empty
    topic; a non-empty topic is counted on its own. *)
Lemma count_processed_empty_topic_is_total :
  fst (DedupStore.count_processed (Some "") ledger_three) = Ok 3%Z ∧
  length (filter (fun r => row_topic r = "") (records ledger_three)) = 1 ∧
  fst (DedupStore.count_processed (Some "a") ledger_three) = Ok 1%Z.
Proof. split_and!; reflexivity. Qed.

(** ** Reachable ledger states *)

Lemma ledger_ok_inv w :
  ledger_ok w →
  ∃ d p,
    NoDup (map row_key (default [] (d !! p))) ∧
    (w = mkWorld d (mkDedupStore p None) ∨
     (w = mkWorld d (mkDedupStore p (Some (aiosqlite.connect p))) ∧
      ∃ rows, d !! p = Some rows) ∨
     w = mkWorld d (mkDedupStore p (Some (aiosqlite.close (aiosqlite.connect p))))).
Proof.
  destruct w as [d [p o]]. intros [Hu Hs]. exists d, p. split; [done |].
  destruct Hs as [Hs | [Hs | Hs]].
  - left. simpl in Hs. by subst.
  - right; left. destruct Hs as [Hs [rows Hr]]. simpl in *. subst. eauto.
  - right; right. simpl in Hs. by subst.
Qed.

Lemma fresh_ledger_ok d path :
  unique_keys (default [] (d !! path)) → ledger_ok (fresh_ledger d path).
Proof. intros Hu. split; [done | by left]. Qed.

Lemma has_key_not_in topic event_id rows :
  has_key topic event_id rows = false →
  (topic, event_id) ∉ map row_key rows.
Proof.
  intros Hk Hin. apply has_key_false in Hk. apply Hk.
  apply list_elem_of_fmap in Hin as (r & Heq & Hr).
  exists r. unfold row_key in Heq. by inversion Heq.
Qed.

Lemma unique_keys_snoc rows r :
  unique_keys rows →
  has_key (row_topic r) (row_event_id r) rows = false →
  unique_keys (rows ++ [r]).
Proof.
  unfold unique_keys. intros Hu Hk. rewrite map_app. simpl.
  apply NoDup_app. split_and!; [done | | apply NoDup_singleton].
  intros k Hin Hk'. apply list_elem_of_singleton in Hk'. subst k.
  by apply (has_key_not_in _ _ _ Hk).
Qed.

(** A query on an open handle answers from the committed records and
    changes nothing. *)
Lemma db_select_eval {A} (q : list Row → A) d p rows :
  d !! p = Some rows →
  DedupStore.db_select q
    (mkWorld d (mkDedupStore p (Some (aiosqlite.connect p)))) =
  (Ok (q rows), mkWorld d (mkDedupStore p (Some (aiosqlite.connect p)))).
Proof.
  intros Hd. unfold_ledger. simpl. rewrite Hd. simpl. by rewrite app_nil_r.
Qed.

Lemma is_duplicate_eval d p rows topic event_id :
  d !! p = Some rows →
  DedupStore.is_duplicate topic event_id
    (mkWorld d (mkDedupStore p (Some (aiosqlite.connect p)))) =
  (Ok (has_key topic event_id rows),
   mkWorld d (mkDedupStore p (Some (aiosqlite.connect p)))).
Proof.
  intros Hd. unfold DedupStore.is_duplicate, mbind, M_bind, bind. simpl.
  by rewrite (db_select_eval _ d p rows Hd).
Qed.

(** A query leaves every ledger state as it is. *)
Lemma query_keeps_state w op :
  ledger_ok w → is_query op = true →
  (∀ t e ts, op ≠ OpMarkProcessed t e ts) →
  snd (ledger_step op w) = w.
Proof.
  intros Hok Hq Hm.
  destruct (ledger_ok_inv w Hok) as (d & p & Hu & [-> | [[-> [rows Hd]] | ->]]).
  - destruct op as [| t e | t e ts | | [t|] |]; try done.
    all: simpl; unfold_ledger; simpl; by destruct (negb (t =? ""))%string.
  - destruct op as [| t e | t e ts | | [t|] |]; try done.
    all: try (by specialize (Hm t e ts)).
    all: simpl; unfold_ledger; simpl; rewrite ?Hd; simpl;
      try destruct (negb (t =? ""))%string; simpl; by rewrite ?Hd.
  - destruct op as [| t e | t e ts | | [t|] |]; try done.
    all: simpl; unfold_ledger; simpl; by destruct (negb (t =? ""))%string.
Qed.

(** What one [mark_processed] call does to a reachable ledger state. *)
Lemma mark_step w t e ts :
  ledger_ok w →
  ledger_ok (snd (ledger_step (OpMarkProcessed t e ts) w)) ∧
  if is_open w then
    fst (ledger_step (OpMarkProcessed t e ts) w) =
      OutBool (Ok (negb (has_key t e (records w)))) ∧
    records (snd (ledger_step (OpMarkProcessed t e ts) w)) =
      if has_key t e (records w) then records w
      else records w ++ [mkRow t e ts]
  else ∃ x, ledger_step (OpMarkProcessed t e ts) w = (OutBool (Raise x), w).
Proof.
  intros Hok.
  destruct (ledger_ok_inv w Hok) as (d & p & Hu & [-> | [[-> [rows Hd]] | ->]]).
  - split; [exact Hok | by eexists].
  - simpl. rewrite (mark_processed_eval d p rows t e ts Hd).
    unfold records. simpl. rewrite Hd in Hu |- *. simpl in *.
    destruct (has_key t e rows) eqn:Hk; simpl.
    + rewrite Hd. split; [exact Hok | done].
    + rewrite lookup_insert_eq. simpl. split; [| done].
      split.
      * unfold records. simpl. rewrite lookup_insert_eq. simpl.
        by apply unique_keys_snoc.
      * right; left. split; simpl; [done | rewrite lookup_insert_eq; eauto].
  - split; [exact Hok | by eexists].
Qed.

(** Every other call keeps the committed records. *)
Lemma other_step w op :
  ledger_ok w →
  (∀ t e ts, op ≠ OpMarkProcessed t e ts) →
  ledger_ok (snd (ledger_step op w)) ∧
  records (snd (ledger_step op w)) = records w.
Proof.
  intros Hok Hm. destruct op as [| t e | t e ts | | topic |].
  - (* initialize *)
    destruct w as [d [p o]]. simpl. rewrite initialize_eval. simpl.
    destruct Hok as [Hu _]. unfold records in Hu |- *. simpl in *.
    destruct (d !! p) as [rows|] eqn:Hd; simpl in *.
    + rewrite Hd. simpl. split; [| done]. split.
      * unfold records. simpl. by rewrite Hd.
      * right; left. split; simpl; [done | rewrite Hd; eauto].
    + rewrite lookup_insert_eq. simpl. split; [| done]. split.
      * unfold records. simpl. by rewrite lookup_insert_eq.
      * right; left. split; simpl; [done | rewrite lookup_insert_eq; eauto].
  - rewrite query_keeps_state; done.
  - by specialize (Hm t e ts).
  - rewrite query_keeps_state; done.
  - rewrite query_keeps_state; done.
  - (* close *)
    destruct (ledger_ok_inv w Hok)
      as (d & p & Hu & [-> | [[-> [rows Hd]] | ->]]); simpl.
    + done.
    + split; [| done]. split; [exact (proj1 Hok) | by right; right].
    + done.
Qed.

Lemma ledger_step_ok w op : ledger_ok w → ledger_ok (snd (ledger_step op w)).
Proof.
  intros Hok. destruct op as [| t e | t e ts | | topic |].
  3: exact (proj1 (mark_step w t e ts Hok)).
  all: by apply other_step.
Qed.

Lemma ledger_run_ok ops w :
  ledger_ok w → ledger_ok (snd (ledger_run ops w)).
Proof.
  revert w. induction ops as [| op ops IH]; intros w Hok; [done |].
  simpl. pose proof (ledger_step_ok w op Hok) as Hok1.
  destruct (ledger_step op w) as [o w1]. simpl in Hok1.
  specialize (IH w1 Hok1). destruct (ledger_run ops w1) as [h w2]. done.
Qed.

(** A call that is not an open-ledger [mark_processed] of the pair leaves
    the pair as it was. *)
Lemma step_keeps_key w op t e :
  ledger_ok w →
  is_open w && is_mark_of t e op = false →
  has_key t e (records (snd (ledger_step op w))) = has_key t e (records w).
Proof.
  intros Hok Hb.
  destruct op as [| t' e' | t' e' ts | | topic |].
  3: {
    destruct (mark_step w t' e' ts Hok) as [_ Hm].
    destruct (is_open w); [| by destruct Hm as [x ->]].
    destruct Hm as [_ ->]. simpl in Hb.
    destruct (has_key t' e' (records w)); [done |].
    rewrite has_key_app. simpl. unfold same_key. simpl. rewrite Hb.
    by rewrite !orb_false_r. }
  all: f_equal; apply other_step; done.
Qed.

(** An open-ledger [mark_processed] of the pair answers whether the pair
    was absent, and leaves it present. *)
Lemma step_marks_key w op t e :
  ledger_ok w →
  is_open w && is_mark_of t e op = true →
  call_outcome (mkCall (is_open w) op (fst (ledger_step op w))) =
    OutBool (Ok (negb (has_key t e (records w)))) ∧
  has_key t e (records (snd (ledger_step op w))) = true.
Proof.
  intros Hok Hb. apply andb_true_iff in Hb as [Ho Hm].
  destruct op as [| t' e' | t' e' ts | | topic |]; try done.
  simpl in Hm. apply andb_true_iff in Hm as [Ht He].
  apply String.eqb_eq in Ht, He. subst t' e'.
  destruct (mark_step w t e ts Hok) as [_ Hs]. rewrite Ho in Hs.
  destruct Hs as [Hout Hrec]. split; [exact Hout |].
  rewrite Hrec. destruct (has_key t e (records w)) eqn:Hk; [done |].
  rewrite has_key_app. simpl. unfold same_key. simpl.
  by rewrite !String.eqb_refl, orb_true_r.
Qed.

Lemma ledger_run_counts ops w t e :
  ledger_ok w →
  answered true t e (fst (ledger_run ops w)) =
    (if has_key t e (records w) then 0
     else Nat.min 1 (issued t e (fst (ledger_run ops w)))) ∧
  answered true t e (fst (ledger_run ops w)) +
    answered false t e (fst (ledger_run ops w)) =
    issued t e (fst (ledger_run ops w)) ∧
  has_key t e (records (snd (ledger_run ops w))) =
    has_key t e (records w)
      || (0 <? issued t e (fst (ledger_run ops w)))%nat.
Proof.
  revert w. induction ops as [| op ops IH]; intros w Hok.
  - simpl. destruct (has_key t e (records w)); by rewrite ?orb_false_r.
  - simpl.
    pose proof (ledger_step_ok w op Hok) as Hok1.
    pose proof (step_keeps_key w op t e Hok) as Hkeep.
    pose proof (step_marks_key w op t e Hok) as Hmark.
    destruct (ledger_step op w) as [o w1]. simpl in Hok1, Hkeep, Hmark.
    specialize (IH w1 Hok1).
    destruct (ledger_run ops w1) as [h w2]. simpl in IH |- *.
    destruct IH as (IH1 & IH2 & IH3).
    unfold answered, issued in *. simpl.
    destruct (is_open w && is_mark_of t e op) eqn:Hb; simpl.
    + destruct (Hmark eq_refl) as [-> Hk1]. rewrite Hk1 in IH1, IH3.
      simpl. rewrite IH3.
      destruct (has_key t e (records w)); simpl; rewrite ?orb_true_r;
        split_and!; try done; lia.
    + rewrite (Hkeep eq_refl) in IH1, IH3. done.
Qed.

(** In [history_example] the pair is issued three times on the open
    ledger (and once on the closed one, which raises). *)
Lemma history_example_counts :
  issued "a" "1"
    (fst (ledger_run history_example (fresh_ledger ∅ "data/dedup.db"))) = 3 ∧
  map call_outcome
    (fst (ledger_run history_example (fresh_ledger ∅ "data/dedup.db"))) =
  [OutNone (Ok tt); OutBool (Ok true); OutBool (Ok true); OutBool (Ok false);
   OutInt (Ok 2%Z); OutNone (Ok tt);
   OutBool (Raise (ValueError "no active connection"));
   OutNone (Ok tt); OutBool (Ok false)].
Proof. split; reflexivity. Qed.

Lemma issued_pos topic event_id ts o h :
  mkCall true (OpMarkProcessed topic event_id ts) o ∈ h →
  0 < issued topic event_id h.
Proof.
  intros Hin. unfold issued.
  assert (Hf : In (mkCall true (OpMarkProcessed topic event_id ts) o)
                 (List.filter
                    (fun c => call_open c
                              && is_mark_of topic event_id (call_op c)) h)).
  { apply filter_In. split; [by apply list_elem_of_In |].
    simpl. by rewrite !String.eqb_refl. }
  destruct (List.filter _ h); [by destruct Hf | simpl; lia].
Qed.

(** Only a call issued on an open ledger returns [true]. *)
Lemma returned_true_open ops w b t e ts :
  ledger_ok w →
  mkCall b (OpMarkProcessed t e ts) (OutBool (Ok true))
    ∈ fst (ledger_run ops w) →
  b = true.
Proof.
  revert w. induction ops as [| op ops IH]; intros w Hok Hin.
  - by apply elem_of_nil in Hin.
  - simpl in Hin.
    pose proof (ledger_step_ok w op Hok) as Hok1.
    destruct (ledger_step op w) as [o w1] eqn:Hstep. simpl in Hok1.
    specialize (IH w1 Hok1).
    destruct (ledger_run ops w1) as [h w2]. simpl in Hin, IH.
    apply elem_of_cons in Hin as [Heq | Hin]; [| by apply IH].
    inversion Heq; subst; clear Heq.
    destruct (mark_step w t e ts Hok) as [_ Hm].
    destruct (is_open w); [done |].
    destruct Hm as [x Hx]. rewrite Hx in Hstep. by inversion Hstep.
Qed.

Lemma close_records w :
  ledger_ok w → records (snd (DedupStore.close w)) = records w.
Proof.
  intros Hok.
  pose proof (other_step w OpClose Hok ltac:(done)) as [_ Hrec].
  simpl in Hrec. by destruct (DedupStore.close w).
Qed.

(** C3: take any history of calls on a ledger in which a [mark_processed]
    call for a pair has returned [true].  After [close], a new instance
    initialized on the same location (the closed instance initialized
    again comes to the same state) reports the pair: [is_duplicate]
    returns [true] and [mark_processed] returns [false], changing
    nothing.  The location the ledger started from may hold a database
    of earlier runs or none. *)
Theorem restart_keeps_record d path ops b topic event_id ts :
  unique_keys (default [] (d !! path)) →
  mkCall b (OpMarkProcessed topic event_id ts) (OutBool (Ok true))
    ∈ fst (ledger_run ops (fresh_ledger d path)) →
  let closed :=
    snd (DedupStore.close (snd (ledger_run ops (fresh_ledger d path)))) in
  let reopened :=
    snd (DedupStore.initialize
           (fresh_ledger (disk closed) (db_path (store closed)))) in
  snd (DedupStore.initialize closed) = reopened ∧
  Initialized reopened ∧
  DedupStore.is_duplicate topic event_id reopened = (Ok true, reopened) ∧
  ∀ ts', DedupStore.mark_processed topic event_id ts' reopened =
         (Ok false, reopened).
Proof.
  intros Hu Hin closed reopened.
  assert (Hok : ledger_ok (fresh_ledger d path))
    by by apply fresh_ledger_ok.
  pose proof (ledger_run_ok ops _ Hok) as Hok2.
  destruct (ledger_run_counts ops _ topic event_id Hok) as (_ & _ & Hk).
  pose proof (returned_true_open _ _ _ _ _ _ Hok Hin) as ->.
  pose proof (issued_pos _ _ _ _ _ Hin) as Hpos.
  apply Nat.ltb_lt in Hpos. rewrite Hpos, orb_true_r in Hk.
  set (w2 := snd (ledger_run ops (fresh_ledger d path))) in *.
  assert (Hkc : has_key topic event_id (records closed) = true).
  { unfold closed. rewrite <- Hk. f_equal. by apply close_records. }
  subst reopened. clearbody closed. destruct closed as [dc [pc oc]].
  unfold records in Hkc. simpl in Hkc.
  unfold fresh_ledger, DedupStore.__init__.
  cbn [disk store db_path]. rewrite !initialize_eval. simpl.
  destruct (dc !! pc) as [rows|] eqn:Hd; [| done]. simpl in Hkc.
  split_and!.
  - done.
  - split; simpl; [done | rewrite Hd; eauto].
  - by rewrite (is_duplicate_eval dc pc rows _ _ Hd), Hkc.
  - intros ts'. by rewrite (mark_processed_eval dc pc rows _ _ ts' Hd), Hkc.
Qed.

Lemma restart_keeps_record_witness :
  let closed :=
    snd (DedupStore.close
           (snd (ledger_run history_example
                   (fresh_ledger ∅ "data/dedup.db")))) in
  let reopened :=
    snd (DedupStore.initialize
           (fresh_ledger (disk closed) (db_path (store closed)))) in
  snd (DedupStore.initialize closed) = reopened ∧
  Initialized reopened ∧
  DedupStore.is_duplicate "b" "1" reopened = (Ok true, reopened) ∧
  ∀ ts', DedupStore.mark_processed "b" "1" ts' reopened =
         (Ok false, reopened).
Proof.
  apply (restart_keeps_record ∅ "data/dedup.db" history_example
           true "b" "1" "t2").
  - apply NoDup_nil_2.
  - vm_compute. do 2 right. left.
Defined.

(** ** Interleaved callers of [mark_processed] *)

(** The two halves, run one after the other, are [mark_processed]. *)
Lemma mark_processed_halves t e ts w :
  DedupStore.mark_processed t e ts w =
  match mark_processed_insert t e ts w with
  | (Ok None, w1) => mark_processed_commit w1
  | (Ok (Some b), w1) => (Ok b, w1)
  | (Raise x, w1) => (Raise x, w1)
  end.
Proof.
  destruct w as [d [p [[cp [] pend]|]]];
    unfold mark_processed_insert, mark_processed_commit;
    unfold_ledger; simpl; try done.
  destruct (d !! cp) as [rows|] eqn:Hd; simpl; [| done].
  destruct (has_key t e (rows ++ pend)); simpl; [done |].
  by rewrite Hd.
Qed.

Lemma mark_processed_insert_eval d p rows pending t e ts :
  d !! p = Some rows →
  mark_processed_insert t e ts
    (mkWorld d (mkDedupStore p (Some (mkConnection p true pending)))) =
  if has_key t e (rows ++ pending)
  then (Ok (Some false),
        mkWorld d (mkDedupStore p (Some (mkConnection p true pending))))
  else (Ok None,
        mkWorld d
          (mkDedupStore p
             (Some (mkConnection p true (pending ++ [mkRow t e ts]))))).
Proof.
  intros Hd. unfold mark_processed_insert. unfold_ledger. simpl.
  rewrite Hd. simpl. by destruct (has_key t e (rows ++ pending)).
Qed.

Lemma mark_processed_commit_eval d p rows pending :
  d !! p = Some rows →
  mark_processed_commit
    (mkWorld d (mkDedupStore p (Some (mkConnection p true pending)))) =
  (Ok true,
   mkWorld (<[p := rows ++ pending]> d)
     (mkDedupStore p (Some (mkConnection p true [])))).
Proof.
  intros Hd. unfold mark_processed_commit. unfold_ledger. simpl.
  by rewrite Hd.
Qed.

(** Counting the calls that satisfy [f]. *)
Lemma count_snoc (f : CallState → bool) l x :
  length (List.filter f (l ++ [x])) =
  length (List.filter f l) + (if f x then 1 else 0).
Proof.
  rewrite List.filter_app, length_app. simpl. by destruct (f x).
Qed.

Lemma count_insert (f : CallState → bool) l i x y :
  l !! i = Some y →
  length (List.filter f (<[i := x]> l)) + (if f y then 1 else 0) =
  length (List.filter f l) + (if f x then 1 else 0).
Proof.
  revert i. induction l as [| z l IH]; intros i Hi; [done |].
  destruct i as [| i]; simpl in *.
  - inversion Hi; subst. destruct (f x), (f y); simpl; lia.
  - specialize (IH i Hi). destruct (f z); simpl; lia.
Qed.

Lemma is_call_of_returned t e t' e' r :
  is_call_of t e (Returned t' e' r) = String.eqb t' t && String.eqb e' e.
Proof. reflexivity. Qed.

Lemma is_call_of_committing t e t' e' :
  is_call_of t e (Committing t' e') = String.eqb t' t && String.eqb e' e.
Proof. reflexivity. Qed.

Lemma same_key_row t e t' e' ts :
  same_key t e (mkRow t' e' ts) = String.eqb t' t && String.eqb e' e.
Proof. reflexivity. Qed.

Lemma ltb_0_succ n : (0 <? n + 1)%nat = true.
Proof. apply Nat.ltb_lt. lia. Qed.

Lemma call_step_inv rows0 t e ev st st' :
  call_step ev st = Some st' →
  calls_inv rows0 t e st → calls_inv rows0 t e st'.
Proof.
  destruct st as [w calls].
  intros Hstep (d & p & rows & pend & Hw & Hd & Hu & H1 & H2 & H3).
  cbn [fst snd] in Hw, H1, H2, H3. subst w.
  destruct ev as [t' e' ts | i]; simpl in Hstep.
  - (* a new caller *)
    rewrite (mark_processed_insert_eval d p rows pend t' e' ts Hd) in Hstep.
    destruct (has_key t' e' (rows ++ pend)) eqn:Hk';
      inversion Hstep; subst; clear Hstep.
    + (* the pair is visible: the call returns false *)
      exists d, p, rows, pend. cbn [fst snd].
      unfold entered, returned, committing in *. rewrite !count_snoc.
      rewrite ?is_call_of_returned, ?is_call_of_committing.
      cbn [is_committing has_returned Bool.eqb].
      destruct ((t' =? t)%string && (e' =? e)%string) eqn:Hkey;
        cbn [andb].
      * apply andb_true_iff in Hkey as [Ht He].
        apply String.eqb_eq in Ht, He. subst t' e'.
        rewrite Hk' in H1. rewrite ltb_0_succ, orb_true_r, !Nat.add_0_r.
        split_and!; try done.
        -- destruct (has_key t e rows0); cbn [orb] in *; [lia |].
           symmetry in H1. apply Nat.ltb_lt in H1. lia.
        -- lia.
      * rewrite !Nat.add_0_r. by split_and!.
    + (* the row is inserted: the caller goes on to commit *)
      exists d, p, rows, (pend ++ [mkRow t' e' ts]). cbn [fst snd].
      rewrite app_assoc.
      unfold entered, returned, committing in *. rewrite !count_snoc.
      rewrite ?is_call_of_returned, ?is_call_of_committing.
      cbn [is_committing has_returned Bool.eqb].
      rewrite has_key_app.
      cbn [has_key existsb]. rewrite orb_false_r, same_key_row.
      destruct ((t' =? t)%string && (e' =? e)%string) eqn:Hkey;
        cbn [andb].
      * apply andb_true_iff in Hkey as [Ht He].
        apply String.eqb_eq in Ht, He. subst t' e'.
        rewrite Hk' in H1. symmetry in H1.
        apply orb_false_iff in H1 as [Hr0 Hn]. apply Nat.ltb_ge in Hn.
        rewrite Hr0 in *. rewrite ltb_0_succ, !orb_true_r, !Nat.add_0_r.
        cbn [orb]. split_and!; try done.
        -- by apply unique_keys_snoc.
        -- lia.
        -- lia.
      * rewrite !Nat.add_0_r, orb_false_r. split_and!; try done.
        by apply unique_keys_snoc.
  - (* a caller commits and returns *)
    destruct (calls !! i) as [[t' e' | t' e' r]|] eqn:Hi; [| done | done].
    rewrite (mark_processed_commit_eval d p rows pend Hd) in Hstep.
    inversion Hstep; subst; clear Hstep.
    exists (<[p := rows ++ pend]> d), p, (rows ++ pend), []. cbn [fst snd].
    rewrite lookup_insert_eq, app_nil_r.
    unfold entered, returned, committing in *.
    pose proof (count_insert (is_call_of t e) calls i
                  (Returned t' e' (Ok true)) _ Hi) as Ce.
    pose proof (count_insert
                  (fun c => is_call_of t e c && is_committing c) calls i
                  (Returned t' e' (Ok true)) _ Hi) as Cc.
    pose proof (count_insert
                  (fun c => is_call_of t e c && has_returned true c) calls i
                  (Returned t' e' (Ok true)) _ Hi) as Ct.
    pose proof (count_insert
                  (fun c => is_call_of t e c && has_returned false c) calls i
                  (Returned t' e' (Ok true)) _ Hi) as Cf.
    cbn [is_committing has_returned Bool.eqb] in Ce, Cc, Ct, Cf.
    rewrite ?is_call_of_returned, ?is_call_of_committing in Ce, Cc, Ct, Cf.
    destruct ((t' =? t)%string && (e' =? e)%string); cbn [andb] in *.
    all: assert (He : length (List.filter (is_call_of t e)
                         (<[i := Returned t' e' (Ok true)]> calls))
                = length (List.filter (is_call_of t e) calls)) by lia.
    all: rewrite He; split_and!; try done; lia.
Qed.

Lemma calls_run_inv rows0 t e evs st st' :
  calls_run evs st = Some st' →
  calls_inv rows0 t e st → calls_inv rows0 t e st'.
Proof.
  revert st. induction evs as [| ev evs IH]; intros st Hrun Hinv;
    simpl in Hrun.
  - by inversion Hrun; subst.
  - destruct (call_step ev st) as [st1|] eqn:Hstep; [| done].
    eapply IH; [exact Hrun |]. by eapply call_step_inv.
Qed.

Lemma calls_inv_start w t e :
  Initialized w → unique_keys (records w) →
  calls_inv (records w) t e (w, []).
Proof.
  intros Hi Hu. destruct (initialized_inv w Hi) as (d & p & rows & -> & Hd).
  unfold records in *. simpl in Hu |- *. rewrite Hd in Hu |- *. simpl in *.
  exists d, p, rows, []. cbn [fst snd]. rewrite app_nil_r.
  split_and!; try done.
  - by rewrite orb_false_r.
  - by destruct (has_key t e rows).
Qed.

(** Callers interleaved at the suspension points of [mark_processed], on
    an initialized ledger: the committed records keep distinct keys, and
    once the calls for a pair that was not recorded are all over, exactly
    one of them has returned [true] and the others [false]. *)
Lemma interleaved_marks w evs w' calls :
  Initialized w → unique_keys (records w) →
  calls_run evs (w, []) = Some (w', calls) →
  unique_keys (records w') ∧
  ∀ t e,
    has_key t e (records w) = false →
    committing t e calls = 0 →
    0 < entered t e calls →
    returned true t e calls = 1 ∧
    returned false t e calls = entered t e calls - 1.
Proof.
  intros Hi Hu Hrun. split.
  - destruct (calls_run_inv _ "" "" evs _ _ Hrun
                (calls_inv_start w "" "" Hi Hu))
      as (d & p & rows & pend & Hw & Hd & Hu' & _).
    simpl in Hw. subst w'. unfold records. simpl. rewrite Hd. simpl.
    unfold unique_keys in *. rewrite map_app in Hu'.
    by apply NoDup_app in Hu' as [? _].
  - intros t e Hk Hc Hn.
    destruct (calls_run_inv _ t e evs _ _ Hrun (calls_inv_start w t e Hi Hu))
      as (d & p & rows & pend & _ & _ & _ & _ & H2 & H3).
    cbn [fst snd] in H2, H3. rewrite Hk in H2. lia.
Qed.

(** C2: in every state a ledger reaches from a location with no database,
    no two committed records share [(topic, event_id)]; when
    [mark_processed] is issued N >= 1 times for one pair on the
    initialized ledger, in a history with any other calls in between and
    with restarts, exactly one of the N returns [true] and the other N-1
    return [false]; and when from any such state with the ledger open
    callers of [mark_processed] interleave at its suspension points, the
    keys stay distinct and, once the N >= 1 calls for a pair that was not
    recorded are over, exactly one of them has returned [true] and N-1
    [false]. *)
Theorem ledger_uniqueness d path ops :
  d !! path = None →
  unique_keys (records (snd (ledger_run ops (fresh_ledger d path)))) ∧
  (∀ topic event_id,
     0 < issued topic event_id
           (fst (ledger_run ops (fresh_ledger d path))) →
     answered true topic event_id
       (fst (ledger_run ops (fresh_ledger d path))) = 1 ∧
     answered false topic event_id
       (fst (ledger_run ops (fresh_ledger d path))) =
       issued topic event_id
         (fst (ledger_run ops (fresh_ledger d path))) - 1) ∧
  (∀ evs w' calls,
     is_open (snd (ledger_run ops (fresh_ledger d path))) = true →
     calls_run evs (snd (ledger_run ops (fresh_ledger d path)), [])
       = Some (w', calls) →
     unique_keys (records w') ∧
     ∀ topic event_id,
       has_key topic event_id
         (records (snd (ledger_run ops (fresh_ledger d path)))) = false →
       committing topic event_id calls = 0 →
       0 < entered topic event_id calls →
       returned true topic event_id calls = 1 ∧
       returned false topic event_id calls =
         entered topic event_id calls - 1).
Proof.
  intros Hd.
  assert (Hok : ledger_ok (fresh_ledger d path)).
  { apply fresh_ledger_ok. rewrite Hd. apply NoDup_nil_2. }
  pose proof (ledger_run_ok ops _ Hok) as Hok'.
  split_and!.
  - exact (proj1 Hok').
  - intros topic event_id Hn.
    destruct (ledger_run_counts ops _ topic event_id Hok) as (H1 & H2 & _).
    unfold records in H1. cbn [fresh_ledger disk store db_path
      DedupStore.__init__] in H1. rewrite Hd in H1.
    cbn [default has_key existsb] in H1.
    lia.
  - intros evs w' calls Hopen Hrun.
    apply (interleaved_marks _ evs w' calls); [| exact (proj1 Hok') | done].
    destruct Hok' as [_ [Hnone | [Hinit | Hclosed]]]; [| done |].
    + unfold is_open in Hopen. by rewrite Hnone in Hopen.
    + unfold is_open in Hopen. by rewrite Hclosed in Hopen.
Qed.

Lemma ledger_uniqueness_witness :
  unique_keys (records (snd (ledger_run history_example
                               (fresh_ledger ∅ "data/dedup.db")))) ∧
  (answered true "a" "1"
     (fst (ledger_run history_example (fresh_ledger ∅ "data/dedup.db"))) = 1 ∧
   answered false "a" "1"
     (fst (ledger_run history_example (fresh_ledger ∅ "data/dedup.db"))) =
     issued "a" "1"
       (fst (ledger_run history_example (fresh_ledger ∅ "data/dedup.db")))
     - 1) ∧
  ∃ w' calls,
    calls_run interleaving_example
      (snd (ledger_run history_example (fresh_ledger ∅ "data/dedup.db")), [])
      = Some (w', calls) ∧
    unique_keys (records w') ∧
    returned true "c" "7" calls = 1 ∧
    returned false "c" "7" calls = entered "c" "7" calls - 1.
Proof.
  destruct (ledger_uniqueness ∅ "data/dedup.db" history_example)
    as (Hu & Hn & Hc); [reflexivity |].
  split; [exact Hu |].
  split; [apply (Hn "a" "1"); vm_compute; lia |].
  - do 2 eexists. split; [vm_compute; reflexivity |].
    match goal with
    | |- unique_keys (records ?w) ∧ returned true _ _ ?c = 1 ∧ _ =>
        destruct (Hc interleaving_example w c) as [Hu' Hk];
          [reflexivity | vm_compute; reflexivity |]
    end.
    split; [exact Hu' |].
    apply (Hk "c" "7"); [reflexivity | reflexivity | vm_compute; lia].
Defined.

(** In [interleaving_example] three callers for one pair overlap: the
    first returns [true] after the other two have returned [false]. *)
Lemma interleaving_example_outcome :
  snd <$> calls_run interleaving_example (ledger_example, []) =
  Some [Returned "c" "7" (Ok true); Returned "c" "7" (Ok false);
        Returned "d" "7" (Ok true); Returned "c" "7" (Ok false)].
Proof. reflexivity. Qed.

(** ** Facts about the pipeline *)

Lemma for_each_put events s :
  for_each events
    (fun event =>
       modify_proc (fun p => set_queue (Queue.put event (queue p)) p)) s =
  (Ok tt,
   set_proc
     (set_queue
        {| Queue.items := Queue.items (queue (proc s)) ++ events;
           Queue.unfinished_tasks :=
             (Queue.unfinished_tasks (queue (proc s))
              + Z.of_nat (length events))%Z;
           Queue.waiters := Queue.waiters (queue (proc s)) |}
        (proc s)) s).
Proof.
  revert s. induction events as [| e events IH]; intros [w p ts sr el].
  - simpl. unfold mret, M_ret, ret. rewrite app_nil_r, Z.add_0_r.
    by destruct p as [[] ? ? ? ?].
  - cbn [for_each]. unfold mbind, M_bind, bind.
    unfold modify_proc at 1. unfold modify. rewrite IH.
    destruct p as [[its n wt] ? ? ? ?].
    unfold set_proc, set_queue, Queue.put.
    cbn [world proc tasks stops_resuming error_log queue Queue.items
         Queue.unfinished_tasks Queue.waiters
         processed_events stats consumer_task _running].
    rewrite <- app_assoc. cbn [app length].
    do 4 f_equal. lia.
Qed.

(** What [publish] computes, for use in the proofs below. *)
Lemma publish_eval events s :
  EventProcessor.publish events s =
  (Ok [("received", Z.of_nat (length events))],
   {| world := world s;
      proc :=
        {| queue :=
             {| Queue.items := Queue.items (queue (proc s)) ++ events;
                Queue.unfinished_tasks :=
                  (Queue.unfinished_tasks (queue (proc s))
                   + Z.of_nat (length events))%Z;
                Queue.waiters := Queue.waiters (queue (proc s)) |};
           processed_events := processed_events (proc s);
           stats :=
             {| received :=
                  (received (stats (proc s)) + Z.of_nat (length events))%Z;
                unique_processed := unique_processed (stats (proc s));
                duplicate_dropped := duplicate_dropped (stats (proc s)) |};
           consumer_task := consumer_task (proc s);
           _running := _running (proc s) |};
      tasks := tasks s;
      stops_resuming := stops_resuming s;
      error_log := error_log s |}).
Proof.
  unfold EventProcessor.publish, mbind, M_bind, bind.
  unfold modify_proc at 1. unfold modify. rewrite for_each_put.
  by destruct s as [w [[its n wt] l [r u dd] t b] ts sr el].
Qed.

(** C8: [publish] returns [{"received": n}] for a batch of [n] events and
    leaves a state that differs from the one it started in only by the
    batch appended to the queue in its order, [n] more unfinished tasks in
    the queue's books and [received] increased by [n].  The other two
    counters, the processed log, the consumer tasks and the ledger are as
    before: nothing of the batch has been processed. *)
Theorem publish_enqueues events s :
  EventProcessor.publish events s =
  (Ok [("received", Z.of_nat (length events))],
   {| world := world s;
      proc :=
        {| queue :=
             {| Queue.items := Queue.items (queue (proc s)) ++ events;
                Queue.unfinished_tasks :=
                  (Queue.unfinished_tasks (queue (proc s))
                   + Z.of_nat (length events))%Z;
                Queue.waiters := Queue.waiters (queue (proc s)) |};
           processed_events := processed_events (proc s);
           stats :=
             {| received :=
                  (received (stats (proc s)) + Z.of_nat (length events))%Z;
                unique_processed := unique_processed (stats (proc s));
                duplicate_dropped := duplicate_dropped (stats (proc s)) |};
           consumer_task := consumer_task (proc s);
           _running := _running (proc s) |};
      tasks := tasks s;
      stops_resuming := stops_resuming s;
      error_log := error_log s |}).
Proof.
  unfold EventProcessor.publish, mbind, M_bind, bind.
  unfold modify_proc at 1. unfold modify. rewrite for_each_put.
  by destruct s as [w [[its n wt] l [r u dd] t b] ts sr el].
Qed.

(** [_process_event] in terms of the ledger's answer. *)
Lemma process_event_eval e s :
  EventProcessor._process_event e s =
  match DedupStore.mark_processed (Event.topic e) (Event.event_id e)
          (isoformat (Event.timestamp e)) (world s) with
  | (Ok true, w') =>
      (Ok tt,
       {| world := w';
          proc := set_processed_events (processed_events (proc s) ++ [e])
                    (EventProcessor.add_unique_processed 1 (proc s));
          tasks := tasks s;
          stops_resuming := stops_resuming s;
          error_log := error_log s |})
  | (Ok false, w') =>
      (Ok tt,
       {| world := w';
          proc := EventProcessor.add_duplicate_dropped 1 (proc s);
          tasks := tasks s;
          stops_resuming := stops_resuming s;
          error_log := error_log s |})
  | (Raise x, w') =>
      (Raise x,
       {| world := w'; proc := proc s; tasks := tasks s;
          stops_resuming := stops_resuming s; error_log := error_log s |})
  end.
Proof.
  unfold EventProcessor._process_event, lift_world, mbind, M_bind, bind.
  destruct (DedupStore.mark_processed _ _ _ (world s)) as [[[|]|x] w'];
    reflexivity.
Qed.

(** *** Events in the hands of the tasks *)

Lemma holds_range t : (0 ≤ holds t ≤ 1)%Z.
Proof. destruct t; simpl; lia. Qed.

Lemma in_flight_nonneg l : (0 ≤ in_flight l)%Z.
Proof.
  induction l as [| t l IH]; simpl; [lia |].
  pose proof (holds_range t). lia.
Qed.

Lemma in_flight_app l1 l2 :
  in_flight (l1 ++ l2) = (in_flight l1 + in_flight l2)%Z.
Proof. induction l1 as [| t l1 IH]; simpl; lia. Qed.

Lemma in_flight_insert l i t t' :
  l !! i = Some t →
  in_flight (<[i := t']> l) = (in_flight l - holds t + holds t')%Z.
Proof.
  revert i. induction l as [| u l IH]; intros i Hi; [done |].
  destruct i as [| i]; simpl in *.
  - inversion Hi; subst. lia.
  - rewrite (IH i Hi). lia.
Qed.

Lemma in_flight_lookup l i t :
  l !! i = Some t → (holds t ≤ in_flight l)%Z.
Proof.
  revert i. induction l as [| u l IH]; intros i Hi; [done |].
  destruct i as [| i]; simpl in *.
  - inversion Hi; subst. pose proof (in_flight_nonneg l). lia.
  - specialize (IH i Hi). pose proof (holds_range u). lia.
Qed.

Lemma in_flight_cancel l i :
  (in_flight (<[i := Finished]> l) ≤ in_flight l)%Z.
Proof.
  destruct (l !! i) as [t|] eqn:Hi.
  - rewrite (in_flight_insert l i t Finished Hi).
    pose proof (holds_range t). simpl. lia.
  - rewrite list_insert_ge; [lia |]. by apply lookup_ge_None.
Qed.

(** *** The accounting is kept by every action *)

Lemma accounted_new w : accounted 0 (new_system w).
Proof. split; reflexivity. Qed.

Lemma cancel_accounted lost s :
  accounted lost s → accounted lost (EventProcessor.cancel_consumer_task s).
Proof.
  intros [Hsum Hcover]. unfold EventProcessor.cancel_consumer_task.
  destruct (consumer_task (proc s)) as [i|]; [| done].
  split; simpl; [done |].
  pose proof (in_flight_cancel (tasks s) i). lia.
Qed.

Lemma consumer_loop_step_accounted lost i t s t' s' :
  (0 ≤ lost)%Z →
  tasks s !! i = Some t →
  EventProcessor.consumer_loop_step t s = Some (t', s') →
  accounted lost s →
  accounted lost (set_tasks (<[i := t']> (tasks s')) s').
Proof.
  intros Hlost Hi Hstep [Hsum Hcover].
  pose proof (in_flight_lookup _ _ _ Hi) as Hle.
  pose proof (in_flight_insert (tasks s) i t) as Hins.
  destruct s as [w [[its n wt] l [r u dd] ct b] ts sr el].
  simpl in Hsum, Hcover, Hi, Hle, Hins.
  unfold accounted.
  destruct t as [| | ev |]; simpl in Hstep; [| | | done].
  - (* first run *)
    inversion Hstep; subst; clear Hstep. simpl.
    rewrite (Hins _ Hi). unfold EventProcessor.loop_head. simpl in *.
    destruct b; simpl; lia.
  - (* waiting for an event *)
    destruct its as [| e its']; simpl in Hstep;
      inversion Hstep; subst; clear Hstep; simpl;
      rewrite (Hins _ Hi); unfold EventProcessor.loop_head; simpl in *.
    + destruct b; simpl; lia.
    + lia.
  - (* processing the event in hand *)
    unfold try_except, mbind, M_bind, bind in Hstep.
    rewrite process_event_eval in Hstep. simpl in Hstep, Hle.
    destruct (DedupStore.mark_processed _ _ _ w) as [[[|]|x] w'];
      simpl in Hstep.
    + unfold EventProcessor.queue_task_done, Queue.task_done in Hstep.
      simpl in Hstep.
      destruct (n <=? 0)%Z eqn:Hn; [lia |].
      destruct (n - 1 =? 0)%Z eqn:Hn1; simpl in Hstep;
        inversion Hstep; subst; clear Hstep; simpl;
        rewrite (Hins _ Hi); unfold EventProcessor.loop_head; simpl;
        destruct b; simpl; lia.
    + unfold EventProcessor.queue_task_done, Queue.task_done in Hstep.
      simpl in Hstep.
      destruct (n <=? 0)%Z eqn:Hn; [lia |].
      destruct (n - 1 =? 0)%Z eqn:Hn1; simpl in Hstep;
        inversion Hstep; subst; clear Hstep; simpl;
        rewrite (Hins _ Hi); unfold EventProcessor.loop_head; simpl;
        destruct b; simpl; lia.
    + inversion Hstep; subst; clear Hstep. simpl.
      rewrite (Hins _ Hi). unfold EventProcessor.loop_head. simpl.
      destruct b; simpl; lia.
Qed.

Lemma step_accounted lost a s s' :
  (0 ≤ lost)%Z → step a s = Some s' → accounted lost s → accounted lost s'.
Proof.
  intros Hlost Hstep Hacc.
  destruct a as [events | | | | i | |]; simpl in Hstep.
  - (* publish *)
    rewrite publish_eval in Hstep. inversion Hstep; subst; clear Hstep.
    destruct Hacc as [Hsum Hcover].
    split; simpl; [lia |]. rewrite length_app. lia.
  - (* start *)
    inversion Hstep; subst; clear Hstep. unfold EventProcessor.start.
    destruct (_running (proc s)); [done |].
    destruct Hacc as [Hsum Hcover]. split; simpl; [done |].
    rewrite in_flight_app. simpl. lia.
  - (* stop, up to its suspension *)
    inversion Hstep; subst; clear Hstep. unfold EventProcessor.stop.
    simpl. destruct (consumer_task (proc s)) as [i|] eqn:Hct; [| done].
    destruct (Queue.joined (queue (proc s))).
    + unfold EventProcessor.cancel_consumer_task. simpl. rewrite Hct.
      destruct Hacc as [Hsum Hcover]. split; simpl; [done |].
      pose proof (in_flight_cancel (tasks s) i). lia.
    + done.
  - (* stop, released from join *)
    unfold EventProcessor.stop_resume in Hstep.
    destruct (stops_resuming s) as [| n]; [done |].
    inversion Hstep; subst; clear Hstep.
    by apply (cancel_accounted lost s) in Hacc.
  - (* a consumer task *)
    unfold EventProcessor.task_run in Hstep.
    destruct (tasks s !! i) as [t|] eqn:Hi; [| done].
    destruct (EventProcessor.consumer_loop_step t s) as [[t' s1]|] eqn:Hs;
      [| done].
    inversion Hstep; subst; clear Hstep.
    by eapply consumer_loop_step_accounted.
  - (* the ledger's owner: initialize *)
    unfold lift_world in Hstep.
    destruct (DedupStore.initialize (world s)) as [r0 w'].
    by inversion Hstep; subst.
  - (* the ledger's owner: close *)
    unfold lift_world in Hstep.
    destruct (DedupStore.close (world s)) as [r0 w'].
    by inversion Hstep; subst.
Qed.

Lemma run_accounted lost acts s s' :
  (0 ≤ lost)%Z → run acts s = Some s' → accounted lost s → accounted lost s'.
Proof.
  intros Hlost. revert s.
  induction acts as [| a acts IH]; intros s Hrun Hok; simpl in Hrun.
  - by inversion Hrun; subst.
  - destruct (step a s) as [s1|] eqn:Hstep; [| done].
    eapply IH; [exact Hrun |]. by eapply step_accounted.
Qed.

(** *** One consumer task: the exact accounting *)

Lemma step_tasks_length a s s' :
  step a s = Some s' → (length (tasks s) ≤ length (tasks s'))%nat.
Proof.
  intros Hstep.
  destruct a as [events | | | | i | |]; simpl in Hstep.
  - rewrite publish_eval in Hstep. by inversion Hstep; subst.
  - inversion Hstep; subst. unfold EventProcessor.start.
    destruct (_running (proc s)); simpl; rewrite ?length_app; simpl; lia.
  - inversion Hstep; subst. unfold EventProcessor.stop. simpl.
    destruct (consumer_task (proc s)) as [i|] eqn:Hct; [| done].
    destruct (Queue.joined (queue (proc s))); [| done].
    unfold EventProcessor.cancel_consumer_task. simpl. rewrite Hct. simpl.
    by rewrite length_insert.
  - unfold EventProcessor.stop_resume in Hstep.
    destruct (stops_resuming s) as [| n]; [done |].
    inversion Hstep; subst. unfold EventProcessor.cancel_consumer_task.
    destruct (consumer_task (proc s)); simpl; [| done].
    by rewrite length_insert.
  - unfold EventProcessor.task_run in Hstep.
    destruct (tasks s !! i) as [t|] eqn:Hi; [| done].
    destruct (EventProcessor.consumer_loop_step t s) as [[t' s1]|] eqn:Hs;
      [| done].
    inversion Hstep; subst; clear Hstep. simpl. rewrite length_insert.
    destruct t as [| | ev |]; simpl in Hs; [| | | done].
    + by inversion Hs; subst.
    + destruct (Queue.get (queue (proc s))) as [[e q]|];
        by inversion Hs; subst.
    + destruct (try_except _ _ s) as [r0 s2] eqn:Hbody.
      inversion Hs; subst; clear Hs.
      unfold try_except, mbind, M_bind, bind in Hbody.
      rewrite process_event_eval in Hbody.
      destruct (DedupStore.mark_processed _ _ _ (world s)) as [[[|]|x] w'];
        simpl in Hbody.
      * unfold EventProcessor.queue_task_done in Hbody. simpl in Hbody.
        destruct (Queue.task_done _) as [[q k]|z];
          by inversion Hbody; subst.
      * unfold EventProcessor.queue_task_done in Hbody. simpl in Hbody.
        destruct (Queue.task_done _) as [[q k]|z];
          by inversion Hbody; subst.
      * by inversion Hbody; subst.
  - unfold lift_world in Hstep.
    destruct (DedupStore.initialize (world s)) as [r0 w'].
    by inversion Hstep; subst.
  - unfold lift_world in Hstep.
    destruct (DedupStore.close (world s)) as [r0 w'].
    by inversion Hstep; subst.
Qed.

Lemma run_tasks_length acts s s' :
  run acts s = Some s' → (length (tasks s) ≤ length (tasks s'))%nat.
Proof.
  revert s. induction acts as [| a acts IH]; intros s Hrun; simpl in Hrun.
  - by inversion Hrun; subst.
  - destruct (step a s) as [s1|] eqn:Hstep; [| done].
    pose proof (step_tasks_length a s s1 Hstep).
    specialize (IH s1 Hrun). lia.
Qed.

Lemma single_accounted_new w : single_accounted (new_system w).
Proof.
  unfold single_accounted, failed. simpl.
  split_and!; [done | done | done | lia | lia].
Qed.

Lemma in_flight_finished l : Forall (eq Finished) l → in_flight l = 0%Z.
Proof. induction 1 as [| t l <- _ IH]; simpl; [done | lia]. Qed.

Lemma in_flight_zero_cancel l i :
  in_flight l = 0%Z → in_flight (<[i := Finished]> l) = 0%Z.
Proof.
  intros H0. pose proof (in_flight_cancel l i).
  pose proof (in_flight_nonneg (<[i := Finished]> l)). lia.
Qed.

Lemma insert_nonempty {A} (l : list A) i x : l ≠ [] → <[i := x]> l ≠ [].
Proof.
  intros Hl Hnil. apply (f_equal length) in Hnil.
  rewrite length_insert in Hnil. by destruct l.
Qed.

Lemma cancel_stops_resuming s :
  stops_resuming (EventProcessor.cancel_consumer_task s) = stops_resuming s.
Proof.
  unfold EventProcessor.cancel_consumer_task.
  by destruct (consumer_task (proc s)).
Qed.

Lemma cancel_single_accounted s :
  in_flight (tasks s) = 0%Z →
  single_accounted s →
  single_accounted (EventProcessor.cancel_consumer_task s).
Proof.
  intros H0 (Hsum & Hex & Hct & Hk & Hm).
  unfold EventProcessor.cancel_consumer_task.
  destruct (consumer_task (proc s)) as [i|] eqn:Hi; [| done].
  unfold single_accounted, failed in *. simpl.
  rewrite (in_flight_zero_cancel _ i H0), <- H0.
  split_and!; [done | done | | |].
  - intros _. by apply insert_nonempty, Hct.
  - intros Hw. destruct (Hk Hw) as [? ?].
    split; [done | by apply insert_nonempty].
  - intros Hsr. by apply Forall_insert; [apply Hm |].
Qed.

(** One run of the only consumer task keeps the accounting. *)
Lemma task_run_single_accounted s s' t :
  tasks s = [t] →
  EventProcessor.task_run 0 s = Some s' →
  single_accounted s → single_accounted s'.
Proof.
  intros Ht Hstep (Hsum & Hex & Hct & Hk & Hm).
  unfold EventProcessor.task_run in Hstep. rewrite Ht in Hstep.
  cbn [lookup list_lookup] in Hstep.
  destruct s as [w [[its n wt] l [r u dd] ct b] ts sr el].
  unfold single_accounted, failed in *.
  simpl in Ht, Hsum, Hex, Hct, Hk, Hm. subst ts.
  unfold EventProcessor.consumer_loop_step, EventProcessor.loop_head
    in Hstep.
  destruct t as [| | ev |]; simpl in Hstep, Hex; [| | | done].
  - (* first run *)
    inversion Hstep; subst; clear Hstep. simpl.
    split_and!; [done | destruct b; simpl; lia | done | |].
    + intros Hw. by destruct (Hk Hw).
    + intros Hsr. specialize (Hm Hsr). by inversion Hm.
  - (* waiting for an event *)
    destruct its as [| e its']; simpl in Hstep;
      inversion Hstep; subst; clear Hstep; simpl.
    + split_and!; [done | destruct b; simpl in *; lia | done | |].
      * intros Hw. by destruct (Hk Hw).
      * intros Hsr. specialize (Hm Hsr). by inversion Hm.
    + split_and!; [done | simpl in *; lia | done | |].
      * intros Hw. by destruct (Hk Hw).
      * intros Hsr. specialize (Hm Hsr). by inversion Hm.
  - (* processing the event in hand *)
    assert (Hsr0 : sr = 0%nat).
    { destruct sr as [| k]; [done |].
      assert (Hf : Forall (eq Finished) [Processing ev]) by (apply Hm; lia).
      by inversion Hf. }
    subst sr.
    unfold try_except, mbind, M_bind, bind in Hstep.
    rewrite process_event_eval in Hstep. simpl in Hstep.
    assert (Hn : (n <=? 0)%Z = false) by lia.
    destruct (DedupStore.mark_processed _ _ _ w) as [[[|]|x] w'];
      simpl in Hstep.
    + unfold EventProcessor.queue_task_done, Queue.task_done in Hstep.
      simpl in Hstep. rewrite Hn in Hstep.
      destruct (n - 1 =? 0)%Z eqn:Hn1; simpl in Hstep;
        inversion Hstep; subst; clear Hstep; simpl.
      * apply Z.eqb_eq in Hn1.
        split_and!; [lia | destruct b; simpl; lia | done | |].
        -- intros [Hw | Hw]; [lia |].
           destruct (Hk ltac:(lia)) as [? ?]. by split.
        -- intros Hw. destruct (Hk ltac:(lia)) as [-> _].
           by repeat constructor.
      * split_and!; [lia | destruct b; simpl; lia | done | |].
        -- intros Hw. destruct (Hk ltac:(lia)) as [? ?]. by split.
        -- lia.
    + unfold EventProcessor.queue_task_done, Queue.task_done in Hstep.
      simpl in Hstep. rewrite Hn in Hstep.
      destruct (n - 1 =? 0)%Z eqn:Hn1; simpl in Hstep;
        inversion Hstep; subst; clear Hstep; simpl.
      * apply Z.eqb_eq in Hn1.
        split_and!; [lia | destruct b; simpl; lia | done | |].
        -- intros [Hw | Hw]; [lia |].
           destruct (Hk ltac:(lia)) as [? ?]. by split.
        -- intros Hw. destruct (Hk ltac:(lia)) as [-> _].
           by repeat constructor.
      * split_and!; [lia | destruct b; simpl; lia | done | |].
        -- intros Hw. destruct (Hk ltac:(lia)) as [? ?]. by split.
        -- lia.
    + inversion Hstep; subst; clear Hstep. simpl.
      rewrite length_app. simpl.
      split_and!; [done | destruct b; simpl; lia | done | |].
      * intros Hw. destruct (Hk Hw) as [? ?]. by split.
      * lia.
Qed.

Lemma step_single_accounted a s s' :
  step a s = Some s' →
  (length (tasks s') ≤ 1)%nat →
  single_accounted s → single_accounted s'.
Proof.
  intros Hstep Hlen Hinv.
  pose proof (step_tasks_length a s s' Hstep) as Hmono.
  destruct a as [events | | | | i | |]; simpl in Hstep.
  - (* publish *)
    rewrite publish_eval in Hstep. inversion Hstep; subst; clear Hstep.
    destruct Hinv as (Hsum & Hex & Hct & Hk & Hm).
    unfold single_accounted, failed in *. simpl.
    rewrite length_app. split_and!; [lia | lia | done | done | done].
  - (* start *)
    inversion Hstep; subst; clear Hstep.
    unfold EventProcessor.start in *.
    destruct (_running (proc s)) eqn:Hb; [done |].
    simpl in Hlen. rewrite length_app in Hlen. simpl in Hlen.
    assert (Hnil : tasks s = []) by (destruct (tasks s); [done | simpl in Hlen; lia]).
    destruct Hinv as (Hsum & Hex & Hct & Hk & Hm).
    unfold single_accounted, failed in *. simpl.
    rewrite Hnil in *. simpl.
    split_and!; [done | done | done | |].
    + intros Hw. by destruct (Hk Hw).
    + intros Hsr. by destruct (Hk ltac:(right; done)).
  - (* stop, up to its suspension *)
    inversion Hstep; subst; clear Hstep.
    unfold EventProcessor.stop. simpl.
    destruct (consumer_task (proc s)) as [i|] eqn:Hi.
    + destruct (Queue.joined (queue (proc s))) eqn:Hj.
      * apply cancel_single_accounted.
        -- destruct Hinv as (Hsum & Hex & _). simpl.
           unfold Queue.joined in Hj. apply Z.eqb_eq in Hj.
           unfold failed in Hex.
           pose proof (in_flight_nonneg (tasks s)). lia.
        -- destruct Hinv as (Hsum & Hex & Hct & Hk & Hm).
           unfold single_accounted, failed in *. simpl.
           split_and!; [done | done | done | | done].
           intros Hw. split; [done |]. apply Hct. by rewrite Hi.
      * destruct Hinv as (Hsum & Hex & Hct & Hk & Hm).
        unfold single_accounted, failed in *. simpl.
        split_and!; [done | done | done | | done].
        intros Hw. split; [done |]. apply Hct. by rewrite Hi.
    + destruct Hinv as (Hsum & Hex & Hct & Hk & Hm).
      unfold single_accounted, failed in *. simpl. rewrite Hi.
      split_and!; [done | done | done | | done].
      intros Hw. by destruct (Hk Hw).
  - (* stop, released from join *)
    unfold EventProcessor.stop_resume in Hstep.
    destruct (stops_resuming s) as [| k] eqn:Hsr; [done |].
    inversion Hstep; subst; clear Hstep.
    assert (Hfin : Forall (eq Finished) (tasks s)).
    { destruct Hinv as (_ & _ & _ & _ & Hm). apply Hm. lia. }
    pose proof (cancel_single_accounted s (in_flight_finished _ Hfin) Hinv)
      as (Hsum & Hex & Hct & Hk & Hm).
    unfold single_accounted, failed in *. simpl in *.
    split_and!; [done | done | done | |].
    + intros Hw. apply Hk. rewrite cancel_stops_resuming, Hsr.
      destruct Hw; [by left | right; lia].
    + intros _. apply Hm. rewrite cancel_stops_resuming, Hsr. lia.
  - (* a consumer task *)
    destruct (tasks s) as [| t [| t2 ts]] eqn:Hts.
    + unfold EventProcessor.task_run in Hstep. by rewrite Hts in Hstep.
    + destruct i as [| i].
      * by eapply task_run_single_accounted.
      * unfold EventProcessor.task_run in Hstep. by rewrite Hts in Hstep.
    + simpl in Hmono. lia.
  - (* the ledger's owner: initialize *)
    unfold lift_world in Hstep.
    destruct (DedupStore.initialize (world s)) as [r0 w'].
    by inversion Hstep; subst.
  - (* the ledger's owner: close *)
    unfold lift_world in Hstep.
    destruct (DedupStore.close (world s)) as [r0 w'].
    by inversion Hstep; subst.
Qed.

Lemma run_single_accounted acts s s' :
  run acts s = Some s' →
  (length (tasks s') ≤ 1)%nat →
  single_accounted s → single_accounted s'.
Proof.
  revert s. induction acts as [| a acts IH]; intros s Hrun Hlen Hinv;
    simpl in Hrun.
  - by inversion Hrun; subst.
  - destruct (step a s) as [s1|] eqn:Hstep; [| done].
    apply (IH s1 Hrun Hlen).
    apply (step_single_accounted a s s1 Hstep); [| done].
    pose proof (run_tasks_length acts s1 s' Hrun). lia.
Qed.

(** C4, as the code has it.  At every point of every schedule of a
    pipeline (publish calls, runs of consumer tasks, start, stop, and
    the ledger being initialized or closed under it)
    [received >= unique_processed + duplicate_dropped], and the two
    sides are equal wherever [queue.join()] would return.  With one
    consumer task, [received] is at every point the sum of the two
    counters, the events whose processing raised, the events queued and
    the event in the consumer's hands: once the queue is empty and the
    consumer holds no event, [received = unique_processed +
    duplicate_dropped] exactly when no processing has raised. *)
Theorem stats_additivity w acts s :
  run acts (new_system w) = Some s →
  (received (EventProcessor.get_stats s) >=
     unique_processed (EventProcessor.get_stats s)
     + duplicate_dropped (EventProcessor.get_stats s))%Z ∧
  (Queue.joined (queue (proc s)) = true →
   (received (EventProcessor.get_stats s) =
      unique_processed (EventProcessor.get_stats s)
      + duplicate_dropped (EventProcessor.get_stats s))%Z) ∧
  ((length (tasks s) ≤ 1)%nat →
   (received (EventProcessor.get_stats s) =
      unique_processed (EventProcessor.get_stats s)
      + duplicate_dropped (EventProcessor.get_stats s)
      + failed s
      + Z.of_nat (length (Queue.items (queue (proc s))))
      + in_flight (tasks s))%Z ∧
   (Queue.items (queue (proc s)) = [] →
    in_flight (tasks s) = 0%Z →
    ((received (EventProcessor.get_stats s) =
        unique_processed (EventProcessor.get_stats s)
        + duplicate_dropped (EventProcessor.get_stats s))%Z
     ↔ error_log s = []))).
Proof.
  intros Hrun.
  destruct (run_accounted 0 acts _ s ltac:(lia) Hrun (accounted_new w))
    as [Hsum Hcover].
  unfold EventProcessor.get_stats, Queue.joined.
  pose proof (in_flight_nonneg (tasks s)).
  split_and!; [lia | intros Hj; apply Z.eqb_eq in Hj; lia |].
  intros Hlen.
  destruct (run_single_accounted acts _ s Hrun Hlen (single_accounted_new w))
    as (_ & Hex & _).
  unfold failed in *. split; [lia |].
  intros Hits Hfl. rewrite Hits in Hex. simpl in Hex. split.
  - intros Heq. destruct (error_log s); [done | simpl in Hex; lia].
  - intros Hel. rewrite Hel in Hex. simpl in Hex. lia.
Qed.

Lemma stats_additivity_witness :
  ∃ s,
    run (publish_and_consume five_events 11) (new_system ledger_example)
      = Some s ∧
    (received (EventProcessor.get_stats s) =
       unique_processed (EventProcessor.get_stats s)
       + duplicate_dropped (EventProcessor.get_stats s))%Z ∧
    (received (EventProcessor.get_stats reopened_state) =
       unique_processed (EventProcessor.get_stats reopened_state)
       + duplicate_dropped (EventProcessor.get_stats reopened_state)
       + 1)%Z.
Proof.
  eexists. split; [vm_compute; reflexivity |]. split.
  - apply (stats_additivity ledger_example
             (publish_and_consume five_events 11)).
    + vm_compute. reflexivity.
    + vm_compute. lia.
    + reflexivity.
    + reflexivity.
    + reflexivity.
  - pose proof (stats_additivity ledger_example reopened_schedule
                  reopened_state ltac:(vm_compute; reflexivity)) as H.
    destruct H as (_ & _ & H).
    destruct (H ltac:(vm_compute; lia)) as [Hex _].
    exact Hex.
Defined.

(** C4 as stated fails where the processing of an event raised.  The
    ledger is closed under a running pipeline, one event is published
    and its processing raises; the ledger is initialized again and five
    more events are published and processed.  The queue is empty, the
    consumer waits for the next event, nothing is left to do, and
    [received] is 6 against 3 + 2. *)
Lemma stats_additivity_counterexample :
  run reopened_schedule (new_system ledger_example) = Some reopened_state ∧
  Queue.items (queue (proc reopened_state)) = [] ∧
  tasks reopened_state = [Waiting] ∧
  error_log reopened_state = [aiosqlite.closed_error] ∧
  EventProcessor.get_stats reopened_state = mkStats 6 3 2 ∧
  (received (EventProcessor.get_stats reopened_state) ≠
     unique_processed (EventProcessor.get_stats reopened_state)
     + duplicate_dropped (EventProcessor.get_stats reopened_state))%Z.
Proof.
  split_and!; [vm_compute; reflexivity .. | vm_compute; discriminate].
Qed.

(** *** One consumer task on an initialized ledger *)

(** The task takes the next event off the queue. *)
Lemma consumer_take w e rest n wt log sts ct b sr el :
  EventProcessor.task_run 0
    (mkSystem w
       (mkEventProcessor (Queue.mk (e :: rest) n wt) log sts ct b)
       [Waiting] sr el) =
  Some (mkSystem w
          (mkEventProcessor (Queue.mk rest n wt) log sts ct b)
          [Processing e] sr el).
Proof. reflexivity. Qed.

(** The task processes the event it holds; more than one task is
    unfinished, so that no [join()] is released. *)
Lemma consumer_process d p rows e its n wt log r u dd ct sr el :
  d !! p = Some rows →
  (1 < n)%Z →
  EventProcessor.task_run 0
    (mkSystem
       (mkWorld d (mkDedupStore p (Some (aiosqlite.connect p))))
       (mkEventProcessor (Queue.mk its n wt) log (mkStats r u dd) ct true)
       [Processing e] sr el) =
  Some
    (if has_key (Event.topic e) (Event.event_id e) rows then
       mkSystem
         (mkWorld d (mkDedupStore p (Some (aiosqlite.connect p))))
         (mkEventProcessor (Queue.mk its (n - 1) wt) log
            (mkStats r u (dd + 1)) ct true)
         [Waiting] (sr + 0) el
     else
       mkSystem
         (mkWorld
            (<[p := rows ++ [mkRow (Event.topic e) (Event.event_id e)
                               (isoformat (Event.timestamp e))]]> d)
            (mkDedupStore p (Some (aiosqlite.connect p))))
         (mkEventProcessor (Queue.mk its (n - 1) wt) (log ++ [e])
            (mkStats r (u + 1) dd) ct true)
         [Waiting] (sr + 0) el).
Proof.
  intros Hd Hn.
  assert (Hz : (n <=? 0)%Z = false) by lia.
  assert (Hz1 : (n - 1 =? 0)%Z = false) by lia.
  unfold EventProcessor.task_run. cbn [tasks lookup list_lookup].
  unfold EventProcessor.consumer_loop_step.
  unfold try_except, mbind, M_bind, bind.
  rewrite process_event_eval. cbn [world proc].
  rewrite (mark_processed_eval d p rows _ _ _ Hd).
  destruct (has_key _ _ rows).
  - unfold EventProcessor.queue_task_done, Queue.task_done. simpl.
    rewrite Hz, Hz1. reflexivity.
  - unfold EventProcessor.queue_task_done, Queue.task_done. simpl.
    rewrite Hz, Hz1. reflexivity.
Qed.

(** The same for the last unfinished task: the callers suspended in
    [join()] are released. *)
Lemma consumer_process_last d p rows e its wt log r u dd ct sr el :
  d !! p = Some rows →
  EventProcessor.task_run 0
    (mkSystem
       (mkWorld d (mkDedupStore p (Some (aiosqlite.connect p))))
       (mkEventProcessor (Queue.mk its 1 wt) log (mkStats r u dd) ct true)
       [Processing e] sr el) =
  Some
    (if has_key (Event.topic e) (Event.event_id e) rows then
       mkSystem
         (mkWorld d (mkDedupStore p (Some (aiosqlite.connect p))))
         (mkEventProcessor (Queue.mk its 0 0) log
            (mkStats r u (dd + 1)) ct true)
         [Waiting] (sr + wt) el
     else
       mkSystem
         (mkWorld
            (<[p := rows ++ [mkRow (Event.topic e) (Event.event_id e)
                               (isoformat (Event.timestamp e))]]> d)
            (mkDedupStore p (Some (aiosqlite.connect p))))
         (mkEventProcessor (Queue.mk its 0 0) (log ++ [e])
            (mkStats r (u + 1) dd) ct true)
         [Waiting] (sr + wt) el).
Proof.
  intros Hd.
  unfold EventProcessor.task_run. cbn [tasks lookup list_lookup].
  unfold EventProcessor.consumer_loop_step.
  unfold try_except, mbind, M_bind, bind.
  rewrite process_event_eval. cbn [world proc].
  rewrite (mark_processed_eval d p rows _ _ _ Hd).
  destruct (has_key _ _ rows); reflexivity.
Qed.

(** One event through the consumer: two runs of the task, the first takes
    the event, the second processes it. *)
Lemma consume_one d p rows e rest n wt log r u dd ct sr el acts :
  d !! p = Some rows →
  (1 < n)%Z →
  run (TaskRun 0 :: TaskRun 0 :: acts)
    (mkSystem
       (mkWorld d (mkDedupStore p (Some (aiosqlite.connect p))))
       (mkEventProcessor (Queue.mk (e :: rest) n wt) log (mkStats r u dd)
          ct true)
       [Waiting] sr el) =
  if has_key (Event.topic e) (Event.event_id e) rows then
    run acts
      (mkSystem
         (mkWorld d (mkDedupStore p (Some (aiosqlite.connect p))))
         (mkEventProcessor (Queue.mk rest (n - 1) wt) log
            (mkStats r u (dd + 1)) ct true)
         [Waiting] sr el)
  else
    run acts
      (mkSystem
         (mkWorld
            (<[p := rows ++ [mkRow (Event.topic e) (Event.event_id e)
                               (isoformat (Event.timestamp e))]]> d)
            (mkDedupStore p (Some (aiosqlite.connect p))))
         (mkEventProcessor (Queue.mk rest (n - 1) wt) (log ++ [e])
            (mkStats r (u + 1) dd) ct true)
         [Waiting] sr el).
Proof.
  intros Hd Hn.
  change (run (TaskRun 0 :: TaskRun 0 :: acts) ?s) with
    (match EventProcessor.task_run 0 s with
     | Some s1 =>
         match EventProcessor.task_run 0 s1 with
         | Some s2 => run acts s2
         | None => None
         end
     | None => None
     end).
  rewrite consumer_take.
  rewrite (consumer_process d p rows _ _ _ _ _ _ _ _ _ _ _ Hd Hn).
  rewrite Nat.add_0_r. by destruct (has_key _ _ rows).
Qed.

Lemma consume_last d p rows e rest wt log r u dd ct sr el acts :
  d !! p = Some rows →
  run (TaskRun 0 :: TaskRun 0 :: acts)
    (mkSystem
       (mkWorld d (mkDedupStore p (Some (aiosqlite.connect p))))
       (mkEventProcessor (Queue.mk (e :: rest) 1 wt) log (mkStats r u dd)
          ct true)
       [Waiting] sr el) =
  if has_key (Event.topic e) (Event.event_id e) rows then
    run acts
      (mkSystem
         (mkWorld d (mkDedupStore p (Some (aiosqlite.connect p))))
         (mkEventProcessor (Queue.mk rest 0 0) log
            (mkStats r u (dd + 1)) ct true)
         [Waiting] (sr + wt) el)
  else
    run acts
      (mkSystem
         (mkWorld
            (<[p := rows ++ [mkRow (Event.topic e) (Event.event_id e)
                               (isoformat (Event.timestamp e))]]> d)
            (mkDedupStore p (Some (aiosqlite.connect p))))
         (mkEventProcessor (Queue.mk rest 0 0) (log ++ [e])
            (mkStats r (u + 1) dd) ct true)
         [Waiting] (sr + wt) el).
Proof.
  intros Hd.
  change (run (TaskRun 0 :: TaskRun 0 :: acts) ?s) with
    (match EventProcessor.task_run 0 s with
     | Some s1 =>
         match EventProcessor.task_run 0 s1 with
         | Some s2 => run acts s2
         | None => None
         end
     | None => None
     end).
  rewrite consumer_take.
  rewrite (consumer_process_last d p rows _ _ _ _ _ _ _ _ _ _ Hd).
  by destruct (has_key _ _ rows).
Qed.

(** With nothing queued the running consumer only times out. *)
Lemma consumer_idle w n wt log sts ct sr el k :
  run (repeat (TaskRun 0) k)
    (mkSystem w
       (mkEventProcessor (Queue.mk [] n wt) log sts ct true)
       [Waiting] sr el) =
  Some (mkSystem w
          (mkEventProcessor (Queue.mk [] n wt) log sts ct true)
          [Waiting] sr el).
Proof. induction k as [| k IH]; [reflexivity | exact IH]. Qed.

Lemma has_key_same_topic T id id' ts rows :
  has_key T id (mkRow T id' ts :: rows) =
  String.eqb id' id || has_key T id rows.
Proof.
  unfold has_key. simpl. unfold same_key. simpl.
  by rewrite String.eqb_refl.
Qed.

(** Start, one batch, and the first run of the consumer task. *)
Lemma started_pipeline w events acts :
  run (Start :: Publish events :: TaskRun 0 :: acts) (new_system w) =
  run acts
    (mkSystem w
       (mkEventProcessor
          (Queue.mk events (Z.of_nat (length events)) 0) []
          (mkStats (Z.of_nat (length events)) 0 0)
          (Some 0) true)
       [Waiting] 0 []).
Proof.
  cbn [run step]. unfold EventProcessor.start. simpl.
  rewrite publish_eval. reflexivity.
Qed.

Ltac consume_step :=
  first
    [ erewrite consume_one;
        [| first [eassumption | apply lookup_insert_eq] | simpl; lia]
    | erewrite consume_last;
        [| first [eassumption | apply lookup_insert_eq]] ];
  cbn [app create_test_event Event.topic Event.event_id Event.timestamp];
  rewrite ?has_key_same_topic;
  cbn [has_key existsb String.eqb Ascii.eqb Bool.eqb orb andb].

(** C5: a new pipeline over an initialized ledger with no records is
    started and the five events with ids 1, 2, 1, 3, 2 of one topic are
    published; once the consumer task has run eleven times (and however
    often after that) every event is done, the counters are
    received = 5, unique_processed = 3, duplicate_dropped = 2, and the
    processed log holds the first event of each of the ids 1, 2, 3, in
    that order. *)
Theorem five_events_scenario w T now1 now2 now3 now4 now5 k :
  Initialized w →
  records w = [] →
  ∃ s,
    run (publish_and_consume
           [create_test_event T "1" now1; create_test_event T "2" now2;
            create_test_event T "1" now3; create_test_event T "3" now4;
            create_test_event T "2" now5] (11 + k))
        (new_system w) = Some s ∧
    EventProcessor.get_stats s = mkStats 5 3 2 ∧
    processed_events (proc s) =
      [create_test_event T "1" now1; create_test_event T "2" now2;
       create_test_event T "3" now4] ∧
    map Event.event_id (processed_events (proc s)) = ["1"; "2"; "3"] ∧
    Queue.items (queue (proc s)) = [] ∧
    Queue.joined (queue (proc s)) = true ∧
    error_log s = [].
Proof.
  intros Hi Hrec.
  destruct (initialized_inv w Hi) as (d & p & rows & -> & Hd).
  unfold records in Hrec. simpl in Hrec. rewrite Hd in Hrec.
  simpl in Hrec. subst rows.
  unfold publish_and_consume.
  change (repeat (TaskRun 0) (11 + k)) with
    (TaskRun 0 :: repeat (TaskRun 0) 10 ++ repeat (TaskRun 0) k).
  rewrite started_pipeline.
  cbn [repeat app length Z.of_nat Pos.of_succ_nat Pos.succ].
  do 5 consume_step.
  rewrite consumer_idle. eexists. split; [reflexivity |].
  split_and!; reflexivity.
Qed.

Lemma five_events_scenario_witness :
  ∃ s,
    run (publish_and_consume five_events 11) (new_system ledger_example)
      = Some s ∧
    EventProcessor.get_stats s = mkStats 5 3 2 ∧
    processed_events (proc s) =
      [create_test_event "T" "1" example_now;
       create_test_event "T" "2" example_now;
       create_test_event "T" "3" example_now] ∧
    map Event.event_id (processed_events (proc s)) = ["1"; "2"; "3"] ∧
    Queue.items (queue (proc s)) = [] ∧
    Queue.joined (queue (proc s)) = true ∧
    error_log s = [].
Proof.
  apply (five_events_scenario ledger_example "T" example_now example_now
           example_now example_now example_now 0).
  - split; [reflexivity | by eexists].
  - reflexivity.
Defined.

(** *** A processing error *)

(** When [_process_event] raises, the consumer task logs the exception
    and goes back to the top of its loop without [task_done()]: the event
    has left the queue, the counters and the unfinished-task count stay. *)
Lemma task_run_error i s e x w' :
  tasks s !! i = Some (Processing e) →
  DedupStore.mark_processed (Event.topic e) (Event.event_id e)
    (isoformat (Event.timestamp e)) (world s) = (Raise x, w') →
  EventProcessor.task_run i s =
  Some {| world := w';
          proc := proc s;
          tasks := <[i := if _running (proc s) then Waiting else Finished]>
                     (tasks s);
          stops_resuming := stops_resuming s;
          error_log := error_log s ++ [x] |}.
Proof.
  intros Ht Hm. unfold EventProcessor.task_run. rewrite Ht.
  unfold EventProcessor.consumer_loop_step.
  unfold try_except, mbind, M_bind, bind.
  rewrite process_event_eval, Hm. reflexivity.
Qed.

Lemma consumer_loop_step_stuck i t s t' s' :
  tasks s !! i = Some t →
  EventProcessor.consumer_loop_step t s = Some (t', s') →
  stuck s →
  stops_resuming s' = 0.
Proof.
  intros Hi Hstep [[Hsum Hcover] Hsr].
  pose proof (in_flight_lookup _ _ _ Hi) as Hle.
  destruct s as [w [[its n wt] l [r u dd] ct b] ts sr el].
  simpl in Hsum, Hcover, Hi, Hle, Hsr. subst sr.
  destruct t as [| | ev |]; simpl in Hstep; [| | | done].
  - by inversion Hstep; subst.
  - destruct its as [| e its']; simpl in Hstep; by inversion Hstep; subst.
  - unfold try_except, mbind, M_bind, bind in Hstep.
    rewrite process_event_eval in Hstep. simpl in Hstep, Hle.
    assert (Hn : (n <=? 0)%Z = false) by lia.
    assert (Hn1 : (n - 1 =? 0)%Z = false) by lia.
    destruct (DedupStore.mark_processed _ _ _ w) as [[[|]|x] w'];
      simpl in Hstep.
    + unfold EventProcessor.queue_task_done, Queue.task_done in Hstep.
      simpl in Hstep. rewrite Hn, Hn1 in Hstep. simpl in Hstep.
      by inversion Hstep; subst.
    + unfold EventProcessor.queue_task_done, Queue.task_done in Hstep.
      simpl in Hstep. rewrite Hn, Hn1 in Hstep. simpl in Hstep.
      by inversion Hstep; subst.
    + by inversion Hstep; subst.
Qed.

Lemma step_stuck a s s' : step a s = Some s' → stuck s → stuck s'.
Proof.
  intros Hstep Hst.
  split; [exact (step_accounted 1 a s s' ltac:(lia) Hstep (proj1 Hst)) |].
  destruct Hst as [Hacc Hsr].
  destruct a as [events | | | | i | |]; simpl in Hstep.
  - rewrite publish_eval in Hstep. by inversion Hstep; subst.
  - inversion Hstep; subst. unfold EventProcessor.start.
    by destruct (_running (proc s)).
  - inversion Hstep; subst. unfold EventProcessor.stop. simpl.
    destruct (consumer_task (proc s)) as [i|] eqn:Hct; [| done].
    destruct (Queue.joined (queue (proc s))); [| done].
    unfold EventProcessor.cancel_consumer_task. simpl. by rewrite Hct.
  - unfold EventProcessor.stop_resume in Hstep. by rewrite Hsr in Hstep.
  - unfold EventProcessor.task_run in Hstep.
    destruct (tasks s !! i) as [t|] eqn:Hi; [| done].
    destruct (EventProcessor.consumer_loop_step t s) as [[t' s1]|] eqn:Hs;
      [| done].
    inversion Hstep; subst; clear Hstep. simpl.
    by eapply consumer_loop_step_stuck.
  - unfold lift_world in Hstep.
    destruct (DedupStore.initialize (world s)) as [r0 w'].
    by inversion Hstep; subst.
  - unfold lift_world in Hstep.
    destruct (DedupStore.close (world s)) as [r0 w'].
    by inversion Hstep; subst.
Qed.

Lemma run_stuck acts s s' : run acts s = Some s' → stuck s → stuck s'.
Proof.
  revert s. induction acts as [| a acts IH]; intros s Hrun Hst;
    simpl in Hrun.
  - by inversion Hrun; subst.
  - destruct (step a s) as [s1|] eqn:Hstep; [| done].
    eapply IH; [exact Hrun |]. by eapply step_stuck.
Qed.

(** In a stuck pipeline [join()] does not return at once, and no
    suspended [stop()] call runs on. *)
Lemma stuck_blocks_stop s :
  stuck s →
  Queue.joined (queue (proc s)) = false ∧ step StopResume s = None.
Proof.
  intros [[_ Hcover] Hsr].
  pose proof (in_flight_nonneg (tasks s)).
  split.
  - unfold Queue.joined. apply Z.eqb_neq. lia.
  - simpl. unfold EventProcessor.stop_resume. by rewrite Hsr.
Qed.

(** After any schedule in which the processing of an event has raised
    while no [stop()] call had been released, one task stays unfinished
    for good: in no continuation does a [stop()] call get past
    [queue.join()]. *)
Lemma error_blocks_stop w acts s i e x w' s1 acts' s2 :
  run acts (new_system w) = Some s →
  stops_resuming s = 0 →
  tasks s !! i = Some (Processing e) →
  DedupStore.mark_processed (Event.topic e) (Event.event_id e)
    (isoformat (Event.timestamp e)) (world s) = (Raise x, w') →
  step (TaskRun i) s = Some s1 →
  run acts' s1 = Some s2 →
  Queue.joined (queue (proc s2)) = false ∧ step StopResume s2 = None.
Proof.
  intros Hrun Hsr Ht Hm Hs1 Hrun'.
  apply stuck_blocks_stop. eapply run_stuck; [exact Hrun' |].
  destruct (run_accounted 0 acts _ s ltac:(lia) Hrun (accounted_new w))
    as [Hsum Hcover].
  simpl in Hs1. rewrite (task_run_error i s e x w' Ht Hm) in Hs1.
  inversion Hs1; subst; clear Hs1.
  split; [| done]. split; simpl; [done |].
  rewrite (in_flight_insert _ _ _ _ Ht). simpl.
  destruct (_running (proc s)); simpl; lia.
Qed.

(** C7 fails on the code.  On [failing_state] the event has been taken
    off the queue, its processing raised the uninitialized-state error,
    the error is logged and the consumer waits for the next event, but
    [task_done()] was skipped: one task stays unfinished, and it stays so
    in every continuation, so that [queue.join()] never returns and no
    [stop()] call gets past it. *)
Theorem consumer_error_blocks_stop :
  run failing_schedule (new_system (fresh_ledger ∅ "data/dedup.db"))
    = Some failing_state ∧
  Queue.items (queue (proc failing_state)) = [] ∧
  tasks failing_state = [Waiting] ∧
  error_log failing_state = [DedupStore.not_initialized] ∧
  EventProcessor.get_stats failing_state = mkStats 1 0 0 ∧
  Queue.unfinished_tasks (queue (proc failing_state)) = 1%Z ∧
  ∀ acts s,
    run acts failing_state = Some s →
    Queue.joined (queue (proc s)) = false ∧
    step StopResume s = None.
Proof.
  split_and!; try reflexivity.
  intros acts s Hrun. apply stuck_blocks_stop.
  eapply run_stuck; [exact Hrun |].
  split; [split |]; vm_compute; done.
Qed.

(** [stop()] clears [_running] before it waits for the queue, so the
    consumer task leaves its loop after the event it was about to take:
    the second event stays queued with the task finished, and the
    [stop()] call is still suspended in [join()]. *)
Lemma stop_leaves_backlog :
  ∃ s,
    run backlog_schedule (new_system ledger_example) = Some s ∧
    tasks s = [Finished] ∧
    Queue.items (queue (proc s)) = [create_test_event "T" "2" example_now] ∧
    Queue.waiters (queue (proc s)) = 1 ∧
    EventProcessor.get_stats s = mkStats 2 1 0 ∧
    step (TaskRun 0) s = None ∧
    step StopResume s = None.
Proof. eexists. split; [vm_compute; reflexivity |]. by split_and!. Qed.

(** * Further properties of the ledger *)

(** ** Marking and looking up *)

Lemma has_key_snoc_other t e t' e' ts rows :
  (t', e') ≠ (t, e) →
  has_key t' e' (rows ++ [mkRow t e ts]) = has_key t' e' rows.
Proof.
  intros Hne. rewrite has_key_app. cbn [has_key existsb].
  rewrite orb_false_r, same_key_row.
  destruct ((t =? t')%string && (e =? e')%string) eqn:Hk;
    [| by rewrite orb_false_r].
  apply andb_true_iff in Hk as [Ht He].
  apply String.eqb_eq in Ht, He. by subst.
Qed.

(** After [mark_processed] for a pair, whatever it returned,
    [is_duplicate] for the pair is [true] and changes nothing; for every
    other pair [is_duplicate] answers as before the call. *)
Theorem mark_then_is_duplicate w t e ts t' e' :
  Initialized w →
  DedupStore.is_duplicate t e (snd (DedupStore.mark_processed t e ts w)) =
    (Ok true, snd (DedupStore.mark_processed t e ts w)) ∧
  ((t', e') ≠ (t, e) →
   fst (DedupStore.is_duplicate t' e'
          (snd (DedupStore.mark_processed t e ts w))) =
   fst (DedupStore.is_duplicate t' e' w)).
Proof.
  intros Hi. destruct (initialized_inv w Hi) as (d & p & rows & -> & Hd).
  rewrite (mark_processed_eval d p rows t e ts Hd).
  destruct (has_key t e rows) eqn:Hk; simpl.
  - rewrite !(is_duplicate_eval d p rows _ _ Hd). by rewrite Hk.
  - rewrite !(is_duplicate_eval _ p (rows ++ [mkRow t e ts]) _ _
                (lookup_insert_eq _ _ _)).
    rewrite (is_duplicate_eval d p rows _ _ Hd). simpl. split.
    + rewrite has_key_app. cbn [has_key existsb]. rewrite same_key_row.
      by rewrite !String.eqb_refl, orb_true_r.
    + intros Hne. by rewrite has_key_snoc_other.
Qed.

Lemma mark_then_is_duplicate_witness :
  DedupStore.is_duplicate "a" "1"
    (snd (DedupStore.mark_processed "a" "1" "t" ledger_example)) =
    (Ok true, snd (DedupStore.mark_processed "a" "1" "t" ledger_example)) ∧
  fst (DedupStore.is_duplicate "b" "1"
         (snd (DedupStore.mark_processed "a" "1" "t" ledger_example))) =
  fst (DedupStore.is_duplicate "b" "1" ledger_example).
Proof.
  destruct (mark_then_is_duplicate ledger_example "a" "1" "t" "b" "1")
    as [H1 H2]; [split; [reflexivity | by eexists] |].
  split; [exact H1 | apply H2; discriminate].
Defined.

(** What [mark_processed] returns for one pair does not depend on a
    preceding [mark_processed] for a different pair; in particular the
    same event id in two topics is accepted in both. *)
Theorem mark_processed_independent w t1 e1 ts1 t2 e2 ts2 :
  Initialized w →
  (t1, e1) ≠ (t2, e2) →
  fst (DedupStore.mark_processed t2 e2 ts2
         (snd (DedupStore.mark_processed t1 e1 ts1 w))) =
  fst (DedupStore.mark_processed t2 e2 ts2 w) ∧
  (has_key t1 e1 (records w) = false →
   has_key t2 e2 (records w) = false →
   fst (DedupStore.mark_processed t1 e1 ts1 w) = Ok true ∧
   fst (DedupStore.mark_processed t2 e2 ts2
          (snd (DedupStore.mark_processed t1 e1 ts1 w))) = Ok true).
Proof.
  intros Hi Hne. destruct (initialized_inv w Hi) as (d & p & rows & -> & Hd).
  unfold records. simpl. rewrite Hd. simpl.
  rewrite (mark_processed_eval d p rows t1 e1 ts1 Hd).
  rewrite (mark_processed_eval d p rows t2 e2 ts2 Hd).
  destruct (has_key t1 e1 rows) eqn:Hk1; simpl.
  - rewrite (mark_processed_eval d p rows t2 e2 ts2 Hd). done.
  - rewrite (mark_processed_eval _ p (rows ++ [mkRow t1 e1 ts1]) t2 e2 ts2
               (lookup_insert_eq _ _ _)).
    rewrite has_key_snoc_other by done.
    split; [by destruct (has_key t2 e2 rows) |].
    intros _ Hk2. by rewrite Hk2.
Qed.

Lemma mark_processed_independent_witness :
  fst (DedupStore.mark_processed "A" "x" "t" ledger_example) = Ok true ∧
  fst (DedupStore.mark_processed "B" "x" "t"
         (snd (DedupStore.mark_processed "A" "x" "t" ledger_example))) =
    Ok true.
Proof.
  destruct (mark_processed_independent ledger_example
              "A" "x" "t" "B" "x" "t") as [_ H];
    [split; [reflexivity | by eexists] | discriminate |].
  apply H; reflexivity.
Defined.

(** ** The topics of the ledger *)

Lemma string_lt_trans a b c : string_lt a b → string_lt b c → string_lt a c.
Proof.
  unfold string_lt. intros H1 H2.
  apply OrderedTypeEx.String_as_OT.cmp_lt.
  apply OrderedTypeEx.String_as_OT.cmp_lt in H1, H2.
  by eapply OrderedTypeEx.String_as_OT.lt_trans.
Qed.

Lemma string_compare_refl a : String.compare a a = Eq.
Proof. by apply OrderedTypeEx.String_as_OT.cmp_eq. Qed.

Lemma string_lt_irrefl a : ¬ string_lt a a.
Proof. unfold string_lt. rewrite string_compare_refl. discriminate. Qed.

Lemma string_compare_gt a b : String.compare a b = Gt → string_lt b a.
Proof.
  unfold string_lt. intros H. rewrite String.compare_antisym, H. done.
Qed.

Lemma insert_sorted_elem x t l :
  x ∈ DedupStore.insert_sorted t l ↔ x = t ∨ x ∈ l.
Proof.
  induction l as [| u l IH]; simpl; [set_solver |].
  destruct (String.compare t u) eqn:Hc.
  - apply String.compare_eq_iff in Hc. subst. set_solver.
  - set_solver.
  - rewrite elem_of_cons, IH. set_solver.
Qed.

Lemma insert_sorted_increasing t l :
  increasing l → increasing (DedupStore.insert_sorted t l).
Proof.
  unfold increasing. induction 1 as [| u l Hs IH Hall]; simpl.
  - repeat constructor.
  - destruct (String.compare t u) eqn:Hc.
    + by constructor.
    + constructor; [by constructor |].
      constructor; [done |].
      eapply Forall_impl; [exact Hall |]. intros x Hx.
      by eapply string_lt_trans.
    + constructor; [done |].
      apply Forall_forall. intros x Hx.
      apply insert_sorted_elem in Hx as [-> | Hx].
      * by apply string_compare_gt.
      * rewrite Forall_forall in Hall. by apply Hall.
Qed.

Lemma distinct_topics_increasing rows :
  increasing (DedupStore.distinct_topics rows).
Proof.
  unfold DedupStore.distinct_topics.
  induction (map row_topic rows) as [| t l IH]; simpl.
  - constructor.
  - by apply insert_sorted_increasing.
Qed.

Lemma distinct_topics_elem t rows :
  t ∈ DedupStore.distinct_topics rows ↔ ∃ r, r ∈ rows ∧ row_topic r = t.
Proof.
  unfold DedupStore.distinct_topics.
  induction rows as [| r rows IH]; simpl.
  - split; [by intros ?%elem_of_nil | by intros (r & ?%elem_of_nil & _)].
  - rewrite insert_sorted_elem, IH. split.
    + intros [-> | (r' & Hr' & <-)]; [exists r | exists r']; set_solver.
    + intros (r' & Hr' & <-). apply elem_of_cons in Hr' as [-> | Hr'].
      * by left.
      * right. by exists r'.
Qed.

(** [get_unique_topics] on an initialized ledger changes nothing and
    returns the topics in strictly increasing order, each once: a topic
    is in the list exactly when some record has it. *)
Theorem get_unique_topics_sorted w :
  Initialized w →
  ∃ topics,
    DedupStore.get_unique_topics w = (Ok topics, w) ∧
    increasing topics ∧
    ∀ t, t ∈ topics ↔ ∃ r, r ∈ records w ∧ row_topic r = t.
Proof.
  intros Hi. destruct (initialized_inv w Hi) as (d & p & rows & -> & Hd).
  exists (DedupStore.distinct_topics rows). split_and!.
  - unfold DedupStore.get_unique_topics, mbind, M_bind, bind. simpl.
    by rewrite (db_select_eval _ d p rows Hd).
  - apply distinct_topics_increasing.
  - intros t. unfold records. simpl. rewrite Hd. simpl.
    apply distinct_topics_elem.
Qed.

Lemma get_unique_topics_sorted_witness :
  ∃ topics,
    DedupStore.get_unique_topics ledger_three = (Ok topics, ledger_three) ∧
    increasing topics ∧
    ∀ t, t ∈ topics ↔ ∃ r, r ∈ records ledger_three ∧ row_topic r = t.
Proof.
  apply (get_unique_topics_sorted ledger_three).
  split; [reflexivity | by eexists].
Defined.

(** ** Counting *)

Lemma count_processed_eval d p rows topic :
  d !! p = Some rows →
  DedupStore.count_processed topic
    (mkWorld d (mkDedupStore p (Some (aiosqlite.connect p)))) =
  (Ok (match topic with
       | Some t => if String.eqb t "" then Z.of_nat (length rows)
                   else topic_count t rows
       | None => Z.of_nat (length rows)
       end),
   mkWorld d (mkDedupStore p (Some (aiosqlite.connect p)))).
Proof.
  intros Hd. unfold DedupStore.count_processed, mbind, M_bind, bind. simpl.
  destruct topic as [t|]; [destruct (String.eqb t "") |]; simpl;
    by rewrite (db_select_eval _ d p rows Hd).
Qed.

Lemma topic_count_snoc t rows r :
  topic_count t (rows ++ [r]) =
  (topic_count t rows + (if String.eqb (row_topic r) t then 1 else 0))%Z.
Proof.
  unfold topic_count. rewrite filter_app, length_app.
  rewrite Nat2Z.inj_add. f_equal.
  destruct (String.eqb (row_topic r) t) eqn:He.
  - apply String.eqb_eq in He. by rewrite filter_cons_True.
  - apply String.eqb_neq in He. by rewrite filter_cons_False.
Qed.

(** On an initialized ledger [count_processed] changes nothing; with a
    non-empty topic it gives the number of records of that topic, with no
    topic the number of all records.  A [mark_processed] that returns
    [true] raises the total and the count of its own topic by one and no
    other count; one that returns [false] changes no count. *)
Theorem mark_processed_counts w t e ts t' :
  Initialized w →
  t' ≠ "" →
  snd (DedupStore.count_processed (Some t') w) = w ∧
  fst (DedupStore.count_processed (Some t') w) =
    Ok (topic_count t' (records w)) ∧
  fst (DedupStore.count_processed None w) =
    Ok (Z.of_nat (length (records w))) ∧
  ∃ b w1,
    DedupStore.mark_processed t e ts w = (Ok b, w1) ∧
    fst (DedupStore.count_processed None w1) =
      Ok (Z.of_nat (length (records w)) + (if b then 1 else 0))%Z ∧
    fst (DedupStore.count_processed (Some t') w1) =
      Ok (topic_count t' (records w)
          + (if b && String.eqb t t' then 1 else 0))%Z.
Proof.
  intros Hi Hne. destruct (initialized_inv w Hi) as (d & p & rows & -> & Hd).
  apply String.eqb_neq in Hne.
  unfold records. simpl. rewrite Hd. simpl.
  rewrite !(count_processed_eval d p rows _ Hd). rewrite Hne. simpl.
  split_and!; try done.
  rewrite (mark_processed_eval d p rows t e ts Hd).
  destruct (has_key t e rows) eqn:Hk.
  - eexists false, _. split; [reflexivity |].
    rewrite !(count_processed_eval d p rows _ Hd). rewrite Hne. simpl.
    by rewrite !Z.add_0_r.
  - eexists true, _. split; [reflexivity |].
    rewrite !(count_processed_eval _ p (rows ++ [mkRow t e ts]) _
                (lookup_insert_eq _ _ _)).
    rewrite Hne. simpl. rewrite topic_count_snoc, length_app. simpl.
    split; [f_equal; lia | done].
Qed.

Lemma mark_processed_counts_witness :
  fst (DedupStore.count_processed (Some "a") ledger_three) =
    Ok (topic_count "a" (records ledger_three)) ∧
  ∃ b w1,
    DedupStore.mark_processed "a" "9" "t" ledger_three = (Ok b, w1) ∧
    fst (DedupStore.count_processed None w1) =
      Ok (Z.of_nat (length (records ledger_three))
          + (if b then 1 else 0))%Z ∧
    fst (DedupStore.count_processed (Some "a") w1) =
      Ok (topic_count "a" (records ledger_three)
          + (if b && String.eqb "a" "a" then 1 else 0))%Z.
Proof.
  destruct (mark_processed_counts ledger_three "a" "9" "t" "a")
    as (_ & H1 & _ & H2); [split; [reflexivity | by eexists] | done |].
  split; [exact H1 | exact H2].
Defined.

(** ** The counts of the topics add up *)

Lemma increasing_not_elem x u l :
  increasing (u :: l) → string_lt x u → x ∉ u :: l.
Proof.
  unfold increasing. intros Hs Hlt Hin. inversion Hs as [| ? ? Hs' Hall]; subst.
  apply elem_of_cons in Hin as [-> | Hin]; [by apply (string_lt_irrefl u) |].
  rewrite Forall_forall in Hall. apply (string_lt_irrefl x).
  eapply string_lt_trans; [exact Hlt | by apply Hall].
Qed.

Lemma sum_over_cons h u l :
  sum_over h (u :: l) = (h u + sum_over h l)%Z.
Proof. reflexivity. Qed.

Lemma sum_over_insert_sorted h x l :
  increasing l →
  sum_over h (DedupStore.insert_sorted x l) =
  (sum_over h l + (if decide (x ∈ l) then 0 else h x))%Z.
Proof.
  induction l as [| u l IH]; intros Hs.
  - cbn [DedupStore.insert_sorted sum_over foldr].
    destruct (decide (x ∈ [])) as [Hin | _];
      [by apply elem_of_nil in Hin | lia].
  - cbn [DedupStore.insert_sorted].
    destruct (String.compare x u) eqn:Hc.
    + apply String.compare_eq_iff in Hc. subst.
      destruct (decide (u ∈ u :: l)) as [_ | Hin];
        [lia | exfalso; apply Hin; set_solver].
    + rewrite !sum_over_cons.
      destruct (decide (x ∈ u :: l)) as [Hin | _]; [| lia].
      exfalso. by apply (increasing_not_elem x u l).
    + assert (Hne : x ≠ u).
      { intros ->. rewrite string_compare_refl in Hc. discriminate. }
      inversion Hs; subst. rewrite !sum_over_cons, IH by done.
      destruct (decide (x ∈ l)), (decide (x ∈ u :: l));
        try lia; exfalso; set_solver.
Qed.

Lemma sum_over_plus f g l :
  sum_over (fun t => (f t + g t)%Z) l = (sum_over f l + sum_over g l)%Z.
Proof. induction l as [| t l IH]; simpl; lia. Qed.

Lemma sum_over_ext f g l :
  (∀ t, t ∈ l → f t = g t) → sum_over f l = sum_over g l.
Proof.
  induction l as [| t l IH]; intros H; simpl; [done |].
  rewrite (H t) by set_solver. rewrite IH; [done |].
  intros u Hu. apply H. set_solver.
Qed.

Lemma sum_over_indicator x l :
  increasing l →
  sum_over (fun t => if String.eqb x t then 1 else 0)%Z l =
  (if decide (x ∈ l) then 1 else 0)%Z.
Proof.
  induction l as [| u l IH]; intros Hs.
  - cbn [sum_over foldr].
    destruct (decide (x ∈ [])) as [Hin | _];
      [by apply elem_of_nil in Hin | done].
  - inversion Hs as [| ? ? Hs' Hall]; subst.
    rewrite sum_over_cons, IH by done.
    destruct (String.eqb x u) eqn:He.
    + apply String.eqb_eq in He. subst.
      assert (Hn : u ∉ l).
      { intros Hin. rewrite Forall_forall in Hall. specialize (Hall u Hin).
        by apply string_lt_irrefl in Hall. }
      destruct (decide (u ∈ l)), (decide (u ∈ u :: l));
        try lia; exfalso; set_solver.
    + apply String.eqb_neq in He.
      destruct (decide (x ∈ l)), (decide (x ∈ u :: l));
        try lia; exfalso; set_solver.
Qed.

Lemma topic_count_cons t r rows :
  topic_count t (r :: rows) =
  ((if String.eqb (row_topic r) t then 1 else 0) + topic_count t rows)%Z.
Proof.
  unfold topic_count.
  destruct (String.eqb (row_topic r) t) eqn:He.
  - apply String.eqb_eq in He. rewrite filter_cons_True by done. simpl. lia.
  - apply String.eqb_neq in He. by rewrite filter_cons_False.
Qed.

Lemma topic_count_absent t rows :
  t ∉ DedupStore.distinct_topics rows → topic_count t rows = 0%Z.
Proof.
  intros Hn. unfold topic_count.
  destruct (filter (λ r, row_topic r = t) rows) as [| r l] eqn:Hf; [done |].
  exfalso. apply Hn. apply distinct_topics_elem.
  assert (Hr : r ∈ filter (λ r, row_topic r = t) rows)
    by (rewrite Hf; set_solver).
  apply list_elem_of_filter in Hr as [Ht Hr]. by exists r.
Qed.

Lemma topic_counts_sum rows :
  sum_over (fun t => topic_count t rows) (DedupStore.distinct_topics rows) =
  Z.of_nat (length rows).
Proof.
  induction rows as [| r rows IH]; [done |].
  change (DedupStore.distinct_topics (r :: rows)) with
    (DedupStore.insert_sorted (row_topic r)
       (DedupStore.distinct_topics rows)).
  pose proof (distinct_topics_increasing rows) as Hs.
  erewrite sum_over_ext; [| intros t _; apply topic_count_cons].
  rewrite sum_over_plus, !sum_over_insert_sorted by done.
  rewrite sum_over_indicator, IH by done.
  rewrite String.eqb_refl. cbn [length].
  destruct (decide (row_topic r ∈ DedupStore.distinct_topics rows)).
  - lia.
  - rewrite topic_count_absent by done. lia.
Qed.

(** When no record has the empty string as its topic, the per-topic
    counts of [count_processed], taken over the topics that
    [get_unique_topics] lists, add up to the total [count_processed]
    returns without a topic. *)
Theorem counts_add_up w :
  Initialized w →
  (∀ r, r ∈ records w → row_topic r ≠ "") →
  ∃ topics,
    fst (DedupStore.get_unique_topics w) = Ok topics ∧
    sum_over
      (fun t => returned_int (fst (DedupStore.count_processed (Some t) w)))
      topics =
    returned_int (fst (DedupStore.count_processed None w)).
Proof.
  intros Hi Hne. destruct (initialized_inv w Hi) as (d & p & rows & -> & Hd).
  unfold records in Hne. simpl in Hne. rewrite Hd in Hne. simpl in Hne.
  exists (DedupStore.distinct_topics rows). split.
  - unfold DedupStore.get_unique_topics, mbind, M_bind, bind. simpl.
    by rewrite (db_select_eval _ d p rows Hd).
  - rewrite (count_processed_eval d p rows None Hd). simpl.
    rewrite <- topic_counts_sum. apply sum_over_ext. intros t Ht.
    rewrite (count_processed_eval d p rows (Some t) Hd). simpl.
    apply distinct_topics_elem in Ht as (r & Hr & <-).
    specialize (Hne r Hr). apply String.eqb_neq in Hne. by rewrite Hne.
Qed.

Lemma counts_add_up_witness :
  ∃ topics,
    fst (DedupStore.get_unique_topics
           (snd (ledger_run history_example
                   (fresh_ledger ∅ "data/dedup.db")))) = Ok topics ∧
    sum_over
      (fun t =>
         returned_int
           (fst (DedupStore.count_processed (Some t)
                   (snd (ledger_run history_example
                           (fresh_ledger ∅ "data/dedup.db"))))))
      topics =
    returned_int
      (fst (DedupStore.count_processed None
              (snd (ledger_run history_example
                      (fresh_ledger ∅ "data/dedup.db"))))).
Proof.
  apply (counts_add_up
           (snd (ledger_run history_example
                   (fresh_ledger ∅ "data/dedup.db")))).
  - split; [reflexivity | by eexists].
  - intros r Hr. vm_compute in Hr.
    repeat (apply elem_of_cons in Hr as [-> | Hr]; [discriminate |]).
    by apply elem_of_nil in Hr.
Defined.

(** ** What the ledger keeps and what it leaves alone *)

Lemma ledger_step_frame w op :
  ledger_ok w →
  db_path (store (snd (ledger_step op w))) = db_path (store w) ∧
  (∀ q, q ≠ db_path (store w) →
        disk (snd (ledger_step op w)) !! q = disk w !! q) ∧
  records w `prefix_of` records (snd (ledger_step op w)).
Proof.
  intros Hok.
  destruct op as [| t e | t e ts | | topic |].
  - (* initialize *)
    destruct w as [d [p o]]. simpl. rewrite initialize_eval. simpl.
    unfold records. simpl.
    destruct (d !! p) as [rows|] eqn:Hd; simpl.
    + by rewrite Hd.
    + rewrite lookup_insert_eq. simpl. split_and!; try done.
      intros q Hq. by rewrite lookup_insert_ne.
  - by rewrite query_keeps_state.
  - (* mark_processed *)
    destruct (ledger_ok_inv w Hok)
      as (d & p & Hu & [-> | [[-> [rows Hd]] | ->]]); try done.
    simpl. rewrite (mark_processed_eval d p rows t e ts Hd).
    destruct (has_key t e rows); simpl; [done |].
    unfold records. simpl. rewrite Hd, lookup_insert_eq. simpl.
    split_and!; try done.
    + intros q Hq. by rewrite lookup_insert_ne.
    + by apply prefix_app_r.
  - by rewrite query_keeps_state.
  - by rewrite query_keeps_state.
  - (* close *)
    destruct (ledger_ok_inv w Hok)
      as (d & p & Hu & [-> | [[-> [rows Hd]] | ->]]); done.
Qed.

Lemma ledger_run_frame ops w :
  ledger_ok w →
  db_path (store (snd (ledger_run ops w))) = db_path (store w) ∧
  (∀ q, q ≠ db_path (store w) →
        disk (snd (ledger_run ops w)) !! q = disk w !! q) ∧
  records w `prefix_of` records (snd (ledger_run ops w)).
Proof.
  revert w. induction ops as [| op ops IH]; intros w Hok; [done |].
  simpl.
  pose proof (ledger_step_ok w op Hok) as Hok1.
  destruct (ledger_step_frame w op Hok) as (Hp1 & Hq1 & Hr1).
  destruct (ledger_step op w) as [o w1]. simpl in Hok1, Hp1, Hq1, Hr1.
  destruct (IH w1 Hok1) as (Hp2 & Hq2 & Hr2).
  destruct (ledger_run ops w1) as [h w2]. simpl in *.
  split_and!.
  - congruence.
  - intros q Hq. rewrite Hq2 by congruence. by apply Hq1.
  - by etrans.
Qed.

(** The committed records only grow, at the end: after any history of
    calls (restarts included) the records from before are still there, in
    the same places and with the [first_seen_at] they were accepted
    with. *)
Theorem records_append_only w ops :
  ledger_ok w →
  records w `prefix_of` records (snd (ledger_run ops w)) ∧
  ∀ i r, records w !! i = Some r →
         records (snd (ledger_run ops w)) !! i = Some r.
Proof.
  intros Hok. destruct (ledger_run_frame ops w Hok) as (_ & _ & Hpre).
  split; [done |]. intros i r Hi. by eapply prefix_lookup_Some.
Qed.

Lemma records_append_only_witness :
  records ledger_three
    `prefix_of` records (snd (ledger_run history_example ledger_three)) ∧
  ∀ i r, records ledger_three !! i = Some r →
         records (snd (ledger_run history_example ledger_three)) !! i =
           Some r.
Proof.
  apply (records_append_only ledger_three history_example).
  split; [| right; left; split; [reflexivity | by eexists]].
  unfold unique_keys. vm_compute.
  repeat (constructor; [set_solver |]). constructor.
Defined.

(** A ledger never writes outside its own location: after any history of
    calls the database files at every other path are as before, and the
    ledger still has the path it was created with. *)
Theorem other_locations_untouched w ops q :
  ledger_ok w →
  q ≠ db_path (store w) →
  disk (snd (ledger_run ops w)) !! q = disk w !! q ∧
  db_path (store (snd (ledger_run ops w))) = db_path (store w).
Proof.
  intros Hok Hq. destruct (ledger_run_frame ops w Hok) as (Hp & Hd & _).
  split; [by apply Hd | done].
Qed.

Lemma other_locations_untouched_witness :
  disk (snd (ledger_run history_example ledger_three)) !! "other.db" =
    disk ledger_three !! "other.db" ∧
  db_path (store (snd (ledger_run history_example ledger_three))) =
    db_path (store ledger_three).
Proof.
  apply (other_locations_untouched ledger_three history_example "other.db").
  - split; [| right; left; split; [reflexivity | by eexists]].
    unfold unique_keys. vm_compute.
    repeat (constructor; [set_solver |]). constructor.
  - discriminate.
Defined.

(** ** [initialize], the queries and [close] *)

(** [initialize] succeeds in every state of the ledger object: it leaves
    an open handle on the ledger's own path with the table present,
    keeps the committed records and every other file, and running it
    again changes nothing. *)
Theorem initialize_reopens w :
  ∃ w1,
    DedupStore.initialize w = (Ok tt, w1) ∧
    Initialized w1 ∧
    records w1 = records w ∧
    db_path (store w1) = db_path (store w) ∧
    (∀ q, q ≠ db_path (store w) → disk w1 !! q = disk w !! q) ∧
    DedupStore.initialize w1 = (Ok tt, w1).
Proof.
  destruct w as [d [p o]]. eexists. split; [apply initialize_eval |].
  unfold Initialized, records. simpl.
  destruct (d !! p) as [rows|] eqn:Hd; simpl.
  - rewrite Hd. split_and!; eauto.
    rewrite initialize_eval. by rewrite Hd.
  - rewrite lookup_insert_eq. split_and!; eauto.
    + intros q Hq. by rewrite lookup_insert_ne.
    + rewrite initialize_eval. by rewrite lookup_insert_eq.
Qed.

(** [is_duplicate], [get_unique_topics] and [count_processed] never
    change the ledger or the files, in whatever state the ledger is and
    whether they answer or raise. *)
Theorem queries_read_only w t e topic :
  ledger_ok w →
  snd (DedupStore.is_duplicate t e w) = w ∧
  snd (DedupStore.get_unique_topics w) = w ∧
  snd (DedupStore.count_processed topic w) = w.
Proof.
  intros Hok.
  pose proof (query_keeps_state w (OpIsDuplicate t e) Hok eq_refl
                ltac:(done)) as H1.
  pose proof (query_keeps_state w OpGetUniqueTopics Hok eq_refl
                ltac:(done)) as H2.
  pose proof (query_keeps_state w (OpCountProcessed topic) Hok eq_refl
                ltac:(done)) as H3.
  simpl in H1, H2, H3.
  destruct (DedupStore.is_duplicate t e w),
    (DedupStore.get_unique_topics w), (DedupStore.count_processed topic w).
  done.
Qed.

Lemma queries_read_only_witness :
  snd (DedupStore.is_duplicate "a" "1"
         (snd (DedupStore.close ledger_three))) =
    snd (DedupStore.close ledger_three) ∧
  snd (DedupStore.get_unique_topics (snd (DedupStore.close ledger_three))) =
    snd (DedupStore.close ledger_three) ∧
  snd (DedupStore.count_processed (Some "a")
         (snd (DedupStore.close ledger_three))) =
    snd (DedupStore.close ledger_three).
Proof.
  apply (queries_read_only (snd (DedupStore.close ledger_three))
           "a" "1" (Some "a")).
  split; [| by right; right].
  unfold unique_keys. vm_compute.
  repeat (constructor; [set_solver |]). constructor.
Defined.

(** [close] returns normally in every state of the ledger, leaves the
    files as they are, so that nothing committed is lost, and leaves the
    ledger without an open handle; on a ledger that was never
    initialized it does nothing at all. *)
Theorem close_keeps_files w :
  ledger_ok w →
  ∃ w1,
    DedupStore.close w = (Ok tt, w1) ∧
    disk w1 = disk w ∧
    records w1 = records w ∧
    is_open w1 = false ∧
    (db (store w) = None → w1 = w).
Proof.
  intros Hok.
  destruct (ledger_ok_inv w Hok)
    as (d & p & Hu & [-> | [[-> [rows Hd]] | ->]]);
    eexists; (split; [reflexivity |]); by split_and!.
Qed.

Lemma close_keeps_files_witness :
  ∃ w1,
    DedupStore.close ledger_three = (Ok tt, w1) ∧
    disk w1 = disk ledger_three ∧
    records w1 = records ledger_three ∧
    is_open w1 = false ∧
    (db (store ledger_three) = None → w1 = ledger_three).
Proof.
  apply (close_keeps_files ledger_three).
  split; [| right; left; split; [reflexivity | by eexists]].
  unfold unique_keys. vm_compute.
  repeat (constructor; [set_solver |]). constructor.
Defined.

(** * Further properties of the pipeline *)

(** ** The ledger under the pipeline *)

Lemma mark_processed_cases w t e ts :
  ledger_ok w →
  ∃ r w',
    DedupStore.mark_processed t e ts w = (r, w') ∧
    ledger_ok w' ∧
    match r with
    | Ok true =>
        has_key t e (records w) = false ∧
        records w' = records w ++ [mkRow t e ts]
    | _ => records w' = records w
    end.
Proof.
  intros Hok. destruct (mark_step w t e ts Hok) as [Hok' Hs].
  simpl in Hok', Hs.
  destruct (DedupStore.mark_processed t e ts w) as [r w'] eqn:Hm.
  simpl in Hok', Hs. exists r, w'. split_and!; try done.
  destruct (is_open w).
  - destruct Hs as [Hr Hrec]. inversion Hr; subst.
    by destruct (has_key t e (records w)).
  - destruct Hs as [x Hx]. by inversion Hx; subst.
Qed.

Lemma has_key_event_row e rows :
  has_key (Event.topic e) (Event.event_id e) (rows ++ [event_row e]) = true.
Proof.
  rewrite has_key_app. cbn [has_key existsb]. unfold event_row.
  rewrite same_key_row. by rewrite !String.eqb_refl, orb_true_r.
Qed.


(** What the ledger holds is what it held when the pipeline was built
    plus the processed log: the invariant behind the next theorems. *)
Lemma step_ledger_log rows0 a s s' :
  step a s = Some s' →
  ledger_ok (world s) ∧
    records (world s) = rows0 ++ map event_row (processed_events (proc s)) ∧
    unique_processed (stats (proc s)) =
      Z.of_nat (length (processed_events (proc s))) →
  ledger_ok (world s') ∧
    records (world s') = rows0 ++ map event_row (processed_events (proc s')) ∧
    unique_processed (stats (proc s')) =
      Z.of_nat (length (processed_events (proc s'))).
Proof.
  intros Hstep (Hok & Hrec & Hu).
  destruct a as [events | | | | i | |]; simpl in Hstep.
  - rewrite publish_eval in Hstep. by inversion Hstep; subst.
  - inversion Hstep; subst. unfold EventProcessor.start.
    by destruct (_running (proc s)).
  - inversion Hstep; subst. unfold EventProcessor.stop. simpl.
    destruct (consumer_task (proc s)) as [i|] eqn:Hct; [| done].
    destruct (Queue.joined (queue (proc s))); [| done].
    unfold EventProcessor.cancel_consumer_task. simpl. by rewrite Hct.
  - unfold EventProcessor.stop_resume in Hstep.
    destruct (stops_resuming s); [done |]. inversion Hstep; subst.
    unfold EventProcessor.cancel_consumer_task. simpl.
    by destruct (consumer_task (proc s)).
  - unfold EventProcessor.task_run in Hstep.
    destruct (tasks s !! i) as [t|] eqn:Hi; [| done].
    destruct t as [| | ev |]; simpl in Hstep; [| | | done].
    + by inversion Hstep; subst.
    + destruct (Queue.get (queue (proc s))) as [[e q]|];
        by inversion Hstep; subst.
    + unfold try_except, mbind, M_bind, bind in Hstep.
      rewrite process_event_eval in Hstep.
      destruct (mark_processed_cases (world s) (Event.topic ev)
                  (Event.event_id ev) (isoformat (Event.timestamp ev)) Hok)
        as (r & w' & Hm & Hok' & Hcase).
      rewrite Hm in Hstep.
      destruct r as [[|]|x]; simpl in Hstep.
      * destruct (EventProcessor.queue_task_done _) as [[[]|y] s1] eqn:Hq;
          unfold EventProcessor.queue_task_done in Hq; simpl in Hq;
          destruct (Queue.task_done (queue (proc s))) as [[q n]|z];
          inversion Hq; subst; clear Hq;
          inversion Hstep; subst; clear Hstep; simpl;
          destruct Hcase as [_ ->]; rewrite Hrec, map_app, <- app_assoc;
          rewrite length_app; simpl; (split_and!; [done | done | lia]).
      * destruct (EventProcessor.queue_task_done _) as [[[]|y] s1] eqn:Hq;
          unfold EventProcessor.queue_task_done in Hq; simpl in Hq;
          destruct (Queue.task_done (queue (proc s))) as [[q n]|z];
          inversion Hq; subst; clear Hq;
          inversion Hstep; subst; clear Hstep; simpl;
          rewrite Hcase; by split_and!.
      * inversion Hstep; subst; clear Hstep. simpl. rewrite Hcase.
        by split_and!.
  - unfold lift_world in Hstep.
    destruct (other_step (world s) OpInitialize Hok ltac:(done))
      as [Hok' Hrec'].
    simpl in Hok', Hrec'.
    destruct (DedupStore.initialize (world s)) as [r0 w'].
    inversion Hstep; subst. simpl in *. rewrite Hrec'. by split_and!.
  - unfold lift_world in Hstep.
    destruct (other_step (world s) OpClose Hok ltac:(done))
      as [Hok' Hrec'].
    simpl in Hok', Hrec'.
    destruct (DedupStore.close (world s)) as [r0 w'].
    inversion Hstep; subst. simpl in *. rewrite Hrec'. by split_and!.
Qed.

Lemma run_ledger_log rows0 acts s s' :
  run acts s = Some s' →
  ledger_ok (world s) ∧
    records (world s) = rows0 ++ map event_row (processed_events (proc s)) ∧
    unique_processed (stats (proc s)) =
      Z.of_nat (length (processed_events (proc s))) →
  ledger_ok (world s') ∧
    records (world s') = rows0 ++ map event_row (processed_events (proc s')) ∧
    unique_processed (stats (proc s')) =
      Z.of_nat (length (processed_events (proc s'))).
Proof.
  revert s. induction acts as [| a acts IH]; intros s Hrun Hinv;
    simpl in Hrun.
  - by inversion Hrun; subst.
  - destruct (step a s) as [s1|] eqn:Hstep; [| done].
    eapply IH; [exact Hrun |]. by eapply step_ledger_log.
Qed.

(** In every schedule of a pipeline built over a ledger in a reachable
    state, [unique_processed] is the length of the processed log.  When
    the schedule is quiet (no call of the ledger's owner, one consumer
    task, no event in its hands), the records of the ledger are the
    ones it had when the pipeline was built followed by one record per
    event of the processed log, in the order of the log, with the
    event's topic, id and timestamp text. *)
Theorem ledger_matches_log w acts s :
  ledger_ok w →
  run acts (new_system w) = Some s →
  unique_processed (EventProcessor.get_stats s) =
    Z.of_nat (length (processed_events (proc s))) ∧
  (quiet acts s →
   records (world s) =
     records w ++ map event_row (processed_events (proc s))).
Proof.
  intros Hok Hrun.
  destruct (run_ledger_log (records w) acts _ s Hrun) as (_ & H1 & H2).
  - split_and!; [done | by rewrite app_nil_r | done].
  - done.
Qed.

Lemma ledger_matches_log_witness :
  ∃ s,
    run (publish_and_consume five_events 11) (new_system ledger_three)
      = Some s ∧
    unique_processed (EventProcessor.get_stats s) =
      Z.of_nat (length (processed_events (proc s))) ∧
    records (world s) =
      records ledger_three ++ map event_row (processed_events (proc s)).
Proof.
  assert (Hok : ledger_ok ledger_three).
  { split; [| right; left; split; [reflexivity | by eexists]].
    unfold unique_keys. vm_compute.
    repeat (constructor; [set_solver |]). constructor. }
  assert (Hrun : run (publish_and_consume five_events 11)
                   (new_system ledger_three) =
                 Some (default (new_system ledger_three)
                         (run (publish_and_consume five_events 11)
                            (new_system ledger_three))))
    by (vm_compute; reflexivity).
  destruct (ledger_matches_log ledger_three _ _ Hok Hrun) as [Hu Hrec].
  eexists. split; [exact Hrun |]. split; [exact Hu |].
  apply Hrec.
  split_and!; [reflexivity | vm_compute; lia | vm_compute; reflexivity].
Defined.



(** ** Counters and logs only grow *)

(** What processing the event in hand does to the pipeline, whatever the
    ledger answers. *)
Lemma processing_cases ev s :
  ∃ s1,
    try_except
      (EventProcessor._process_event ev;; EventProcessor.queue_task_done)
      (fun e => modify (log_error e)) s = (Ok tt, s1) ∧
    tasks s1 = tasks s ∧
    received (stats (proc s1)) = received (stats (proc s)) ∧
    consumer_task (proc s1) = consumer_task (proc s) ∧
    _running (proc s1) = _running (proc s) ∧
    Queue.items (queue (proc s1)) = Queue.items (queue (proc s)) ∧
    (error_log s1 = error_log s ∨ ∃ x, error_log s1 = error_log s ++ [x]) ∧
    ((unique_processed (stats (proc s1)) =
        (unique_processed (stats (proc s)) + 1)%Z ∧
      duplicate_dropped (stats (proc s1)) =
        duplicate_dropped (stats (proc s)) ∧
      processed_events (proc s1) = processed_events (proc s) ++ [ev]) ∨
     (unique_processed (stats (proc s1)) =
        unique_processed (stats (proc s)) ∧
      duplicate_dropped (stats (proc s1)) =
        (duplicate_dropped (stats (proc s)) + 1)%Z ∧
      processed_events (proc s1) = processed_events (proc s)) ∨
     (unique_processed (stats (proc s1)) =
        unique_processed (stats (proc s)) ∧
      duplicate_dropped (stats (proc s1)) =
        duplicate_dropped (stats (proc s)) ∧
      processed_events (proc s1) = processed_events (proc s) ∧
      world s1 = snd (DedupStore.mark_processed (Event.topic ev)
                        (Event.event_id ev)
                        (isoformat (Event.timestamp ev)) (world s)) ∧
      ∃ x, error_log s1 = error_log s ++ [x])).
Proof.
  unfold try_except, mbind, M_bind, bind.
  rewrite process_event_eval.
  destruct (DedupStore.mark_processed _ _ _ (world s)) as [[[|]|x] w'].
  - unfold EventProcessor.queue_task_done. cbn [proc queue set_queue].
    destruct (Queue.task_done _) as [[q n]|z] eqn:Hq.
    + unfold Queue.task_done in Hq.
      eexists. split; [reflexivity |].
      repeat case_match; inversion Hq; subst; simpl;
        split_and!; try done; by eauto.
    + eexists. split; [reflexivity |]. simpl.
      split_and!; try done; by eauto.
  - unfold EventProcessor.queue_task_done. cbn [proc queue set_queue].
    destruct (Queue.task_done _) as [[q n]|z] eqn:Hq.
    + unfold Queue.task_done in Hq.
      eexists. split; [reflexivity |].
      repeat case_match; inversion Hq; subst; simpl;
        split_and!; try done; by eauto.
    + eexists. split; [reflexivity |]. simpl.
      split_and!; try done; by eauto.
  - eexists. split; [reflexivity |]. simpl.
    split_and!; try done; [by eauto |].
    right; right. split_and!; try done. by eauto.
Qed.

Lemma step_grows a s s' :
  step a s = Some s' →
  received (stats (proc s')) =
    (received (stats (proc s)) + Z.of_nat (length (published [a])))%Z ∧
  (unique_processed (stats (proc s))
     ≤ unique_processed (stats (proc s')))%Z ∧
  (duplicate_dropped (stats (proc s))
     ≤ duplicate_dropped (stats (proc s')))%Z ∧
  processed_events (proc s) `prefix_of` processed_events (proc s') ∧
  error_log s `prefix_of` error_log s' ∧
  (length (tasks s) ≤ length (tasks s'))%nat.
Proof.
  intros Hstep.
  destruct a as [events | | | | i | |]; simpl in Hstep;
    cbn [published length app].
  - rewrite publish_eval in Hstep. inversion Hstep; subst. simpl.
    rewrite app_nil_r. by split_and!.
  - inversion Hstep; subst. unfold EventProcessor.start.
    destruct (_running (proc s)); simpl; rewrite ?length_app;
      split_and!; try done; simpl; lia.
  - inversion Hstep; subst. unfold EventProcessor.stop. simpl.
    destruct (consumer_task (proc s)) as [i|] eqn:Hct;
      [| simpl; split_and!; try done; lia].
    destruct (Queue.joined (queue (proc s)));
      [| simpl; split_and!; try done; lia].
    unfold EventProcessor.cancel_consumer_task. simpl. rewrite Hct. simpl.
    rewrite length_insert. split_and!; try done; lia.
  - unfold EventProcessor.stop_resume in Hstep.
    destruct (stops_resuming s); [done |]. inversion Hstep; subst.
    unfold EventProcessor.cancel_consumer_task. simpl.
    destruct (consumer_task (proc s)); simpl; rewrite ?length_insert;
      split_and!; try done; lia.
  - unfold EventProcessor.task_run in Hstep.
    destruct (tasks s !! i) as [t|] eqn:Hi; [| done].
    destruct t as [| | ev |]; simpl in Hstep; [| | | done].
    + inversion Hstep; subst. simpl. rewrite length_insert.
      split_and!; try done; lia.
    + destruct (Queue.get (queue (proc s))) as [[e q]|];
        inversion Hstep; subst; simpl; rewrite length_insert;
        split_and!; try done; lia.
    + destruct (processing_cases ev s)
        as (s1 & Hs1 & Ht & Hr & _ & _ & _ & Hel & Hcase).
      rewrite Hs1 in Hstep. inversion Hstep; subst; clear Hstep. simpl.
      rewrite length_insert, Ht, Hr.
      assert (error_log s `prefix_of` error_log s1).
      { destruct Hel as [-> | [x ->]]; [done | by apply prefix_app_r]. }
      destruct Hcase as [(-> & -> & ->) | [(-> & -> & ->) |
                         (-> & -> & -> & _)]];
        split_and!; try done; try lia; by apply prefix_app_r.
  - unfold lift_world in Hstep.
    destruct (DedupStore.initialize (world s)) as [r0 w'].
    inversion Hstep; subst. simpl. split_and!; try done; lia.
  - unfold lift_world in Hstep.
    destruct (DedupStore.close (world s)) as [r0 w'].
    inversion Hstep; subst. simpl. split_and!; try done; lia.
Qed.

(** Along every schedule, from any state: [received] grows by exactly
    the number of events passed to [publish] and by nothing else;
    [unique_processed] and [duplicate_dropped] never decrease; the
    processed log and the error log are only appended to. *)
Theorem counters_and_logs_grow acts s s' :
  run acts s = Some s' →
  received (EventProcessor.get_stats s') =
    (received (EventProcessor.get_stats s)
     + Z.of_nat (length (published acts)))%Z ∧
  (unique_processed (EventProcessor.get_stats s)
     ≤ unique_processed (EventProcessor.get_stats s'))%Z ∧
  (duplicate_dropped (EventProcessor.get_stats s)
     ≤ duplicate_dropped (EventProcessor.get_stats s'))%Z ∧
  processed_events (proc s) `prefix_of` processed_events (proc s') ∧
  error_log s `prefix_of` error_log s'.
Proof.
  unfold EventProcessor.get_stats.
  revert s. induction acts as [| a acts IH]; intros s Hrun; simpl in Hrun.
  - inversion Hrun; subst. simpl. split_and!; try done; lia.
  - destruct (step a s) as [s1|] eqn:Hstep; [| done].
    destruct (step_grows a s s1 Hstep) as (H1 & H2 & H3 & H4 & H5 & _).
    destruct (IH s1 Hrun) as (I1 & I2 & I3 & I4 & I5).
    assert (Hlen : (length (published (a :: acts)) =
                   length (published [a]) + length (published acts))%nat).
    { destruct a; simpl; rewrite ?length_app; simpl; lia. }
    rewrite Hlen. split_and!; try lia; by etrans.
Qed.

Lemma counters_and_logs_grow_witness :
  ∃ s',
    run (publish_and_consume five_events 4) (new_system ledger_example)
      = Some s' ∧
    received (EventProcessor.get_stats s') =
      (received (EventProcessor.get_stats (new_system ledger_example))
       + Z.of_nat (length (published (publish_and_consume five_events 4))))%Z.
Proof.
  eexists. split; [vm_compute; reflexivity |].
  apply (counters_and_logs_grow (publish_and_consume five_events 4)
           (new_system ledger_example)).
  vm_compute. reflexivity.
Defined.

(** ** One consumer task *)

Lemma step_single_task a s s' :
  is_stop a = false →
  step a s = Some s' →
  (length (tasks s) ≤ 1)%nat ∧ (_running (proc s) = false ↔ tasks s = []) →
  (length (tasks s') ≤ 1)%nat ∧
  (_running (proc s') = false ↔ tasks s' = []).
Proof.
  intros Hns Hstep [Hlen Hrun].
  assert (Hkeep : ∀ l : list Task,
            length l = length (tasks s) →
            (length l ≤ 1)%nat ∧ (_running (proc s) = false ↔ l = [])).
  { intros l Hl. split; [lia |]. rewrite Hrun.
    destruct l, (tasks s); simpl in Hl; try done; lia. }
  destruct a as [events | | | | i | |]; simpl in Hstep; try done.
  - rewrite publish_eval in Hstep. by inversion Hstep; subst.
  - inversion Hstep; subst. unfold EventProcessor.start.
    destruct (_running (proc s)) eqn:Hr; [by rewrite Hr |].
    simpl. rewrite (proj1 Hrun eq_refl). simpl. split; [lia | done].
  - unfold EventProcessor.stop_resume in Hstep.
    destruct (stops_resuming s); [done |]. inversion Hstep; subst.
    unfold EventProcessor.cancel_consumer_task. simpl.
    destruct (consumer_task (proc s)); simpl; [| done].
    apply Hkeep. by rewrite length_insert.
  - unfold EventProcessor.task_run in Hstep.
    destruct (tasks s !! i) as [t|] eqn:Hi; [| done].
    destruct t as [| | ev |]; simpl in Hstep; [| | | done].
    + inversion Hstep; subst. simpl. apply Hkeep. by rewrite length_insert.
    + destruct (Queue.get (queue (proc s))) as [[e q]|];
        inversion Hstep; subst; simpl; apply Hkeep;
        by rewrite length_insert.
    + destruct (processing_cases ev s)
        as (s1 & Hs1 & Ht & _ & _ & Hr1 & _).
      rewrite Hs1 in Hstep. inversion Hstep; subst; clear Hstep. simpl.
      rewrite Hr1. apply Hkeep. by rewrite length_insert, Ht.
  - unfold lift_world in Hstep.
    destruct (DedupStore.initialize (world s)) as [r0 w'].
    by inversion Hstep; subst.
  - unfold lift_world in Hstep.
    destruct (DedupStore.close (world s)) as [r0 w'].
    by inversion Hstep; subst.
Qed.

Lemma run_single_task acts s s' :
  forallb (fun a => negb (is_stop a)) acts = true →
  run acts s = Some s' →
  (length (tasks s) ≤ 1)%nat ∧ (_running (proc s) = false ↔ tasks s = []) →
  (length (tasks s') ≤ 1)%nat ∧
  (_running (proc s') = false ↔ tasks s' = []).
Proof.
  revert s. induction acts as [| a acts IH]; intros s Hns Hrun Hinv;
    simpl in Hrun, Hns.
  - by inversion Hrun; subst.
  - apply andb_true_iff in Hns as [Ha Hns].
    destruct (step a s) as [s1|] eqn:Hstep; [| done].
    eapply IH; [done | exact Hrun |].
    eapply step_single_task; [| exact Hstep | done].
    by destruct (is_stop a).
Qed.

(** [start()] on a running pipeline does nothing: in a schedule without
    [stop()], however often [start()] is called, at most one consumer
    task is ever created, there is one exactly when the pipeline is
    running, and a further [start()] changes nothing once there is
    one. *)
Theorem start_once w acts s :
  forallb (fun a => negb (is_stop a)) acts = true →
  run acts (new_system w) = Some s →
  (length (tasks s) ≤ 1)%nat ∧
  (_running (proc s) = false ↔ tasks s = []) ∧
  EventProcessor.start (EventProcessor.start s) = EventProcessor.start s.
Proof.
  intros Hns Hrun.
  destruct (run_single_task acts _ s Hns Hrun) as [H1 H2].
  { simpl. split; [lia | done]. }
  split_and!; [done | done |].
  unfold EventProcessor.start.
  destruct (_running (proc s)) eqn:Hr; [by rewrite Hr | done].
Qed.

Lemma start_once_witness :
  ∃ s,
    run [Start; Publish five_events; Start; TaskRun 0; Start]
      (new_system ledger_example) = Some s ∧
    (length (tasks s) ≤ 1)%nat ∧
    (_running (proc s) = false ↔ tasks s = []) ∧
    EventProcessor.start (EventProcessor.start s) = EventProcessor.start s.
Proof.
  eexists. split; [vm_compute; reflexivity |].
  apply (start_once ledger_example
           [Start; Publish five_events; Start; TaskRun 0; Start]).
  - reflexivity.
  - vm_compute. reflexivity.
Defined.

(** ** First in, first out *)

Lemma published_cons a acts :
  published (a :: acts) = published [a] ++ published acts.
Proof. destruct a; simpl; by rewrite ?app_nil_r. Qed.

Lemma in_hand_app l1 l2 : in_hand (l1 ++ l2) = in_hand l1 ++ in_hand l2.
Proof.
  induction l1 as [| t l1 IH]; [done |]. destruct t; simpl; by rewrite ?IH.
Qed.

(** Cancelling the only task drops what it holds. *)
Lemma fifo_cancel pub s i :
  (length (tasks s) ≤ 1)%nat →
  fifo pub s → fifo pub (set_tasks (<[i := Finished]> (tasks s)) s).
Proof.
  intros Hlen (done & Hpub & Hsub). unfold fifo. simpl.
  destruct (tasks s) as [| t [| t' l]] eqn:Ht; simpl in Hlen; [| | lia].
  - by exists done.
  - destruct i as [| i]; simpl; [| by exists done].
    destruct t as [| | e |]; try (by exists done).
    exists (done ++ [e]). simpl in Hpub. rewrite <- app_assoc.
    split; [done | by apply sublist_inserts_r].
Qed.

Lemma step_fifo pub a s s' :
  step a s = Some s' →
  (length (tasks s') ≤ 1)%nat →
  fifo pub s → fifo (pub ++ published [a]) s'.
Proof.
  intros Hstep Hlen' Hf.
  assert (Hlen : (length (tasks s) ≤ 1)%nat).
  { destruct (step_grows a s s' Hstep) as (_ & _ & _ & _ & _ & ?). lia. }
  destruct a as [events | | | | i | |]; simpl in Hstep;
    cbn [published]; rewrite ?app_nil_r.
  - rewrite publish_eval in Hstep. inversion Hstep; subst.
    destruct Hf as (done & -> & Hsub). exists done. simpl.
    by rewrite <- !app_assoc.
  - inversion Hstep; subst. unfold EventProcessor.start.
    destruct (_running (proc s)); [done |].
    destruct Hf as (done & -> & Hsub). exists done. simpl.
    by rewrite in_hand_app, app_nil_r.
  - inversion Hstep; subst. unfold EventProcessor.stop. simpl.
    destruct (consumer_task (proc s)) as [i|] eqn:Hct; [| done].
    destruct (Queue.joined (queue (proc s))); [| done].
    unfold EventProcessor.cancel_consumer_task. simpl. rewrite Hct.
    by apply (fifo_cancel pub (set_proc (set_running false (proc s)) s) i).
  - unfold EventProcessor.stop_resume in Hstep.
    destruct (stops_resuming s); [done |]. inversion Hstep; subst.
    unfold EventProcessor.cancel_consumer_task.
    destruct (consumer_task (proc s)) as [i|]; [| done].
    by apply (fifo_cancel pub s i) in Hf.
  - unfold EventProcessor.task_run in Hstep.
    destruct (tasks s !! i) as [t|] eqn:Hi; [| done].
    destruct (tasks s) as [| t0 [| t1 l]] eqn:Ht; simpl in Hlen;
      [done | | lia].
    destruct i as [| i]; [| done]. simpl in Hi. inversion Hi; subst t0.
    destruct Hf as (done & Hpub & Hsub). rewrite ?Ht in Hpub.
    destruct t as [| | ev |]; simpl in Hstep; [| | | done].
    + inversion Hstep; subst. exists done. simpl. rewrite Ht. simpl.
      split; [| done]. unfold EventProcessor.loop_head.
      by destruct (_running (proc s)).
    + destruct s as [w [[its n wt] lg st ct b] ts sr el].
      simpl in *. subst ts.
      destruct its as [| e its']; simpl in Hstep;
        inversion Hstep; subst; exists done; simpl.
      * split; [| done]. unfold EventProcessor.loop_head. simpl.
        by destruct b.
      * done.
    + destruct (processing_cases ev s)
        as (s1 & Hs1 & Hts & _ & _ & _ & Hits & _ & Hcase).
      rewrite Hs1 in Hstep. inversion Hstep; subst; clear Hstep.
      exists (done ++ [ev]). simpl. rewrite Hts, Ht, Hits. simpl.
      rewrite <- app_assoc. split.
      * unfold EventProcessor.loop_head.
        by destruct (_running (proc s1)).
      * destruct Hcase as [(_ & _ & ->) | [(_ & _ & ->) |
                           (_ & _ & -> & _)]].
        -- by apply sublist_app.
        -- by apply sublist_inserts_r.
        -- by apply sublist_inserts_r.
  - unfold lift_world in Hstep.
    destruct (DedupStore.initialize (world s)) as [r0 w'].
    by inversion Hstep; subst.
  - unfold lift_world in Hstep.
    destruct (DedupStore.close (world s)) as [r0 w'].
    by inversion Hstep; subst.
Qed.

Lemma run_fifo pub acts s s' :
  run acts s = Some s' →
  (length (tasks s') ≤ 1)%nat →
  fifo pub s → fifo (pub ++ published acts) s'.
Proof.
  revert pub s. induction acts as [| a acts IH]; intros pub s Hrun Hlen Hf;
    simpl in Hrun.
  - inversion Hrun; subst. by rewrite app_nil_r.
  - destruct (step a s) as [s1|] eqn:Hstep; [| done].
    rewrite published_cons, app_assoc.
    apply (IH _ s1); [done | done |].
    apply (step_fifo pub a s s1 Hstep); [| done].
    pose proof (run_tasks_length acts s1 s' Hrun). lia.
Qed.

(** While only one consumer task has been created, the pipeline is first
    in, first out: the events published so far are, in order, the ones
    the consumer is done with, the one in its hands, and the ones queued;
    and the processed log lists accepted events in the order they were
    published. *)
Theorem single_consumer_fifo w acts s :
  run acts (new_system w) = Some s →
  (length (tasks s) ≤ 1)%nat →
  ∃ done,
    published acts =
      done ++ in_hand (tasks s) ++ Queue.items (queue (proc s)) ∧
    processed_events (proc s) `sublist_of` done ∧
    processed_events (proc s) `sublist_of` published acts.
Proof.
  intros Hrun Hlen.
  destruct (run_fifo [] acts _ s Hrun Hlen) as (done & Hpub & Hsub).
  { exists []. by split. }
  simpl in Hpub. exists done. split_and!; [done | done |].
  rewrite Hpub. by apply sublist_inserts_r.
Qed.

Lemma single_consumer_fifo_witness :
  ∃ s done,
    run (publish_and_consume five_events 6) (new_system ledger_example)
      = Some s ∧
    published (publish_and_consume five_events 6) =
      done ++ in_hand (tasks s) ++ Queue.items (queue (proc s)) ∧
    processed_events (proc s) `sublist_of` done ∧
    processed_events (proc s)
      `sublist_of` published (publish_and_consume five_events 6).
Proof.
  eexists.
  assert (Hrun : run (publish_and_consume five_events 6)
                   (new_system ledger_example) =
                 Some (default (new_system ledger_example)
                         (run (publish_and_consume five_events 6)
                            (new_system ledger_example))))
    by (vm_compute; reflexivity).
  destruct (single_consumer_fifo ledger_example
              (publish_and_consume five_events 6) _ Hrun)
    as (done & H); [vm_compute; lia |].
  exists done. split; [exact Hrun | exact H].
Defined.

(** ** The views of the processed log *)

Lemma insort_elem x t l : x ∈ insort t l ↔ x = t ∨ x ∈ l.
Proof.
  induction l as [| u l IH]; simpl; [set_solver |].
  destruct (String.compare t u); set_solver.
Qed.

Lemma insort_increasing t l :
  increasing l → t ∉ l → increasing (insort t l).
Proof.
  unfold increasing. induction 1 as [| u l Hs IH Hall]; intros Hn; simpl.
  - repeat constructor.
  - destruct (String.compare t u) eqn:Hc.
    + apply String.compare_eq_iff in Hc. subst. exfalso. set_solver.
    + constructor; [by constructor |].
      constructor; [done |].
      eapply Forall_impl; [exact Hall |]. intros x Hx.
      by eapply string_lt_trans.
    + constructor; [apply IH; set_solver |].
      apply Forall_forall. intros x Hx.
      apply insort_elem in Hx as [-> | Hx].
      * by apply string_compare_gt.
      * rewrite Forall_forall in Hall. by apply Hall.
Qed.

Lemma sorted_elem x l : x ∈ sorted l ↔ x ∈ l.
Proof.
  unfold sorted. induction l as [| t l IH]; simpl; [done |].
  rewrite insort_elem, IH. set_solver.
Qed.

Lemma sorted_increasing l : NoDup l → increasing (sorted l).
Proof.
  unfold sorted. induction 1 as [| t l Hn Hnd IH]; simpl.
  - constructor.
  - apply insort_increasing; [done |]. by rewrite sorted_elem.
Qed.

Lemma processor_topics_increasing s :
  increasing (processor_get_unique_topics s).
Proof.
  unfold processor_get_unique_topics. apply sorted_increasing, NoDup_elements.
Qed.

Lemma processor_topics_elem s t :
  t ∈ processor_get_unique_topics s ↔
  ∃ e, e ∈ processed_events (proc s) ∧ Event.topic e = t.
Proof.
  unfold processor_get_unique_topics.
  rewrite sorted_elem, elem_of_elements, elem_of_list_to_set.
  rewrite list_elem_of_fmap. naive_solver.
Qed.

(** [EventProcessor.get_unique_topics] returns the topics of the
    processed log in strictly increasing order, each once: a topic is in
    the list exactly when some processed event has it. *)
Theorem processor_topics_sorted s :
  increasing (processor_get_unique_topics s) ∧
  ∀ t, t ∈ processor_get_unique_topics s ↔
       ∃ e, e ∈ processed_events (proc s) ∧ Event.topic e = t.
Proof.
  split; [apply processor_topics_increasing | apply processor_topics_elem].
Qed.

Lemma get_unique_topics_eval d p rows :
  d !! p = Some rows →
  DedupStore.get_unique_topics
    (mkWorld d (mkDedupStore p (Some (aiosqlite.connect p)))) =
  (Ok (DedupStore.distinct_topics rows),
   mkWorld d (mkDedupStore p (Some (aiosqlite.connect p)))).
Proof.
  intros Hd. unfold DedupStore.get_unique_topics, mbind, M_bind, bind. simpl.
  by rewrite (db_select_eval _ d p rows Hd).
Qed.

(** A strictly increasing list is determined by its elements. *)
Lemma increasing_ext l1 l2 :
  increasing l1 → increasing l2 →
  (∀ x, x ∈ l1 ↔ x ∈ l2) → l1 = l2.
Proof.
  unfold increasing. intros H1. revert l2.
  induction H1 as [| a l1 Hs1 IH Ha]; intros l2 H2 Hext.
  - destruct l2 as [| b l2]; [done |].
    exfalso. apply (not_elem_of_nil b). apply Hext. set_solver.
  - destruct H2 as [| b l2 Hs2 Hb].
    { exfalso. apply (not_elem_of_nil a). apply Hext. set_solver. }
    rewrite Forall_forall in Ha, Hb.
    assert (a = b) as ->.
    { assert (Hab : a ∈ b :: l2) by (apply Hext; set_solver).
      assert (Hba : b ∈ a :: l1) by (apply Hext; set_solver).
      apply elem_of_cons in Hab as [-> | Hab]; [done |].
      apply elem_of_cons in Hba as [-> | Hba]; [done |].
      exfalso. apply (string_lt_irrefl a).
      eapply string_lt_trans; [by apply Ha | by apply Hb]. }
    f_equal. apply IH; [done |]. intros x. split; intros Hx.
    + assert (Hx' : x ∈ b :: l2) by (apply Hext; set_solver).
      apply elem_of_cons in Hx' as [-> | Hx']; [| done].
      exfalso. apply (string_lt_irrefl b). by apply Ha.
    + assert (Hx' : x ∈ b :: l1) by (apply Hext; set_solver).
      apply elem_of_cons in Hx' as [-> | Hx']; [| done].
      exfalso. apply (string_lt_irrefl b). by apply Hb.
Qed.

(** For a pipeline built over an open ledger without records, after a
    quiet schedule (no call of the ledger's owner, one consumer task, no
    event in its hands) the ledger's [get_unique_topics] and the
    pipeline's [get_unique_topics] return the same list. *)
Theorem topics_agree w acts s :
  ledger_ok w →
  records w = [] →
  run acts (new_system w) = Some s →
  is_open (world s) = true →
  quiet acts s →
  fst (DedupStore.get_unique_topics (world s)) =
    Ok (processor_get_unique_topics s).
Proof.
  intros Hok Hempty Hrun Hopen _.
  destruct (run_ledger_log (records w) acts _ s Hrun) as (Hok' & Hrec & _).
  { split_and!; [done | by rewrite app_nil_r | done]. }
  rewrite Hempty in Hrec. simpl in Hrec.
  assert (Hi : Initialized (world s)).
  { destruct Hok' as [_ [Hn | [Hi | Hc]]]; [| done |];
      unfold is_open in Hopen; [by rewrite Hn in Hopen |].
    by rewrite Hc in Hopen. }
  destruct (initialized_inv _ Hi) as (d & p & rows & Hw & Hd).
  unfold records in Hrec. rewrite Hw in Hrec |- *. simpl in Hrec.
  rewrite Hd in Hrec. simpl in Hrec. subst rows.
  rewrite (get_unique_topics_eval d p _ Hd). simpl. f_equal.
  apply increasing_ext;
    [apply distinct_topics_increasing | apply processor_topics_increasing |].
  intros t. rewrite distinct_topics_elem, processor_topics_elem. split.
  - intros (r & (e & -> & Hr)%list_elem_of_fmap & <-). by exists e.
  - intros (e & Hin & <-). exists (event_row e).
    split; [| done]. apply list_elem_of_fmap. by exists e.
Qed.

Lemma topics_agree_witness :
  ∃ s,
    run (publish_and_consume five_events 11) (new_system ledger_example)
      = Some s ∧
    fst (DedupStore.get_unique_topics (world s)) =
      Ok (processor_get_unique_topics s).
Proof.
  eexists. split; [vm_compute; reflexivity |].
  apply (topics_agree ledger_example (publish_and_consume five_events 11)).
  - split; [apply NoDup_nil_2 | right; left; split;
                                 [reflexivity | by eexists]].
  - reflexivity.
  - vm_compute. reflexivity.
  - reflexivity.
  - split_and!; [reflexivity | simpl; lia | reflexivity].
Defined.

Lemma topic_count_event_rows t l :
  topic_count t (map event_row l) =
  Z.of_nat (length (filter (fun e => Event.topic e = t) l)).
Proof.
  unfold topic_count. f_equal.
  induction l as [| e l IH]; [done |]. simpl.
  destruct (decide (Event.topic e = t)) as [He | He].
  - rewrite !filter_cons_True by done. simpl. by rewrite IH.
  - by rewrite !filter_cons_False by done.
Qed.

(** [get_events] with a non-empty topic returns the processed events of
    that topic in the order of the log, with no topic or the empty
    string the whole log; and for a pipeline built over an open ledger
    without records, after a quiet schedule (no call of the ledger's
    owner, one consumer task, no event in its hands),
    [count_processed] of the ledger for a non-empty topic is the number
    of events [get_events] returns for it. *)
Theorem get_events_matches_count w acts s t :
  ledger_ok w →
  records w = [] →
  run acts (new_system w) = Some s →
  is_open (world s) = true →
  t ≠ "" →
  EventProcessor.get_events (Some t) s =
    filter (fun e => Event.topic e = t) (processed_events (proc s)) ∧
  EventProcessor.get_events (Some t) s
    `sublist_of` EventProcessor.get_events None s ∧
  EventProcessor.get_events (Some "") s = EventProcessor.get_events None s ∧
  (quiet acts s →
   fst (DedupStore.count_processed (Some t) (world s)) =
     Ok (Z.of_nat (length (EventProcessor.get_events (Some t) s)))).
Proof.
  intros Hok Hempty Hrun Hopen Hne.
  destruct (run_ledger_log (records w) acts _ s Hrun) as (Hok' & Hrec & _).
  { split_and!; [done | by rewrite app_nil_r | done]. }
  rewrite Hempty in Hrec. simpl in Hrec.
  assert (Hi : Initialized (world s)).
  { destruct Hok' as [_ [Hn | [Hi | Hc]]]; [| done |];
      unfold is_open in Hopen; [by rewrite Hn in Hopen |].
    by rewrite Hc in Hopen. }
  assert (Hget : EventProcessor.get_events (Some t) s =
                 filter (λ e, Event.topic e = t) (processed_events (proc s))).
  { unfold EventProcessor.get_events.
    apply String.eqb_neq in Hne. by rewrite Hne. }
  split_and!; [done | | done |].
  - rewrite Hget. apply sublist_filter.
  - intros _.
    destruct (initialized_inv _ Hi) as (d & p & rows & Hw & Hd).
    unfold records in Hrec. rewrite Hw in Hrec |- *. simpl in Hrec.
    rewrite Hd in Hrec. simpl in Hrec. subst rows.
    rewrite Hget, (count_processed_eval d p _ _ Hd). cbn [fst].
    apply String.eqb_neq in Hne. rewrite Hne.
    by rewrite topic_count_event_rows.
Qed.

Lemma get_events_matches_count_witness :
  ∃ s,
    run (publish_and_consume five_events 11) (new_system ledger_example)
      = Some s ∧
    fst (DedupStore.count_processed (Some "T") (world s)) =
      Ok (Z.of_nat (length (EventProcessor.get_events (Some "T") s))).
Proof.
  eexists. split; [vm_compute; reflexivity |].
  apply (get_events_matches_count ledger_example
           (publish_and_consume five_events 11) _ "T").
  - split; [apply NoDup_nil_2 | right; left; split;
                                 [reflexivity | by eexists]].
  - reflexivity.
  - vm_compute. reflexivity.
  - reflexivity.
  - discriminate.
  - split_and!; [reflexivity | simpl; lia | reflexivity].
Defined.


(** ** A batch through one consumer *)

(** A waiting consumer with [events] queued and as many tasks unfinished
    works the queue off in two runs per event. *)
Lemma drain events :
  ∀ d p rows wt log r u dd ct sr el k,
    d !! p = Some rows →
    ∃ d' wt' sr',
      run (repeat (TaskRun 0) (2 * length events + k))
        (mkSystem
           (mkWorld d (mkDedupStore p (Some (aiosqlite.connect p))))
           (mkEventProcessor
              (Queue.mk events (Z.of_nat (length events)) wt) log
              (mkStats r u dd) ct true)
           [Waiting] sr el) =
      Some
        (mkSystem
           (mkWorld d' (mkDedupStore p (Some (aiosqlite.connect p))))
           (mkEventProcessor (Queue.mk [] 0 wt')
              (log ++ first_seen rows events)
              (mkStats r
                 (u + Z.of_nat (length (first_seen rows events)))
                 (dd + Z.of_nat (length events)
                  - Z.of_nat (length (first_seen rows events))))
              ct true)
           [Waiting] sr' el) ∧
      d' !! p = Some (rows ++ map event_row (first_seen rows events)) ∧
      (wt' + sr' = wt + sr)%nat.
Proof.
  induction events as [| e rest IH]; intros d p rows wt log r u dd ct sr el k Hd.
  - exists d, wt, sr. simpl. rewrite consumer_idle.
    rewrite !app_nil_r, !Z.add_0_r, Z.sub_0_r. done.
  - replace (2 * length (e :: rest) + k)%nat
      with (S (S (2 * length rest + k))) by (simpl; lia).
    cbn [repeat].
    assert (Hn : (Z.of_nat (length (e :: rest)) - 1)%Z
                 = Z.of_nat (length rest)) by (simpl; lia).
    destruct rest as [| e' rest'] eqn:Hrest.
    + rewrite (consume_last d p rows _ _ _ _ _ _ _ _ _ _ _ Hd).
      cbn [first_seen].
      destruct (has_key _ _ rows).
      * destruct (IH d p rows 0%nat log r u (dd + 1)%Z ct (sr + wt)%nat el k Hd)
          as (d' & wt' & sr' & Hrun & Hd' & Hw).
        exists d', wt', sr'. split; [| split; [exact Hd' | lia]].
        etrans; [exact Hrun |]. simpl. repeat (f_equal; try lia).
      * destruct (IH (<[p := rows ++ [event_row e]]> d) p
                    (rows ++ [event_row e]) 0%nat (log ++ [e]) r (u + 1)%Z dd
                    ct (sr + wt)%nat el k (lookup_insert_eq _ _ _))
          as (d' & wt' & sr' & Hrun & Hd' & Hw).
        exists d', wt', sr'. split.
        -- etrans; [exact Hrun |]. simpl. rewrite app_nil_r.
           repeat (f_equal; try lia).
        -- split; [| lia]. rewrite Hd'. simpl. by rewrite <- app_assoc.
    + rewrite <- Hrest in *.
      assert (Hlt : (1 < Z.of_nat (length (e :: rest)))%Z)
        by (rewrite Hrest; simpl; lia).
      rewrite (consume_one d p rows _ _ _ _ _ _ _ _ _ _ _ _ Hd Hlt).
      rewrite Hn. cbn [first_seen].
      destruct (has_key _ _ rows).
      * destruct (IH d p rows wt log r u (dd + 1)%Z ct sr el k Hd)
          as (d' & wt' & sr' & Hrun & Hd' & Hw).
        exists d', wt', sr'. split; [| split; [exact Hd' | lia]].
        etrans; [exact Hrun |]. cbn [length].
        repeat (f_equal; try lia).
      * destruct (IH (<[p := rows ++ [event_row e]]> d) p
                    (rows ++ [event_row e]) wt (log ++ [e]) r (u + 1)%Z dd
                    ct sr el k (lookup_insert_eq _ _ _))
          as (d' & wt' & sr' & Hrun & Hd' & Hw).
        exists d', wt', sr'. split.
        -- etrans; [exact Hrun |]. rewrite <- app_assoc.
           cbn [length app].
           repeat (f_equal; try lia).
        -- split; [| lia]. rewrite Hd'. cbn [map]. by rewrite <- app_assoc.
Qed.

(** A new pipeline over an initialized ledger is started and one batch
    of any length [n] is published; once the consumer task has run
    [2 n + 1] times (and however often after that) the queue is empty
    and joined, no error was logged, the processed log is the events of
    the batch whose pair was neither recorded before nor carried by an
    earlier event of the batch, in the order of the batch, the ledger
    holds one more record for each of them, and the counters are
    received = n, unique_processed = the length of the log,
    duplicate_dropped = the rest. *)
Theorem batch_drains w events k :
  Initialized w →
  ∃ s,
    run (publish_and_consume events (1 + 2 * length events + k))
      (new_system w) = Some s ∧
    processed_events (proc s) = first_seen (records w) events ∧
    records (world s) =
      records w ++ map event_row (first_seen (records w) events) ∧
    EventProcessor.get_stats s =
      mkStats (Z.of_nat (length events))
        (Z.of_nat (length (first_seen (records w) events)))
        (Z.of_nat (length events)
         - Z.of_nat (length (first_seen (records w) events))) ∧
    Queue.items (queue (proc s)) = [] ∧
    Queue.joined (queue (proc s)) = true ∧
    error_log s = [].
Proof.
  intros Hi.
  destruct (initialized_inv w Hi) as (d & p & rows & -> & Hd).
  unfold publish_and_consume.
  change (repeat (TaskRun 0) (1 + 2 * length events + k)) with
    (TaskRun 0 :: repeat (TaskRun 0) (2 * length events + k)).
  rewrite started_pipeline.
  destruct (drain events d p rows 0%nat [] (Z.of_nat (length events)) 0%Z 0%Z
              (Some 0%nat) 0%nat [] k Hd) as (d' & wt' & sr' & Hrun & Hd' & Hw).
  eexists. split; [exact Hrun |].
  unfold records. cbn. rewrite Hd, Hd'. cbn [default].
  by split_and!.
Qed.

Lemma batch_drains_witness :
  ∃ s,
    run (publish_and_consume five_events 11) (new_system ledger_three)
      = Some s ∧
    processed_events (proc s) = first_seen (records ledger_three) five_events.
Proof.
  destruct (batch_drains ledger_three five_events 0) as (s & Hrun & Hlog & _).
  - split; [reflexivity | by eexists].
  - exists s. split; [exact Hrun | exact Hlog].
Defined.

(** ** Stopping under load *)

Lemma may_finish_one_range t : (0 ≤ may_finish_one t ≤ 1)%Z.
Proof. destruct t; simpl; lia. Qed.

Lemma may_finish_nonneg l : (0 ≤ may_finish l)%Z.
Proof.
  induction l as [| t l IH]; simpl; [lia |].
  pose proof (may_finish_one_range t). lia.
Qed.

Lemma may_finish_insert l i t t' :
  l !! i = Some t →
  may_finish (<[i := t']> l) =
  (may_finish l - may_finish_one t + may_finish_one t')%Z.
Proof.
  revert i. induction l as [| u l IH]; intros i Hi; [done |].
  destruct i as [| i]; simpl in *.
  - inversion Hi; subst. lia.
  - rewrite (IH i Hi). lia.
Qed.

Lemma may_finish_lookup l i t :
  l !! i = Some t → (may_finish_one t ≤ may_finish l)%Z.
Proof.
  revert i. induction l as [| u l IH]; intros i Hi; [done |].
  destruct i as [| i]; simpl in *.
  - inversion Hi; subst. pose proof (may_finish_nonneg l). lia.
  - specialize (IH i Hi). pose proof (may_finish_one_range u). lia.
Qed.

Lemma task_run_overloaded i s s' :
  EventProcessor.task_run i s = Some s' → overloaded s → overloaded s'.
Proof.
  unfold EventProcessor.task_run. intros Hstep (Hrun & Hsr & Hlt).
  destruct (tasks s !! i) as [t|] eqn:Hi; [| done].
  pose proof (may_finish_lookup _ _ _ Hi) as Hle.
  pose proof (may_finish_insert (tasks s) i t Finished Hi) as Hfin.
  pose proof (may_finish_insert (tasks s) i t) as Hins.
  destruct s as [w [[its n wt] l [r u dd] ct b] ts sr el].
  simpl in Hrun, Hsr, Hlt, Hi, Hle, Hfin, Hins. subst b sr.
  unfold overloaded.
  unfold EventProcessor.consumer_loop_step, EventProcessor.loop_head in Hstep.
  destruct t as [| | ev |]; simpl in Hstep; [| | | done].
  - inversion Hstep; subst; clear Hstep. simpl.
    split_and!; [done | done |]. rewrite Hfin. simpl. lia.
  - destruct its as [| e its']; simpl in Hstep;
      inversion Hstep; subst; clear Hstep; simpl.
    + split_and!; [done | done |]. rewrite Hfin. simpl. lia.
    + split_and!; [done | done |]. rewrite (Hins (Processing e) Hi). simpl. lia.
  - unfold try_except, mbind, M_bind, bind in Hstep.
    rewrite process_event_eval in Hstep. simpl in Hstep, Hle.
    assert (Hn : (n <=? 0)%Z = false) by lia.
    assert (Hn1 : (n - 1 =? 0)%Z = false) by lia.
    destruct (DedupStore.mark_processed _ _ _ w) as [[[|]|x] w'];
      simpl in Hstep.
    + unfold EventProcessor.queue_task_done, Queue.task_done in Hstep.
      simpl in Hstep. rewrite Hn, Hn1 in Hstep. simpl in Hstep.
      inversion Hstep; subst; clear Hstep. simpl.
      split_and!; [done | done |]. rewrite Hfin. simpl. lia.
    + unfold EventProcessor.queue_task_done, Queue.task_done in Hstep.
      simpl in Hstep. rewrite Hn, Hn1 in Hstep. simpl in Hstep.
      inversion Hstep; subst; clear Hstep. simpl.
      split_and!; [done | done |]. rewrite Hfin. simpl. lia.
    + inversion Hstep; subst; clear Hstep. simpl.
      split_and!; [done | done |]. rewrite Hfin. simpl. lia.
Qed.

Lemma stop_overloaded s :
  stops_resuming s = 0 →
  (may_finish (tasks s) < Queue.unfinished_tasks (queue (proc s)))%Z →
  overloaded (EventProcessor.stop s).
Proof.
  intros Hsr Hlt. pose proof (may_finish_nonneg (tasks s)) as Hnn.
  unfold EventProcessor.stop, overloaded. simpl.
  destruct (consumer_task (proc s)) as [i|]; [| done].
  unfold Queue.joined.
  destruct (Z.eqb_spec (Queue.unfinished_tasks (queue (proc s))) 0) as [Hz|Hz];
    [lia |].
  done.
Qed.

Lemma step_overloaded a s s' :
  is_start a = false →
  step a s = Some s' → overloaded s → overloaded s'.
Proof.
  intros Hns Hstep Hov.
  destruct a as [events | | | | i | |]; simpl in Hstep, Hns; try done.
  - destruct Hov as (Hrun & Hsr & Hlt).
    rewrite publish_eval in Hstep. inversion Hstep; subst; clear Hstep.
    unfold overloaded. simpl. split_and!; [done | done | lia].
  - inversion Hstep; subst; clear Hstep.
    destruct Hov as (Hrun & Hsr & Hlt). by apply stop_overloaded.
  - destruct Hov as (Hrun & Hsr & Hlt).
    unfold EventProcessor.stop_resume in Hstep. by rewrite Hsr in Hstep.
  - by eapply task_run_overloaded.
  - unfold lift_world in Hstep.
    destruct (DedupStore.initialize (world s)) as [r0 w'].
    by inversion Hstep; subst.
  - unfold lift_world in Hstep.
    destruct (DedupStore.close (world s)) as [r0 w'].
    by inversion Hstep; subst.
Qed.

Lemma run_overloaded acts s s' :
  forallb (fun a => negb (is_start a)) acts = true →
  run acts s = Some s' → overloaded s → overloaded s'.
Proof.
  revert s. induction acts as [| a acts IH]; intros s Hns Hrun Hov;
    simpl in Hrun, Hns.
  - by inversion Hrun; subst.
  - apply andb_true_iff in Hns as [Ha Hns].
    destruct (step a s) as [s1|] eqn:Hstep; [| done].
    eapply IH; [done | exact Hrun |].
    eapply step_overloaded; [| exact Hstep | done].
    by destruct (is_start a).
Qed.

(** [stop()] clears [_running] before it waits for the queue, and a
    consumer task that sees the flag cleared leaves its loop after the
    event it waits for or holds.  So when [stop()] is called with more
    tasks unfinished in the queue's books than there are consumer tasks
    waiting or processing, [queue.join()] is never satisfied: as long as
    [start()] is not called again, whatever else is scheduled, the
    [stop()] call stays suspended. *)
Theorem stop_under_load s acts s' :
  stops_resuming s = 0 →
  (may_finish (tasks s) < Queue.unfinished_tasks (queue (proc s)))%Z →
  forallb (fun a => negb (is_start a)) acts = true →
  run (Stop :: acts) s = Some s' →
  _running (proc s') = false ∧
  Queue.joined (queue (proc s')) = false ∧
  step StopResume s' = None.
Proof.
  intros Hsr Hlt Hns Hrun. simpl in Hrun.
  destruct (run_overloaded acts _ s' Hns Hrun (stop_overloaded s Hsr Hlt))
    as (Hr & Hsr' & Hlt').
  pose proof (may_finish_nonneg (tasks s')).
  split_and!; [done | |].
  - unfold Queue.joined. apply Z.eqb_neq. lia.
  - simpl. unfold EventProcessor.stop_resume. by rewrite Hsr'.
Qed.

Lemma stop_under_load_witness :
  ∃ s',
    run [Stop; TaskRun 0; TaskRun 0; Stop] loaded_state = Some s' ∧
    Queue.joined (queue (proc s')) = false ∧
    step StopResume s' = None.
Proof.
  eexists. split; [vm_compute; reflexivity |].
  apply (stop_under_load loaded_state [TaskRun 0; TaskRun 0; Stop]).
  - reflexivity.
  - vm_compute. reflexivity.
  - reflexivity.
  - vm_compute. reflexivity.
Defined.

Lemma error_blocks_stop_witness :
  ∃ s2,
    run (failing_schedule ++ [Stop])
      (new_system (fresh_ledger ∅ "data/dedup.db")) = Some s2 ∧
    Queue.joined (queue (proc s2)) = false ∧
    step StopResume s2 = None.
Proof.
  eexists. split; [vm_compute; reflexivity |].
  eapply (error_blocks_stop (fresh_ledger ∅ "data/dedup.db")
            (publish_and_consume [create_test_event "T" "1" example_now] 2)
            _ 0 (create_test_event "T" "1" example_now)
            DedupStore.not_initialized (fresh_ledger ∅ "data/dedup.db")
            failing_state [Stop]).
  - vm_compute. reflexivity.
  - reflexivity.
  - reflexivity.
  - reflexivity.
  - vm_compute. reflexivity.
  - vm_compute. reflexivity.
Defined.

(** ** Batches *)

(** Publishing a batch in one call leaves the pipeline as publishing its
    two halves one after the other does, and the counts the calls
    return add up. *)
Theorem publish_batches_compose events1 events2 s :
  snd (EventProcessor.publish (events1 ++ events2) s) =
    snd (EventProcessor.publish events2
           (snd (EventProcessor.publish events1 s))) ∧
  fst (EventProcessor.publish (events1 ++ events2) s) =
    Ok [("received",
         (Z.of_nat (length events1) + Z.of_nat (length events2))%Z)] ∧
  run [Publish events1; Publish events2] s =
    run [Publish (events1 ++ events2)] s.
Proof.
  assert (H : snd (EventProcessor.publish (events1 ++ events2) s) =
              snd (EventProcessor.publish events2
                     (snd (EventProcessor.publish events1 s)))).
  { rewrite !publish_eval. cbn [snd world proc tasks stops_resuming error_log
      queue processed_events stats consumer_task _running Queue.items
      Queue.unfinished_tasks Queue.waiters received unique_processed
      duplicate_dropped].
    rewrite length_app, Nat2Z.inj_add, app_assoc, !Z.add_assoc. done. }
  split_and!.
  - exact H.
  - rewrite publish_eval. cbn [fst]. by rewrite length_app, Nat2Z.inj_add.
  - cbn [run step]. by rewrite H.
Qed.

(** ** The life of the service *)

Lemma run_app acts1 acts2 s :
  run (acts1 ++ acts2) s =
  match run acts1 s with
  | Some s1 => run acts2 s1
  | None => None
  end.
Proof.
  revert s. induction acts1 as [| a acts1 IH]; intros s; simpl; [done |].
  destruct (step a s); [apply IH | done].
Qed.

Lemma run_cons a acts s :
  run (a :: acts) s =
  match step a s with
  | Some s' => run acts s'
  | None => None
  end.
Proof. reflexivity. Qed.

(** What the consumer accepted was not recorded before. *)
Lemma first_seen_fresh rows events e :
  e ∈ first_seen rows events →
  has_key (Event.topic e) (Event.event_id e) rows = false.
Proof.
  revert rows. induction events as [| e0 events IH]; intros rows; simpl.
  - by intros ?%elem_of_nil.
  - destruct (has_key (Event.topic e0) (Event.event_id e0) rows) eqn:Hk.
    + apply IH.
    + intros [-> | Hin]%elem_of_cons; [done |].
      apply IH in Hin. rewrite has_key_app in Hin.
      by apply orb_false_iff in Hin as [? _].
Qed.

(** Every event of the batch is recorded afterwards. *)
Lemma first_seen_covers rows events e :
  e ∈ events →
  has_key (Event.topic e) (Event.event_id e)
    (rows ++ map event_row (first_seen rows events)) = true.
Proof.
  revert rows. induction events as [| e0 events IH]; intros rows; simpl.
  - by intros ?%elem_of_nil.
  - intros Hin.
    destruct (has_key (Event.topic e0) (Event.event_id e0) rows) eqn:Hk.
    + apply elem_of_cons in Hin as [-> | Hin]; [| by apply IH].
      by rewrite has_key_app, Hk.
    + cbn [map]. rewrite cons_middle, app_assoc.
      apply elem_of_cons in Hin as [-> | Hin]; [| by apply IH].
      by rewrite has_key_app, has_key_event_row.
Qed.

Lemma has_key_event_key e e' rows :
  event_key e = event_key e' →
  has_key (Event.topic e) (Event.event_id e) rows =
  has_key (Event.topic e') (Event.event_id e') rows.
Proof. unfold event_key. intros [= -> ->]. done. Qed.

(** One life of the service with one batch, drained before shutdown. *)
Lemma lifespan_drained d events k :
  ∃ s d',
    lifespan d (serve events (1 + 2 * length events + k)) = Some s ∧
    world s =
      mkWorld d'
        (mkDedupStore "data/dedup.db"
           (Some (aiosqlite.close (aiosqlite.connect "data/dedup.db")))) ∧
    d' !! "data/dedup.db" =
      Some (default [] (d !! "data/dedup.db") ++
            map event_row
              (first_seen (default [] (d !! "data/dedup.db")) events)) ∧
    processed_events (proc s) =
      first_seen (default [] (d !! "data/dedup.db")) events ∧
    EventProcessor.get_stats s =
      mkStats (Z.of_nat (length events))
        (Z.of_nat (length (processed_events (proc s))))
        (Z.of_nat (length events)
         - Z.of_nat (length (processed_events (proc s)))) ∧
    tasks s = [Finished] ∧
    _running (proc s) = false ∧
    Queue.waiters (queue (proc s)) = 0%nat ∧
    Queue.items (queue (proc s)) = [] ∧
    error_log s = [].
Proof.
  unfold lifespan, serve.
  change ([StoreInitialize; Start] ++
          (Publish events :: repeat (TaskRun 0) (1 + 2 * length events + k)) ++
          [Stop; StoreClose])
    with (StoreInitialize :: Start :: Publish events :: TaskRun 0 ::
          (repeat (TaskRun 0) (2 * length events + k) ++ [Stop; StoreClose])).
  rewrite run_cons. cbn [step]. unfold lift_world. cbn [world new_system].
  unfold fresh_ledger, DedupStore.__init__. rewrite initialize_eval.
  cbn [snd proc tasks stops_resuming error_log new_system].
  set (d1 := match d !! "data/dedup.db" with
             | Some _ => d
             | None => <[("data/dedup.db") := []]> d
             end).
  assert (Hd1 : d1 !! "data/dedup.db" = Some (default [] (d !! "data/dedup.db"))).
  { subst d1. destruct (d !! "data/dedup.db") as [rows|] eqn:Hd; simpl.
    - done.
    - apply lookup_insert_eq. }
  pose proof (started_pipeline
                (mkWorld d1 (mkDedupStore "data/dedup.db"
                               (Some (aiosqlite.connect "data/dedup.db"))))
                events
                (repeat (TaskRun 0) (2 * length events + k)
                   ++ [Stop; StoreClose])) as Hstart.
  unfold new_system in Hstart. rewrite Hstart. clear Hstart.
  rewrite run_app.
  destruct (drain events d1 "data/dedup.db" _ 0%nat []
              (Z.of_nat (length events)) 0%Z 0%Z
              (Some 0%nat) 0%nat [] k Hd1)
    as (d' & wt' & sr' & Hrun & Hd' & Hw).
  rewrite Hrun.
  assert (wt' = 0%nat) as -> by lia.
  eexists _, d'. split; [reflexivity |].
  cbn. by split_and!.
Qed.

(** The service runs twice on the same files, each time from startup to
    shutdown with one batch drained in between.  Both shutdowns complete
    with the consumer task finished and the ledger closed.  The second
    life accepts of its batch the events whose pair the first life left
    no record of, in order, and none that carries the pair of an event of
    the first batch. *)
Theorem restart_drops_replayed d events k events' k' :
  ∃ s1 s2,
    lifespan d (serve events (1 + 2 * length events + k)) = Some s1 ∧
    lifespan (disk (world s1))
      (serve events' (1 + 2 * length events' + k')) = Some s2 ∧
    tasks s1 = [Finished] ∧ is_open (world s1) = false ∧
    tasks s2 = [Finished] ∧ is_open (world s2) = false ∧
    records (world s1) =
      default [] (d !! "data/dedup.db")
        ++ map event_row (processed_events (proc s1)) ∧
    processed_events (proc s2) = first_seen (records (world s1)) events' ∧
    records (world s2) =
      records (world s1) ++ map event_row (processed_events (proc s2)) ∧
    EventProcessor.get_stats s2 =
      mkStats (Z.of_nat (length events'))
        (Z.of_nat (length (processed_events (proc s2))))
        (Z.of_nat (length events')
         - Z.of_nat (length (processed_events (proc s2)))) ∧
    ∀ e e',
      e ∈ events → e' ∈ processed_events (proc s2) →
      event_key e' ≠ event_key e.
Proof.
  destruct (lifespan_drained d events k)
    as (s1 & d1 & Hrun1 & Hw1 & Hd1 & Hlog1 & _ & Ht1 & _).
  destruct (lifespan_drained d1 events' k')
    as (s2 & d2 & Hrun2 & Hw2 & Hd2 & Hlog2 & Hst2 & Ht2 & _).
  exists s1, s2.
  assert (Hr1 : records (world s1) =
                default [] (d !! "data/dedup.db")
                  ++ map event_row (processed_events (proc s1))).
  { unfold records. rewrite Hw1. cbn. rewrite Hd1, Hlog1. done. }
  assert (Hr1' : default [] (d1 !! "data/dedup.db") = records (world s1)).
  { unfold records. rewrite Hw1. cbn. done. }
  rewrite Hr1' in Hlog2, Hd2.
  split_and!; try done.
  - by rewrite Hw1.
  - by rewrite Hw1.
  - by rewrite Hw2.
  - unfold records at 1. rewrite Hw2. cbn. rewrite Hd2, Hlog2. done.
  - intros e e' He He' Hkey. rewrite Hlog2 in He'.
    apply first_seen_fresh in He'.
    rewrite (has_key_event_key _ _ _ Hkey) in He'.
    rewrite Hr1, Hlog1 in He'.
    by rewrite (first_seen_covers _ _ _ He) in He'.
Qed.

(** ** The HTTP handlers *)

(** [POST /publish] on a started application answers 202 and queues the
    events of the body as one [publish] call.  [received] of the
    response is the number of events in the body; [unique_processed] and
    [duplicate_dropped] are the pipeline's counters as they were before
    the request, because nothing of the body has been processed when
    the response is built. *)
Theorem publish_events_response data s :
  ∃ r s',
    main.publish_events data (Some s) = (Response 202 r, Some s') ∧
    step (Publish (events_of data)) s = Some s' ∧
    EventResponse.received r = Z.of_nat (length (events_of data)) ∧
    EventResponse.unique_processed r = unique_processed (stats (proc s)) ∧
    EventResponse.duplicate_dropped r = duplicate_dropped (stats (proc s)) ∧
    EventResponse.message r =
      ("Received " ++ str_int (Z.of_nat (length (events_of data)))
         ++ " event(s) for processing")%string ∧
    processed_events (proc s') = processed_events (proc s) ∧
    world s' = world s.
Proof.
  unfold main.publish_events.
  change (match data with
          | DataEvent e => [e]
          | DataBatch events => events
          end) with (events_of data).
  cbn [step]. rewrite publish_eval. cbn [getitem String.eqb Ascii.eqb Bool.eqb].
  do 2 eexists. split; [reflexivity |]. by split_and!.
Qed.

(** [GET /stats] on an application whose ledger is open answers 200 with
    the pipeline's counters and the ledger's topics and changes nothing.
    The topics are in strictly increasing order.  After a quiet
    schedule (no call of the ledger's owner, one consumer task, no event
    in its hands) they are the topics of the records the ledger held
    when the pipeline was built together with the topics of the
    processed log: the counters start at zero in every life of the
    service, the topics do not. *)
Theorem stats_endpoint_topics w acts s :
  ledger_ok w →
  run acts (new_system w) = Some s →
  is_open (world s) = true →
  ∃ r,
    main.get_stats (Some s) = (Response 200 r, Some s) ∧
    StatsResponse.received r = received (stats (proc s)) ∧
    StatsResponse.unique_processed r =
      Z.of_nat (length (processed_events (proc s))) ∧
    StatsResponse.duplicate_dropped r = duplicate_dropped (stats (proc s)) ∧
    increasing (StatsResponse.topics r) ∧
    (quiet acts s →
     ∀ t, t ∈ StatsResponse.topics r ↔
          (∃ row, row ∈ records w ∧ row_topic row = t) ∨
          (∃ e, e ∈ processed_events (proc s) ∧ Event.topic e = t)).
Proof.
  intros Hok Hrun Hopen.
  destruct (run_ledger_log (records w) acts _ s Hrun) as (Hok' & Hrec & Hu).
  { split_and!; [done | by rewrite app_nil_r | done]. }
  assert (Hi : Initialized (world s)).
  { destruct Hok' as [_ [Hn | [Hi | Hc]]]; [| done |];
      unfold is_open in Hopen; [by rewrite Hn in Hopen |].
    by rewrite Hc in Hopen. }
  destruct (initialized_inv _ Hi) as (d & p & rows & Hw & Hd).
  unfold records in Hrec at 1. rewrite Hw in Hrec. simpl in Hrec.
  rewrite Hd in Hrec. simpl in Hrec.
  unfold main.get_stats, lift_world. rewrite Hw.
  rewrite (get_unique_topics_eval d p rows Hd). rewrite <- Hw.
  eexists. split; [by destruct s |].
  cbn. split_and!; [done | done | done | apply distinct_topics_increasing |].
  intros _ t. rewrite distinct_topics_elem, Hrec. split.
  - intros (r & [Hr | Hr]%elem_of_app & <-); [left; by exists r |].
    apply list_elem_of_fmap in Hr as (e & -> & He). right. by exists e.
  - intros [(r & Hr & <-) | (e & He & <-)].
    + exists r. split; [apply elem_of_app; by left | done].
    + exists (event_row e). split; [| done].
      apply elem_of_app. right. apply list_elem_of_fmap. by exists e.
Qed.

Lemma stats_endpoint_topics_witness :
  ∃ s r,
    run (publish_and_consume five_events 11) (new_system ledger_three)
      = Some s ∧
    main.get_stats (Some s) = (Response 200 r, Some s) ∧
    increasing (StatsResponse.topics r) ∧
    "T" ∈ StatsResponse.topics r ∧
    "a" ∈ StatsResponse.topics r.
Proof.
  assert (Hok : ledger_ok ledger_three).
  { split; [| right; left; split; [reflexivity | by eexists]].
    unfold unique_keys. vm_compute.
    repeat (constructor; [set_solver |]). constructor. }
  assert (Hrun : run (publish_and_consume five_events 11)
                   (new_system ledger_three) =
                 Some (default (new_system ledger_three)
                         (run (publish_and_consume five_events 11)
                            (new_system ledger_three))))
    by (vm_compute; reflexivity).
  destruct (stats_endpoint_topics ledger_three
              (publish_and_consume five_events 11) _ Hok Hrun)
    as (r & Hr & _ & _ & _ & Hinc & Hin); [vm_compute; reflexivity |].
  assert (Hq : quiet (publish_and_consume five_events 11)
                 (default (new_system ledger_three)
                    (run (publish_and_consume five_events 11)
                       (new_system ledger_three))))
    by (split_and!; [reflexivity | vm_compute; lia | vm_compute; reflexivity]).
  eexists _, r. split; [exact Hrun |]. split_and!; [exact Hr | exact Hinc | |].
  - apply (Hin Hq). right.
    exists (create_test_event "T" "1" example_now). split; [| reflexivity].
    vm_compute. apply list_elem_of_here.
  - apply (Hin Hq). left.
    exists (mkRow "a" "1" "t1"). split; [| reflexivity].
    vm_compute. apply list_elem_of_here.
Defined.

(** [GET /stats] on an application whose ledger is not open, before
    [initialize] or after [close], answers 500 through the global
    exception handler and changes nothing. *)
Theorem stats_endpoint_unavailable w acts s :
  ledger_ok w →
  run acts (new_system w) = Some s →
  is_open (world s) = false →
  main.get_stats (Some s) = (Detail 500 "Internal server error", Some s).
Proof.
  intros Hok Hrun Hopen.
  destruct (run_ledger_log (records w) acts _ s Hrun) as (Hok' & _).
  { split_and!; [done | by rewrite app_nil_r | done]. }
  destruct s as [[d [p o]] pr ts sr el].
  destruct Hok' as [_ [Hn | [[Hi _] | Hc]]]; simpl in *.
  - subst o. reflexivity.
  - unfold is_open in Hopen. simpl in Hopen. by rewrite Hi in Hopen.
  - subst o. reflexivity.
Qed.

Lemma stats_endpoint_unavailable_witness :
  main.get_stats (Some (new_system (fresh_ledger ∅ "data/dedup.db"))) =
  (Detail 500 "Internal server error",
   Some (new_system (fresh_ledger ∅ "data/dedup.db"))).
Proof.
  apply (stats_endpoint_unavailable (fresh_ledger ∅ "data/dedup.db") []).
  - split; [apply NoDup_nil_2 | by left].
  - reflexivity.
  - reflexivity.
Defined.

(** [GET /events] on a started application answers 200, echoes the
    topic, and lists the processed events of that topic in the order of
    the log, the whole log when the topic is absent or empty; [count] is
    the length of the list and never above [unique_processed], which it
    equals when the whole log is listed. *)
Theorem events_endpoint_count w acts s topic :
  ledger_ok w →
  run acts (new_system w) = Some s →
  ∃ r,
    main.get_events topic (Some s) = Response 200 r ∧
    EventQueryResponse.topic r = topic ∧
    EventQueryResponse.count r =
      Z.of_nat (length (EventQueryResponse.events r)) ∧
    EventQueryResponse.events r `sublist_of` processed_events (proc s) ∧
    (EventQueryResponse.count r ≤ unique_processed (stats (proc s)))%Z ∧
    (∀ t, topic = Some t → t ≠ "" →
       EventQueryResponse.events r =
         filter (fun e => Event.topic e = t) (processed_events (proc s))) ∧
    (topic = None ∨ topic = Some "" →
       EventQueryResponse.events r = processed_events (proc s) ∧
       EventQueryResponse.count r = unique_processed (stats (proc s))).
Proof.
  intros Hok Hrun.
  destruct (run_ledger_log (records w) acts _ s Hrun) as (_ & _ & Hu).
  { split_and!; [done | by rewrite app_nil_r | done]. }
  eexists. split; [reflexivity |]. cbn. rewrite Hu.
  assert (Hsub : EventProcessor.get_events topic s
                   `sublist_of` processed_events (proc s)).
  { unfold EventProcessor.get_events.
    destruct topic as [t|]; [| done].
    destruct (negb (t =? "")); [apply sublist_filter | done]. }
  split_and!; try done.
  - apply sublist_length in Hsub. lia.
  - intros t -> Hne. unfold EventProcessor.get_events.
    apply String.eqb_neq in Hne. by rewrite Hne.
  - intros [-> | ->]; by split.
Qed.

Lemma events_endpoint_count_witness :
  ∃ s r,
    run (publish_and_consume five_events 11) (new_system ledger_example)
      = Some s ∧
    main.get_events (Some "T") (Some s) = Response 200 r ∧
    (EventQueryResponse.count r ≤ unique_processed (stats (proc s)))%Z.
Proof.
  assert (Hrun : run (publish_and_consume five_events 11)
                   (new_system ledger_example) =
                 Some (default (new_system ledger_example)
                         (run (publish_and_consume five_events 11)
                            (new_system ledger_example))))
    by (vm_compute; reflexivity).
  assert (Hok : ledger_ok ledger_example).
  { split; [apply NoDup_nil_2 | right; left; split;
                                 [reflexivity | by eexists]]. }
  destruct (events_endpoint_count ledger_example
              (publish_and_consume five_events 11) _ (Some "T") Hok Hrun)
    as (r & Hr & _ & _ & _ & Hle & _).
  eexists _, r. split; [exact Hrun |]. split; [exact Hr | exact Hle].
Defined.
